(** * A shallow embedding of [parser.py]

    The recursive-descent parser of the generator front end, embedded
    as state-passing Rocq functions over the cursor of the source
    ([Parser]: a token list and an index), together with the validating
    constructor of [PolymorphicType] and the data classes of the AST.

    Conventions
    - A Python [str] is a [str]: a sequence of Unicode code points; a
      character is its code point, and [isspace] is Python's
      [str.isspace] on all of them.
    - A Python [list] is a [list]; [l.append(x)] is [l ++ [x]].
    - A Python [dict] (and [OrderedDict]) is an association list in
      insertion order ([dict]), with [d[k] = v] as [dict_set].
    - A Python [set] of names is a [gset str].
    - A raised exception is [Raise]; every [while] loop runs on fuel and
      [OutOfFuel] stands for a loop that has not finished. *)

From stdpp Require Import base list strings gmap.
From Stdlib Require Import Ascii.

(** ** Strings: [lexeme[1:-1].strip()] *)

(** A Python [str]: a sequence of Unicode code points. *)
Abbreviation char := N (only parsing).
Abbreviation str := (list N) (only parsing).

(** A string literal of this file stands for the [str] of its (ASCII)
    characters. *)
Fixpoint str_of_string (s : string) : str :=
  match s with
  | EmptyString => []
  | String c s' => N_of_ascii c :: str_of_string s'
  end.

Coercion str_of_string : string >-> list.

(** [str.isspace] for one character: the ASCII controls 9..13 and
    28..31, the space, NEL (U+0085), NBSP (U+00A0), U+1680, U+2000 to
    U+200A, U+2028, U+2029, U+202F, U+205F and U+3000; these are the
    characters [str.strip] removes. *)
Definition isspace (c : char) : bool :=
  (((9 <=? c) && (c <=? 13)) || ((28 <=? c) && (c <=? 32))
   || (c =? 133) || (c =? 160)
   || (c =? 5760) || ((8192 <=? c) && (c <=? 8202))
   || (c =? 8232) || (c =? 8233) || (c =? 8239) || (c =? 8287)
   || (c =? 12288))%N.

(** [s.lstrip()] *)
Fixpoint lstrip (s : str) : str :=
  match s with
  | [] => []
  | c :: s' => if isspace c then lstrip s' else s
  end.

(** [s.rstrip()] *)
Fixpoint rstrip (s : str) : str :=
  match s with
  | [] => []
  | c :: s' =>
      match rstrip s' with
      | [] => if isspace c then [] else [c]
      | r => c :: r
      end
  end.

(** [s.strip()] *)
Definition strip (s : str) : str := rstrip (lstrip s).

(** [s[1:-1]]: the characters at the indices [1 .. len(s) - 2]; the
    empty string when [len(s) < 2]. *)
Definition slice_1_m1 (s : str) : str := take (length s - 2) (drop 1 s).

(** The expression [lexeme[1:-1].strip()] that every production applies
    to a string literal. *)
Definition unquote (lexeme : str) : str := strip (slice_1_m1 lexeme).

(** ** Tokens *)

(** Modelled from the spec: the module [lexer] ([Token], [TokenType]) is
    not among the sources.  The kinds are the enumerated set of section 6
    of the specification, under the member names [parser.py] uses. *)
Inductive TokenType : Set :=
| IDENTIFIER
| STRING_LITERAL
| TYPE
| FUNCTION
| IMPLEMENT
| BY_MOVE
| LEFT_PARENTHESIS
| RIGHT_PARENTHESIS
| EQUALS
| PIPE
| END_OF_INPUT.

#[global] Instance TokenType_eq_dec : EqDecision TokenType.
Proof. solve_decision. Defined.

(** Modelled from the spec: a token carries a kind and its raw source
    text; [parser.py] reads the attributes [type_] and [lexeme]. *)
Record Token : Set := mkToken { type_ : TokenType; lexeme : str }.

#[global] Instance Token_eq_dec : EqDecision Token.
Proof. solve_decision. Defined.

(** ** Exceptions *)

(** The messages of [ParserError], named after the error taxonomy of the
    specification. *)
Inductive message : Set :=
| UnexpectedEndOfInput
    (* "unexpected end of input" *)
| UnexpectedToken (expected got : TokenType) (got_lexeme : str)
    (* "unexpected token type (expected .., got .. [..])" *)
| DuplicateOperationDeclaration
    (* "duplicate declaration of pure virtual functions" *)
| DuplicateImplementation
    (* "duplicate implementation" *)
| IncompleteOrExcessImplementation
    (* "not all pure virtual functions are implemented" *)
| UnrecognizedFileLevelConstruct (got : TokenType)
    (* "unexpected token .." *)
| TrailingContentAfterPostlude.
    (* "the postlude must be the last part of the file" *)

Inductive exception : Set :=
| ParserError (msg : message)
| IndexError.  (* raised by [self.tokens[self.index]] out of range *)

#[global] Instance message_eq_dec : EqDecision message.
Proof. solve_decision. Defined.

#[global] Instance exception_eq_dec : EqDecision exception.
Proof. solve_decision. Defined.

Inductive outcome (A : Type) : Type :=
| Return (a : A)
| Raise (e : exception)
| OutOfFuel.

Arguments Return {A} a.
Arguments Raise {A} e.
Arguments OutOfFuel {A}.

(** ** The data classes of the AST *)

Module Member.
Record t : Set := new { name : str; by_move : bool; type_ : str }.
End Member.

Module PureVirtualFunction.
Record t : Set := new { name : str; return_type : option str }.
End PureVirtualFunction.

Module Implementation.
Record t : Set := new { name : str; body : str }.
End Implementation.

(** Python dictionaries keep insertion order; assigning to a key that is
    present replaces the value and leaves the key where it is. *)
Definition dict (V : Type) : Type := list (str * V).

Fixpoint dict_set {V : Type} (k : str) (v : V) (d : dict V) : dict V :=
  match d with
  | [] => [(k, v)]
  | (k', v') :: d' =>
      if decide (k' = k) then (k', v) :: d' else (k', v') :: dict_set k v d'
  end.

Fixpoint dict_get {V : Type} (k : str) (d : dict V) : option V :=
  match d with
  | [] => None
  | (k', v') :: d' => if decide (k' = k) then Some v' else dict_get k d'
  end.

Definition dict_keys {V : Type} (d : dict V) : list str := d.*1.

(** [set(names)] *)
Definition name_set (names : list str) : gset str := list_to_set names.

Module PolymorphicType.
Record t : Set := mk {
  pure_virtual_functions : list PureVirtualFunction.t;
  members : list Member.t;
  implementations : list Implementation.t
}.

(** [PolymorphicType.__init__]: the three checks, in the order of the
    source, then the assignments. *)
Definition new (pure_virtual_functions : list PureVirtualFunction.t)
    (members : list Member.t) (implementations : list Implementation.t)
    : outcome t :=
  let declared : list str :=
    PureVirtualFunction.name <$> pure_virtual_functions in
  let implemented : list str :=
    Implementation.name <$> implementations in
  if decide (size (name_set declared) ≠ length declared)
  then Raise (ParserError DuplicateOperationDeclaration)
  else if decide (size (name_set implemented) ≠ length implemented)
  then Raise (ParserError DuplicateImplementation)
  else if decide (name_set declared ≠ name_set implemented)
  then Raise (ParserError IncompleteOrExcessImplementation)
  else Return (mk pure_virtual_functions members implementations).
End PolymorphicType.

Module AbstractType.
Record t : Type := new {
  sub_types : dict PolymorphicType.t;
  members : list Member.t;
  pure_virtual_functions : list PureVirtualFunction.t
}.
End AbstractType.

Module GeneratorDescription.
Record t : Type := new {
  prelude : str;
  type_definitions : list (str * str);
  abstract_types : dict AbstractType.t;
  postlude : str
}.
End GeneratorDescription.

(** ** The cursor: class [Parser] *)

Record Parser : Set := mkParser { tokens : list Token; index : nat }.

(** A method of [Parser], or a function that takes the parser: it reads
    and advances the cursor, and returns or raises. *)
Definition M (A : Type) : Type := Parser → outcome (A * Parser).

#[global] Instance M_ret : MRet M := λ A a p, Return (a, p).

#[global] Instance M_bind : MBind M := λ A B f m p,
  match m p with
  | Return (a, p') => f a p'
  | Raise e => Raise e
  | OutOfFuel => OutOfFuel
  end.

Definition raise {A : Type} (e : exception) : M A := λ _, Raise e.

(** A constructor that validates, called from a production. *)
Definition construct {A : Type} (r : outcome A) : M A := λ p,
  match r with
  | Return a => Return (a, p)
  | Raise e => Raise e
  | OutOfFuel => OutOfFuel
  end.

(** [Parser.__init__] *)
Definition Parser_init (tokens : list Token) : Parser := mkParser tokens 0.

(** [Parser.current]: [self.tokens[self.index]]; the index is never
    negative, so the access fails exactly when it is past the end. *)
Definition current : M Token := λ p,
  match tokens p !! index p with
  | Some tok => Return (tok, p)
  | None => Raise IndexError
  end.

(** [Parser.next] *)
Definition next : M () := λ p, Return ((), mkParser (tokens p) (index p + 1)).

(** [Parser.is_end_of_input]: the [or] does not evaluate [current()] when
    the index is past the end. *)
Definition is_end_of_input : M bool := λ p,
  if decide (length (tokens p) ≤ index p) then Return (true, p)
  else (tok ← current; mret (bool_decide (type_ tok = END_OF_INPUT))) p.

(** [Parser.peek] *)
Definition peek : M (option Token) :=
  at_end ← is_end_of_input;
  if at_end : bool then mret None
  else λ p, match tokens p !! (index p + 1) with
            | Some tok => Return (Some tok, p)
            | None => Raise IndexError
            end.

(** [Parser.consume] *)
Definition consume (ty : TokenType) : M Token :=
  at_end ← is_end_of_input;
  if at_end : bool then raise (ParserError UnexpectedEndOfInput)
  else
    tok ← current;
    if decide (type_ tok ≠ ty)
    then raise (ParserError (UnexpectedToken ty (type_ tok) (lexeme tok)))
    else
      result ← current;
      next;;
      mret result.

(** ** Loops *)

Inductive flow (S : Type) : Type :=
| Continue (s : S)   (* the body ran to its end: test and iterate again *)
| Break (s : S).     (* the condition failed, or the body hit [break] *)

Arguments Continue {S} s.
Arguments Break {S} s.

(** A [while] loop over the loop-carried variables [s]; [body] evaluates
    the loop condition and, when it holds, one pass over the loop body. *)
Fixpoint while {S : Type} (fuel : nat) (body : S → M (flow S)) (s : S) : M S :=
  match fuel with
  | 0 => λ _, OutOfFuel
  | Datatypes.S fuel' =>
      r ← body s;
      match r with
      | Continue s' => while fuel' body s'
      | Break s' => mret s'
      end
  end.

(** ** Grammar productions *)

(** [parse_data_member] *)
Definition parse_data_member : M Member.t :=
  member_name ← consume IDENTIFIER;
  tok ← current;
  let by_move := bool_decide (type_ tok = BY_MOVE) in
  (if by_move then next else mret ());;
  member_type ← consume STRING_LITERAL;
  mret (Member.new (lexeme member_name) by_move (unquote (lexeme member_type))).

(** [parse_implementation] *)
Definition parse_implementation : M Implementation.t :=
  consume IMPLEMENT;;
  function_name ← consume IDENTIFIER;
  function_body ← consume STRING_LITERAL;
  mret (Implementation.new (lexeme function_name) (unquote (lexeme function_body))).

(** The body of the [while True] loop of [parse_subtype]. *)
Definition subtype_body (s : list Member.t * list Implementation.t)
    : M (flow (list Member.t * list Implementation.t)) :=
  let '(members, implementations) := s in
  tok ← current;
  if decide (type_ tok = IDENTIFIER) then
    member ← parse_data_member;
    mret (Continue (members ++ [member], implementations))
  else if decide (type_ tok = IMPLEMENT) then
    implementation ← parse_implementation;
    mret (Continue (members, implementations ++ [implementation]))
  else mret (Break (members, implementations)).

(** [parse_subtype] *)
Definition parse_subtype (fuel : nat)
    : M (str * list Member.t * list Implementation.t) :=
  identifier ← consume IDENTIFIER;
  consume LEFT_PARENTHESIS;;
  '(members, implementations) ← while fuel subtype_body ([], []);
  consume RIGHT_PARENTHESIS;;
  mret (lexeme identifier, members, implementations).

(** [while parser.current().type_ == TokenType.IDENTIFIER] in [parse] *)
Definition base_type_members_body (base_type_members : list Member.t)
    : M (flow (list Member.t)) :=
  tok ← current;
  if decide (type_ tok = IDENTIFIER) then
    member ← parse_data_member;
    mret (Continue (base_type_members ++ [member]))
  else mret (Break base_type_members).

(** [while parser.current().type_ == TokenType.FUNCTION] in [parse] *)
Definition functions_body (functions : list PureVirtualFunction.t)
    : M (flow (list PureVirtualFunction.t)) :=
  tok ← current;
  if decide (type_ tok = FUNCTION) then
    consume FUNCTION;;
    function_identifier ← consume IDENTIFIER;
    return_type_token ← consume STRING_LITERAL;
    let return_type_string := unquote (lexeme return_type_token) in
    let function_return_type :=
      if decide (0 < length return_type_string)
      then Some return_type_string else None in
    mret (Continue (functions ++
            [PureVirtualFunction.new (lexeme function_identifier) function_return_type]))
  else mret (Break functions).

(** [while parser.current().type_ == TokenType.PIPE] in [parse] *)
Definition sub_types_body (fuel : nat) (functions : list PureVirtualFunction.t)
    (sub_types : dict PolymorphicType.t) : M (flow (dict PolymorphicType.t)) :=
  tok ← current;
  if decide (type_ tok = PIPE) then
    next;;
    '(name, members, implementations) ← parse_subtype fuel;
    polymorphic_type ← construct (PolymorphicType.new functions members implementations);
    mret (Continue (dict_set name polymorphic_type sub_types))
  else mret (Break sub_types).

(** [case TokenType.IDENTIFIER:  # polymorphic type] in [parse] *)
Definition parse_polymorphic_type (fuel : nat)
    (polymorphic_types : dict AbstractType.t) : M (dict AbstractType.t) :=
  identifier ← consume IDENTIFIER;
  consume LEFT_PARENTHESIS;;
  base_type_members ← while fuel base_type_members_body [];
  functions ← while fuel functions_body [];
  consume RIGHT_PARENTHESIS;;
  consume EQUALS;;
  '(name, members, implementations) ← parse_subtype fuel;
  polymorphic_type ← construct (PolymorphicType.new functions members implementations);
  sub_types ← while fuel (sub_types_body fuel functions)
                 (dict_set name polymorphic_type []);
  mret (dict_set (lexeme identifier)
          (AbstractType.new sub_types base_type_members functions)
          polymorphic_types).

(** The variables the file-level loop of [parse] carries. *)
Record file_state : Type := mkFileState {
  type_definitions : list (str * str);
  polymorphic_types : dict AbstractType.t;
  postlude : str
}.

(** [while not parser.is_end_of_input(): match parser.current().type_: ...] *)
Definition file_body (fuel : nat) (s : file_state) : M (flow file_state) :=
  at_end ← is_end_of_input;
  if at_end : bool then mret (Break s)
  else
    tok ← current;
    match type_ tok with
    | TYPE =>
        next;;
        identifier ← consume IDENTIFIER;
        contents_token ← consume STRING_LITERAL;
        let contents := unquote (lexeme contents_token) in
        mret (Continue (mkFileState
                (type_definitions s ++ [(lexeme identifier, contents)])
                (polymorphic_types s) (postlude s)))
    | IDENTIFIER =>
        polymorphic_types' ← parse_polymorphic_type fuel (polymorphic_types s);
        mret (Continue (mkFileState (type_definitions s) polymorphic_types' (postlude s)))
    | STRING_LITERAL =>
        tok' ← current;
        next;;
        mret (Break (mkFileState (type_definitions s) (polymorphic_types s)
                       (unquote (lexeme tok'))))
    | got => raise (ParserError (UnrecognizedFileLevelConstruct got))
    end.

(** [parse], from the prelude on, over the cursor. *)
Definition parse_file (fuel : nat) : M GeneratorDescription.t :=
  tok ← current;
  prelude ← (if decide (type_ tok = STRING_LITERAL)
             then tok' ← current; next;; mret (unquote (lexeme tok'))
             else mret ("" : str));
  s ← while fuel (file_body fuel) (mkFileState [] [] "");
  at_end ← is_end_of_input;
  if negb at_end
  then raise (ParserError TrailingContentAfterPostlude)
  else mret (GeneratorDescription.new prelude (type_definitions s)
               (polymorphic_types s) (postlude s)).

Definition parse_with (fuel : nat) (tokens : list Token)
    : outcome GeneratorDescription.t :=
  match parse_file fuel (Parser_init tokens) with
  | Return (description, _) => Return description
  | Raise e => Raise e
  | OutOfFuel => OutOfFuel
  end.

(** [parse]: no loop of the parser needs more iterations than there are
    tokens, plus the final test of its condition. *)
Definition parse (tokens : list Token) : outcome GeneratorDescription.t :=
  parse_with (S (length tokens)) tokens.

(** ** Well-formed input: the grammar of the specification

    A source file as the grammar of the parser describes it, with the raw
    lexemes of its identifiers and string literals, and the token
    sequence that spells it.

<<
    file        := [prelude] (typeDef | abstractTypeDef)* [postlude]
    typeDef     := "type" IDENT STRING
    abstractTypeDef
                := IDENT "(" member* opDecl* ")" "=" variant ("|" variant)*
    variant     := IDENT "(" (member | implementation)* ")"
    member      := IDENT ["by_move"] STRING
    opDecl      := "function" IDENT STRING
    implementation
                := "implement" IDENT STRING
>> *)

Module Source.

Record member : Set :=
  Member { member_name : str; member_by_move : bool; member_type : str }.

Record function : Set :=
  Function { function_name : str; function_return_type : str }.

Record implementation : Set :=
  Implementation { implementation_name : str; implementation_body : str }.

Inductive entry : Set :=
| MemberEntry (m : member)
| ImplementationEntry (i : implementation).

Record subtype : Set :=
  Subtype { subtype_name : str; subtype_entries : list entry }.

Record abstract_type : Set := AbstractType {
  abstract_name : str;
  abstract_members : list member;
  abstract_functions : list function;
  first_subtype : subtype;
  more_subtypes : list subtype
}.

Inductive construct : Set :=
| TypeDefinition (name contents : str)
| AbstractTypeDefinition (a : abstract_type).

Record file : Set := File {
  file_prelude : option str;
  file_constructs : list construct;
  file_postlude : option str
}.

Definition subtypes (a : abstract_type) : list subtype :=
  first_subtype a :: more_subtypes a.

#[global] Instance member_eq_dec : EqDecision member.
Proof. solve_decision. Defined.

#[global] Instance function_eq_dec : EqDecision function.
Proof. solve_decision. Defined.

#[global] Instance implementation_eq_dec : EqDecision implementation.
Proof. solve_decision. Defined.

#[global] Instance entry_eq_dec : EqDecision entry.
Proof. solve_decision. Defined.

#[global] Instance subtype_eq_dec : EqDecision subtype.
Proof. solve_decision. Defined.

#[global] Instance abstract_type_eq_dec : EqDecision abstract_type.
Proof. solve_decision. Defined.

#[global] Instance construct_eq_dec : EqDecision construct.
Proof. solve_decision. Defined.

End Source.

(** *** The tokens of a source file *)

Definition identifier (name : str) : Token := mkToken IDENTIFIER name.
Definition string_literal (lexeme : str) : Token := mkToken STRING_LITERAL lexeme.

(** Keywords and punctuation: the parser never reads their lexeme. *)
Definition symbol (ty : TokenType) : Token := mkToken ty "".

(** A token with the lexeme erased where the grammar fixes the kind
    only: a token sequence spells a source file whatever the spelling of
    its keywords and punctuation. *)
Definition canon (tok : Token) : Token :=
  match type_ tok with
  | IDENTIFIER | STRING_LITERAL => tok
  | ty => symbol ty
  end.

Definition tokens_of_member (m : Source.member) : list Token :=
  identifier (Source.member_name m)
  :: (if Source.member_by_move m then [symbol BY_MOVE] else [])
  ++ [string_literal (Source.member_type m)].

Definition tokens_of_function (f : Source.function) : list Token :=
  [symbol FUNCTION; identifier (Source.function_name f);
   string_literal (Source.function_return_type f)].

Definition tokens_of_implementation (i : Source.implementation) : list Token :=
  [symbol IMPLEMENT; identifier (Source.implementation_name i);
   string_literal (Source.implementation_body i)].

Definition tokens_of_entry (e : Source.entry) : list Token :=
  match e with
  | Source.MemberEntry m => tokens_of_member m
  | Source.ImplementationEntry i => tokens_of_implementation i
  end.

Definition tokens_of_subtype (st : Source.subtype) : list Token :=
  identifier (Source.subtype_name st) :: symbol LEFT_PARENTHESIS
  :: (Source.subtype_entries st ≫= tokens_of_entry)
  ++ [symbol RIGHT_PARENTHESIS].

(** The header of an abstract type, up to and including the [=]. *)
Definition tokens_of_header (name : str) (members : list Source.member)
    (functions : list Source.function) : list Token :=
  identifier name :: symbol LEFT_PARENTHESIS
  :: (members ≫= tokens_of_member)
  ++ (functions ≫= tokens_of_function)
  ++ [symbol RIGHT_PARENTHESIS; symbol EQUALS].

Definition tokens_of_abstract_type (a : Source.abstract_type) : list Token :=
  tokens_of_header (Source.abstract_name a) (Source.abstract_members a)
    (Source.abstract_functions a)
  ++ tokens_of_subtype (Source.first_subtype a)
  ++ (Source.more_subtypes a ≫= λ st, symbol PIPE :: tokens_of_subtype st).

Definition tokens_of_construct (c : Source.construct) : list Token :=
  match c with
  | Source.TypeDefinition name contents =>
      [symbol TYPE; identifier name; string_literal contents]
  | Source.AbstractTypeDefinition a => tokens_of_abstract_type a
  end.

Definition tokens_of_literal (o : option str) : list Token :=
  match o with
  | Some lexeme => [string_literal lexeme]
  | None => []
  end.

Definition tokens_of_file (f : Source.file) : list Token :=
  tokens_of_literal (Source.file_prelude f)
  ++ (Source.file_constructs f ≫= tokens_of_construct)
  ++ tokens_of_literal (Source.file_postlude f)
  ++ [symbol END_OF_INPUT].

(** [toks] spells the source file [f]. *)
Definition spells (toks : list Token) (f : Source.file) : Prop :=
  canon <$> toks = tokens_of_file f.

(** *** The description a source file denotes *)

Definition member_of (m : Source.member) : Member.t :=
  Member.new (Source.member_name m) (Source.member_by_move m)
    (unquote (Source.member_type m)).

(** An operation whose return type is empty once unquoted returns
    nothing. *)
Definition function_of (f : Source.function) : PureVirtualFunction.t :=
  PureVirtualFunction.new (Source.function_name f)
    (if decide (unquote (Source.function_return_type f) = "") then None
     else Some (unquote (Source.function_return_type f))).

Definition implementation_of (i : Source.implementation) : Implementation.t :=
  Implementation.new (Source.implementation_name i)
    (unquote (Source.implementation_body i)).

Definition members_of_entries (es : list Source.entry) : list Member.t :=
  omap (λ e, match e with
             | Source.MemberEntry m => Some (member_of m)
             | Source.ImplementationEntry _ => None
             end) es.

Definition implementations_of_entries (es : list Source.entry)
    : list Implementation.t :=
  omap (λ e, match e with
             | Source.MemberEntry _ => None
             | Source.ImplementationEntry i => Some (implementation_of i)
             end) es.

Definition subtype_of (functions : list PureVirtualFunction.t)
    (st : Source.subtype) : PolymorphicType.t :=
  PolymorphicType.mk functions
    (members_of_entries (Source.subtype_entries st))
    (implementations_of_entries (Source.subtype_entries st)).

(** The dictionary that successive assignments [d[k] = v] build. *)
Definition dict_of_list {V : Type} (l : list (str * V)) : dict V :=
  foldl (λ d kv, dict_set kv.1 kv.2 d) [] l.

Definition named_subtype (functions : list PureVirtualFunction.t)
    (st : Source.subtype) : str * PolymorphicType.t :=
  (Source.subtype_name st, subtype_of functions st).

Definition abstract_type_of (a : Source.abstract_type) : AbstractType.t :=
  let functions := function_of <$> Source.abstract_functions a in
  AbstractType.new
    (dict_of_list (named_subtype functions <$> Source.subtypes a))
    (member_of <$> Source.abstract_members a)
    functions.

Definition type_definitions_of (cs : list Source.construct)
    : list (str * str) :=
  omap (λ c, match c with
             | Source.TypeDefinition name contents => Some (name, unquote contents)
             | Source.AbstractTypeDefinition _ => None
             end) cs.

Definition abstract_types_of (cs : list Source.construct)
    : list (str * AbstractType.t) :=
  omap (λ c, match c with
             | Source.TypeDefinition _ _ => None
             | Source.AbstractTypeDefinition a =>
                 Some (Source.abstract_name a, abstract_type_of a)
             end) cs.

Definition text_of_literal (o : option str) : str :=
  match o with
  | Some lexeme => unquote lexeme
  | None => ""
  end.

Definition description_of (f : Source.file) : GeneratorDescription.t :=
  GeneratorDescription.new
    (text_of_literal (Source.file_prelude f))
    (type_definitions_of (Source.file_constructs f))
    (dict_of_list (abstract_types_of (Source.file_constructs f)))
    (text_of_literal (Source.file_postlude f)).

(** *** The structural checks on a source file *)

Definition distinct (names : list str) : Prop := NoDup names.

(** The three checks of a variant against the operations of its
    abstract type. *)
Definition checked_subtype (functions : list Source.function)
    (st : Source.subtype) : Prop :=
  distinct (Source.function_name <$> functions)
  ∧ distinct (Implementation.name <$> implementations_of_entries (Source.subtype_entries st))
  ∧ name_set (Source.function_name <$> functions)
    = name_set (Implementation.name <$> implementations_of_entries (Source.subtype_entries st)).

Definition checked_construct (c : Source.construct) : Prop :=
  match c with
  | Source.TypeDefinition _ _ => True
  | Source.AbstractTypeDefinition a =>
      Forall (checked_subtype (Source.abstract_functions a)) (Source.subtypes a)
  end.

(** A leading string literal is the prelude: a file made of a postlude
    alone does not exist. *)
Definition checked_file (f : Source.file) : Prop :=
  Forall checked_construct (Source.file_constructs f)
  ∧ (Source.file_prelude f = None → Source.file_constructs f = [] →
     Source.file_postlude f = None).

#[global] Instance checked_subtype_dec functions st :
  Decision (checked_subtype functions st).
Proof. unfold checked_subtype, distinct. apply _. Defined.

#[global] Instance checked_construct_dec c : Decision (checked_construct c).
Proof. destruct c; simpl; apply _. Defined.

#[global] Instance checked_file_dec f : Decision (checked_file f).
Proof. unfold checked_file. apply _. Defined.

(** ** The cursor as the input that is left *)

(** The tokens from the cursor on. *)
Definition remaining (p : Parser) : list Token := drop (index p) (tokens p).

(** The cursor [n] tokens further. *)
Definition advance (n : nat) (p : Parser) : Parser :=
  mkParser (tokens p) (index p + n).

(** [p'] is the cursor [p], no earlier in the same tokens. *)
Definition follows (p p' : Parser) : Prop :=
  tokens p' = tokens p ∧ index p ≤ index p'.

(** [p'] is the cursor [p], at least one token later, and [p] stood on a
    token. *)
Definition advanced (p p' : Parser) : Prop :=
  tokens p' = tokens p ∧ index p < index p' ∧ index p < length (tokens p).

(** The condition of [is_end_of_input]:
    [index >= len(tokens) or current().type_ == END_OF_INPUT]. *)
Definition at_end (p : Parser) : Prop :=
  length (tokens p) ≤ index p
  ∨ ∃ tok, tokens p !! index p = Some tok ∧ type_ tok = END_OF_INPUT.

(** The loop-carried variables after one pass over a loop. *)
Definition flow_state {S : Type} (r : flow S) : S :=
  match r with Continue s | Break s => s end.

(** [m'] does what [m] does wherever [m] does not run out of fuel. *)
Definition fuel_le {A : Type} (m m' : M A) : Prop :=
  ∀ p, m p = OutOfFuel ∨ m p = m' p.

(** ** What the proofs speak of *)

(** *** Variants that implement the declared operations *)

(** A variant implements exactly the operations [functions] declares. *)
Definition implements_exactly (functions : list PureVirtualFunction.t)
    (v : PolymorphicType.t) : Prop :=
  name_set (Implementation.name <$> PolymorphicType.implementations v)
  = name_set (PureVirtualFunction.name <$> functions).

Definition complete_abstract_type (a : AbstractType.t) : Prop :=
  Forall (λ entry, implements_exactly (AbstractType.pure_virtual_functions a) entry.2)
    (AbstractType.sub_types a).

Definition complete_description (d : GeneratorDescription.t) : Prop :=
  Forall (λ entry, complete_abstract_type entry.2)
    (GeneratorDescription.abstract_types d).

(** *** A production run on the input that is left *)

(** The cursor [p] has [input] ahead of it, whatever the spelling of the
    keywords and punctuation. *)
Definition at_input (p : Parser) (input : list Token) : Prop :=
  canon <$> remaining p = input.

(** From [p], [m] returns [a] and leaves the cursor in front of [rest]. *)
Definition runs {A : Type} (m : M A) (p : Parser) (a : A) (rest : list Token)
    : Prop :=
  ∃ p', m p = Return (a, p') ∧ tokens p' = tokens p ∧ at_input p' rest.

(** What [parse] returns of a run of [parse_file]. *)
Definition result_of {A : Type} (r : outcome (A * Parser)) : outcome A :=
  match r with
  | Return (a, _) => Return a
  | Raise e => Raise e
  | OutOfFuel => OutOfFuel
  end.

(** *** What a loop adds for each item it passes *)

Definition add_entry (s : list Member.t * list Implementation.t)
    (e : Source.entry) : list Member.t * list Implementation.t :=
  match e with
  | Source.MemberEntry m => (s.1 ++ [member_of m], s.2)
  | Source.ImplementationEntry i => (s.1, s.2 ++ [implementation_of i])
  end.

Definition tokens_of_alternative (st : Source.subtype) : list Token :=
  symbol PIPE :: tokens_of_subtype st.

Definition add_subtype (functions : list PureVirtualFunction.t)
    (sub_types : dict PolymorphicType.t) (st : Source.subtype)
    : dict PolymorphicType.t :=
  dict_set (Source.subtype_name st) (subtype_of functions st) sub_types.

Definition add_construct (s : file_state) (c : Source.construct) : file_state :=
  match c with
  | Source.TypeDefinition name contents =>
      mkFileState (type_definitions s ++ [(name, unquote contents)])
        (polymorphic_types s) (postlude s)
  | Source.AbstractTypeDefinition a =>
      mkFileState (type_definitions s)
        (dict_set (Source.abstract_name a) (abstract_type_of a) (polymorphic_types s))
        (postlude s)
  end.

(** The state of the file-level loop after the constructs [cs]. *)
Definition state_after (cs : list Source.construct) : file_state :=
  mkFileState (type_definitions_of cs) (dict_of_list (abstract_types_of cs)) "".

(** *** The productions, from the middle on *)

(** [parse_polymorphic_type] from the first variant on. *)
Definition parse_sub_types (fuel : nat) (name : str)
    (base_type_members : list Member.t) (functions : list PureVirtualFunction.t)
    (polymorphic_types : dict AbstractType.t) : M (dict AbstractType.t) :=
  '(name', members, implementations) ← parse_subtype fuel;
  polymorphic_type ← construct (PolymorphicType.new functions members implementations);
  sub_types ← while fuel (sub_types_body fuel functions)
                 (dict_set name' polymorphic_type []);
  mret (dict_set name (AbstractType.new sub_types base_type_members functions)
          polymorphic_types).

(** [parse] once the file-level loop is left. *)
Definition parse_file_end (prelude : str) (s : file_state)
    : M GeneratorDescription.t :=
  at_end ← is_end_of_input;
  if negb at_end
  then raise (ParserError TrailingContentAfterPostlude)
  else mret (GeneratorDescription.new prelude (type_definitions s)
               (polymorphic_types s) (postlude s)).

(** *** The errors of reading tokens *)

(** An error of reading the tokens: an access past the last token, the
    end of the input where a token is expected, or a token of another
    kind than the expected one. *)
Definition token_error (e : exception) : Prop :=
  e = IndexError
  ∨ e = ParserError UnexpectedEndOfInput
  ∨ ∃ expected got lexeme,
      e = ParserError (UnexpectedToken expected got lexeme).

(** Whatever [m] raises is an exception that [E] tells. *)
Definition raises {A : Type} (E : exception → Prop) (m : M A) : Prop :=
  ∀ p e, m p = Raise e → E e.

(** *** Dictionaries filled by successive assignments *)

(** What successive assignments do to a dictionary. *)
Definition dict_update {V : Type} (d : dict V) (l : list (str * V)) : dict V :=
  foldl (λ d kv, dict_set kv.1 kv.2 d) d l.

(** The names of a list, each at the place of its first occurrence. *)
Fixpoint first_occurrences (names : list str) : list str :=
  match names with
  | [] => []
  | name :: names' => name :: filter (λ n, n ≠ name) (first_occurrences names')
  end.

(** *** Whitespace at the ends of a string *)

(** A string of whitespace only. *)
Fixpoint blank (s : str) : bool :=
  match s with
  | [] => true
  | c :: s' => isspace c && blank s'
  end.

Definition first_char (s : str) : option char :=
  match s with
  | [] => None
  | c :: _ => Some c
  end.

Fixpoint last_char (s : str) : option char :=
  match s with
  | [] => None
  | [c] => Some c
  | _ :: s' => last_char s'
  end.

(** *** Descriptions in the order of the source *)

(** The abstract type of a definition with its variants as a plain list,
    one entry for each variant, in the order of the source. *)
Definition abstract_type_in_order (a : Source.abstract_type) : AbstractType.t :=
  let functions := function_of <$> Source.abstract_functions a in
  AbstractType.new
    (named_subtype functions <$> Source.subtypes a)
    (member_of <$> Source.abstract_members a)
    functions.

Definition abstract_types_in_order (cs : list Source.construct)
    : list (str * AbstractType.t) :=
  omap (λ c, match c with
             | Source.TypeDefinition _ _ => None
             | Source.AbstractTypeDefinition a =>
                 Some (Source.abstract_name a, abstract_type_in_order a)
             end) cs.

(** The description of a file with every collection in the order of the
    source, one entry for each declaration. *)
Definition description_in_order (f : Source.file) : GeneratorDescription.t :=
  GeneratorDescription.new
    (text_of_literal (Source.file_prelude f))
    (type_definitions_of (Source.file_constructs f))
    (abstract_types_in_order (Source.file_constructs f))
    (text_of_literal (Source.file_postlude f)).

Definition abstract_names (cs : list Source.construct) : list str :=
  (abstract_types_of cs).*1.

Definition subtype_names (a : Source.abstract_type) : list str :=
  Source.subtype_name <$> Source.subtypes a.

(** No abstract type name and, within an abstract type, no variant name
    is declared twice. *)
Definition distinct_names (f : Source.file) : Prop :=
  NoDup (abstract_names (Source.file_constructs f))
  ∧ Forall (λ c, match c with
                 | Source.TypeDefinition _ _ => True
                 | Source.AbstractTypeDefinition a => NoDup (subtype_names a)
                 end)
      (Source.file_constructs f).

(** ** Sample inputs *)

(** The quotation mark, and the lexeme of a string literal: its text
    between two quotation marks. *)
Definition quotation_mark : char := 34%N.

Definition quoted (text : str) : str :=
  quotation_mark :: text ++ [quotation_mark].

(** [Shape ( function area "double" ) =
     Circle ( radius "double" implement area "  return 3.14*radius*radius;  " )
     | Square ( side by_move "double" implement area "return side*side;" )],
    between a prelude and a postlude. *)
Definition shape_tokens : list Token :=
  [mkToken STRING_LITERAL (quoted "prelude text");
   mkToken IDENTIFIER "Shape"; mkToken LEFT_PARENTHESIS "(";
   mkToken FUNCTION "function"; mkToken IDENTIFIER "area";
   mkToken STRING_LITERAL (quoted "double");
   mkToken RIGHT_PARENTHESIS ")"; mkToken EQUALS "=";
   mkToken IDENTIFIER "Circle"; mkToken LEFT_PARENTHESIS "(";
   mkToken IDENTIFIER "radius"; mkToken STRING_LITERAL (quoted "double");
   mkToken IMPLEMENT "implement"; mkToken IDENTIFIER "area";
   mkToken STRING_LITERAL (quoted "  return 3.14*radius*radius;  ");
   mkToken RIGHT_PARENTHESIS ")";
   mkToken PIPE "|";
   mkToken IDENTIFIER "Square"; mkToken LEFT_PARENTHESIS "(";
   mkToken IDENTIFIER "side"; mkToken BY_MOVE "by_move";
   mkToken STRING_LITERAL (quoted "double");
   mkToken IMPLEMENT "implement"; mkToken IDENTIFIER "area";
   mkToken STRING_LITERAL (quoted "return side*side;");
   mkToken RIGHT_PARENTHESIS ")";
   mkToken STRING_LITERAL (quoted "postlude text");
   mkToken END_OF_INPUT ""].

(** The source file [shape_tokens] spells. *)
Definition shape_abstract_type : Source.abstract_type :=
  Source.AbstractType "Shape" []
    [Source.Function "area" (quoted "double")]
    (Source.Subtype "Circle"
       [Source.MemberEntry (Source.Member "radius" false (quoted "double"));
        Source.ImplementationEntry
          (Source.Implementation "area"
             (quoted "  return 3.14*radius*radius;  "))])
    [Source.Subtype "Square"
       [Source.MemberEntry (Source.Member "side" true (quoted "double"));
        Source.ImplementationEntry
          (Source.Implementation "area" (quoted "return side*side;"))]].

Definition shape_file : Source.file :=
  Source.File (Some (quoted "prelude text"))
    [Source.AbstractTypeDefinition shape_abstract_type]
    (Some (quoted "postlude text")).

(** [Shape ( function area "double" ) =
     Circle ( implement render "a" implement render "b" )]: the variant
    implements an operation that is not declared, twice. *)
Definition render_tokens : list Token :=
  [mkToken IDENTIFIER "Shape"; mkToken LEFT_PARENTHESIS "(";
   mkToken FUNCTION "function"; mkToken IDENTIFIER "area";
   mkToken STRING_LITERAL (quoted "double");
   mkToken RIGHT_PARENTHESIS ")"; mkToken EQUALS "=";
   mkToken IDENTIFIER "Circle"; mkToken LEFT_PARENTHESIS "(";
   mkToken IMPLEMENT "implement"; mkToken IDENTIFIER "render";
   mkToken STRING_LITERAL (quoted "a");
   mkToken IMPLEMENT "implement"; mkToken IDENTIFIER "render";
   mkToken STRING_LITERAL (quoted "b");
   mkToken RIGHT_PARENTHESIS ")";
   mkToken END_OF_INPUT ""].

(** [Shape ( function area "double" function area "int" ) =
     Circle ( implement area )]: the operation [area] is declared twice,
    and the first variant lacks the body of its implementation. *)
Definition area_twice_malformed_tokens : list Token :=
  [mkToken IDENTIFIER "Shape"; mkToken LEFT_PARENTHESIS "(";
   mkToken FUNCTION "function"; mkToken IDENTIFIER "area";
   mkToken STRING_LITERAL (quoted "double");
   mkToken FUNCTION "function"; mkToken IDENTIFIER "area";
   mkToken STRING_LITERAL (quoted "int");
   mkToken RIGHT_PARENTHESIS ")"; mkToken EQUALS "=";
   mkToken IDENTIFIER "Circle"; mkToken LEFT_PARENTHESIS "(";
   mkToken IMPLEMENT "implement"; mkToken IDENTIFIER "area";
   mkToken RIGHT_PARENTHESIS ")";
   mkToken END_OF_INPUT ""].

(** [Shape ( function area "double" function area "int" ) =
     Circle ( radius "double" ) | Square ( ]: the operation [area] is
    declared twice, the first variant is well formed and implements
    nothing, and the second breaks off. *)
Definition area_twice_tokens : list Token :=
  [mkToken IDENTIFIER "Shape"; mkToken LEFT_PARENTHESIS "(";
   mkToken FUNCTION "function"; mkToken IDENTIFIER "area";
   mkToken STRING_LITERAL (quoted "double");
   mkToken FUNCTION "function"; mkToken IDENTIFIER "area";
   mkToken STRING_LITERAL (quoted "int");
   mkToken RIGHT_PARENTHESIS ")"; mkToken EQUALS "=";
   mkToken IDENTIFIER "Circle"; mkToken LEFT_PARENTHESIS "(";
   mkToken IDENTIFIER "radius"; mkToken STRING_LITERAL (quoted "double");
   mkToken RIGHT_PARENTHESIS ")";
   mkToken PIPE "|";
   mkToken IDENTIFIER "Square"; mkToken LEFT_PARENTHESIS "("].

(** [Shape ( ) = A ( x "int" ) | B ( ) | A ( y "bool" )] *)
Definition twice_A_tokens : list Token :=
  [mkToken IDENTIFIER "Shape"; mkToken LEFT_PARENTHESIS "(";
   mkToken RIGHT_PARENTHESIS ")"; mkToken EQUALS "=";
   mkToken IDENTIFIER "A"; mkToken LEFT_PARENTHESIS "(";
   mkToken IDENTIFIER "x"; mkToken STRING_LITERAL (quoted "int");
   mkToken RIGHT_PARENTHESIS ")";
   mkToken PIPE "|";
   mkToken IDENTIFIER "B"; mkToken LEFT_PARENTHESIS "(";
   mkToken RIGHT_PARENTHESIS ")";
   mkToken PIPE "|";
   mkToken IDENTIFIER "A"; mkToken LEFT_PARENTHESIS "(";
   mkToken IDENTIFIER "y"; mkToken STRING_LITERAL (quoted "bool");
   mkToken RIGHT_PARENTHESIS ")";
   mkToken END_OF_INPUT ""].

Definition first_A : Source.subtype :=
  Source.Subtype "A" [Source.MemberEntry (Source.Member "x" false (quoted "int"))].

Definition only_B : Source.subtype := Source.Subtype "B" [].

Definition second_A : Source.subtype :=
  Source.Subtype "A" [Source.MemberEntry (Source.Member "y" false (quoted "bool"))].

Definition twice_A : Source.abstract_type :=
  Source.AbstractType "Shape" [] [] first_A [only_B; second_A].

Definition twice_A_file : Source.file :=
  Source.File None [Source.AbstractTypeDefinition twice_A] None.
(** ** What the further properties speak of *)

(** The variants of an abstract type, [|] between them. *)
Definition tokens_of_variants (sts : list Source.subtype) : list Token :=
  match sts with
  | [] => []
  | first :: more => tokens_of_subtype first ++ (more ≫= tokens_of_alternative)
  end.

(** A variant that holds the operations [functions] and implements each
    of them once. *)
Definition well_formed_variant (functions : list PureVirtualFunction.t)
    (v : PolymorphicType.t) : Prop :=
  PolymorphicType.pure_virtual_functions v = functions
  ∧ Implementation.name <$> PolymorphicType.implementations v
    ≡ₚ PureVirtualFunction.name <$> functions.

Definition well_formed_variants (functions : list PureVirtualFunction.t)
    (sub_types : dict PolymorphicType.t) : Prop :=
  sub_types ≠ []
  ∧ NoDup (dict_keys sub_types)
  ∧ Forall (λ entry, well_formed_variant functions entry.2) sub_types.

Definition well_formed_abstract_type (a : AbstractType.t) : Prop :=
  NoDup (PureVirtualFunction.name <$> AbstractType.pure_virtual_functions a)
  ∧ well_formed_variants (AbstractType.pure_virtual_functions a)
      (AbstractType.sub_types a).

Definition well_formed_abstract_types (types : dict AbstractType.t) : Prop :=
  NoDup (dict_keys types)
  ∧ Forall (λ entry, well_formed_abstract_type entry.2) types.

(** *** Where the parts of a description come from *)

(** [name] is the lexeme of an identifier among [toks]. *)
Definition identifier_of (toks : list Token) (name : str) : Prop :=
  ∃ tok, tok ∈ toks ∧ type_ tok = IDENTIFIER ∧ name = lexeme tok.

(** [text] is the unquoted lexeme of a string literal among [toks]. *)
Definition literal_of (toks : list Token) (text : str) : Prop :=
  ∃ tok, tok ∈ toks ∧ type_ tok = STRING_LITERAL ∧ text = unquote (lexeme tok).

Definition member_from (toks : list Token) (m : Member.t) : Prop :=
  identifier_of toks (Member.name m) ∧ literal_of toks (Member.type_ m).

(** An operation without a return type was declared with a literal that
    is empty once unquoted. *)
Definition function_from (toks : list Token) (f : PureVirtualFunction.t)
    : Prop :=
  identifier_of toks (PureVirtualFunction.name f)
  ∧ match PureVirtualFunction.return_type f with
    | Some text => text ≠ "" ∧ literal_of toks text
    | None => literal_of toks ""
    end.

Definition implementation_from (toks : list Token) (i : Implementation.t)
    : Prop :=
  identifier_of toks (Implementation.name i)
  ∧ literal_of toks (Implementation.body i).

Definition variant_from (toks : list Token)
    (entry : str * PolymorphicType.t) : Prop :=
  identifier_of toks entry.1
  ∧ Forall (member_from toks) (PolymorphicType.members entry.2)
  ∧ Forall (implementation_from toks) (PolymorphicType.implementations entry.2).

Definition abstract_type_from (toks : list Token)
    (entry : str * AbstractType.t) : Prop :=
  identifier_of toks entry.1
  ∧ Forall (member_from toks) (AbstractType.members entry.2)
  ∧ Forall (function_from toks) (AbstractType.pure_virtual_functions entry.2)
  ∧ Forall (variant_from toks) (AbstractType.sub_types entry.2).

Definition type_definition_from (toks : list Token)
    (definition : str * str) : Prop :=
  identifier_of toks definition.1 ∧ literal_of toks definition.2.

Definition file_state_from (toks : list Token) (s : file_state) : Prop :=
  Forall (type_definition_from toks) (type_definitions s)
  ∧ Forall (abstract_type_from toks) (polymorphic_types s)
  ∧ (postlude s = "" ∨ literal_of toks (postlude s)).

(** *** The printed form of a member and of a variant *)


(** [Member.__str__]:
    [f"{self.name}{' by_move' if self.by_move else ''}: {self.type_}"] *)
Definition Member_str (m : Member.t) : str :=
  Member.name m
  ++ (if Member.by_move m then " by_move" else "" : str)
  ++ (": " : str) ++ Member.type_ m.



(** No character of [s] is one that [stop] tells. *)
Fixpoint free_of (stop : char → bool) (s : str) : bool :=
  match s with
  | [] => true
  | c :: s' => negb (stop c) && free_of stop s'
  end.

(** [s] is empty or starts with a character that [stop] tells. *)
Definition stops_at (stop : char → bool) (s : str) : bool :=
  match s with
  | [] => true
  | c :: _ => stop c
  end.

(** The space and the colon: what follows the name in the printed form
    of a member. *)
Definition ends_name (c : char) : bool := ((c =? 32) || (c =? 58))%N.



(** *** The tokens a production has read *)

(** Between the cursors [p] and [p'] lie tokens that spell [input]. *)
Definition reads (p p' : Parser) (input : list Token) : Prop :=
  tokens p' = tokens p
  ∧ ∃ raw, remaining p = raw ++ remaining p' ∧ canon <$> raw = input.

(** *** The end-of-input token ahead of the cursor *)

(** An end-of-input token lies at or after the cursor. *)
Definition guarded (p : Parser) : Prop :=
  ∃ i tok, index p ≤ i ∧ tokens p !! i = Some tok ∧ type_ tok = END_OF_INPUT.

(** From [p], [m] reads no token past the last, and leaves the cursor at
    or before an end-of-input token. *)
Definition in_bounds {A : Type} (m : M A) (p : Parser) : Prop :=
  m p ≠ Raise IndexError ∧ ∀ a p', m p = Return (a, p') → guarded p'.

(** * Reasoning about the embedding *)

(** ** The monad *)

Lemma bind_Return {A B : Type} (m : M A) (f : A → M B) p a p' :
  m p = Return (a, p') → (m ≫= f) p = f a p'.
Proof. unfold mbind, M_bind. by intros ->. Qed.

Lemma bind_Raise {A B : Type} (m : M A) (f : A → M B) p e :
  m p = Raise e → (m ≫= f) p = Raise e.
Proof. unfold mbind, M_bind. by intros ->. Qed.

Lemma bind_inv {A B : Type} (m : M A) (f : A → M B) p b q :
  (m ≫= f) p = Return (b, q) →
  ∃ a p', m p = Return (a, p') ∧ f a p' = Return (b, q).
Proof.
  unfold mbind, M_bind. destruct (m p) as [[a p']| |]; [|done..].
  intros Hf. by exists a, p'.
Qed.

Lemma ret_inv {A : Type} (a b : A) p q :
  mret (M:=M) a p = Return (b, q) → b = a ∧ q = p.
Proof. unfold mret, M_ret. by intros [= -> ->]. Qed.

(** ** The cursor *)

Lemma current_Some p tok :
  tokens p !! index p = Some tok → current p = Return (tok, p).
Proof. unfold current. by intros ->. Qed.

Lemma current_None p :
  length (tokens p) ≤ index p → current p = Raise IndexError.
Proof. intros H%lookup_ge_None. unfold current. by rewrite H. Qed.

Lemma current_inv p tok p' :
  current p = Return (tok, p') → p' = p ∧ tokens p !! index p = Some tok.
Proof.
  unfold current. destruct (tokens p !! index p); [|done]. by intros [= -> ->].
Qed.

Lemma is_end_of_input_inv p b p' :
  is_end_of_input p = Return (b, p') → p' = p ∧ (b = true ↔ at_end p).
Proof.
  unfold is_end_of_input, at_end. case_decide as Hlen.
  - intros [= <- <-]. split; [done|]. naive_solver.
  - intros (tok & q & [-> Htok]%current_inv & [-> ->]%ret_inv)%bind_inv.
    split; [done|]. rewrite bool_decide_eq_true. split.
    + intros ?. right. by exists tok.
    + intros [?|(tok' & ? & ?)]; [lia|]. by simplify_eq.
Qed.

Lemma is_end_of_input_total p : ∃ b, is_end_of_input p = Return (b, p).
Proof.
  unfold is_end_of_input. case_decide as Hlen; [by eexists|].
  destruct (lookup_lt_is_Some_2 (tokens p) (index p)) as [tok Htok]; [lia|].
  rewrite (bind_Return _ _ _ _ _ (current_Some _ _ Htok)). by eexists.
Qed.

Lemma is_end_of_input_true p :
  at_end p → is_end_of_input p = Return (true, p).
Proof.
  intros Hend. destruct (is_end_of_input_total p) as [b Hb].
  destruct (is_end_of_input_inv _ _ _ Hb) as [_ Hiff].
  apply Hiff in Hend as ->. done.
Qed.

Lemma is_end_of_input_false p tok :
  tokens p !! index p = Some tok → type_ tok ≠ END_OF_INPUT →
  is_end_of_input p = Return (false, p).
Proof.
  intros Htok Hty. destruct (is_end_of_input_total p) as [[] Hb]; [|done].
  destruct (is_end_of_input_inv _ _ _ Hb) as [_ Hiff].
  destruct Hiff as [[Hlen|(tok' & ? & ?)] _]; [done| |by simplify_eq].
  apply lookup_lt_Some in Htok. lia.
Qed.

Lemma next_eq p : next p = Return ((), advance 1 p).
Proof. done. Qed.

Lemma consume_at_end ty p :
  at_end p → consume ty p = Raise (ParserError UnexpectedEndOfInput).
Proof.
  intros Hend. unfold consume.
  by rewrite (bind_Return _ _ _ _ _ (is_end_of_input_true _ Hend)).
Qed.

Lemma consume_match p tok :
  tokens p !! index p = Some tok → type_ tok ≠ END_OF_INPUT →
  consume (type_ tok) p = Return (tok, advance 1 p).
Proof.
  intros Htok Hty. unfold consume.
  rewrite (bind_Return _ _ _ _ _ (is_end_of_input_false _ _ Htok Hty)).
  rewrite (bind_Return _ _ _ _ _ (current_Some _ _ Htok)).
  rewrite decide_False by naive_solver.
  by rewrite (bind_Return _ _ _ _ _ (current_Some _ _ Htok)).
Qed.

Lemma consume_mismatch ty p tok :
  tokens p !! index p = Some tok → type_ tok ≠ END_OF_INPUT → type_ tok ≠ ty →
  consume ty p
  = Raise (ParserError (UnexpectedToken ty (type_ tok) (lexeme tok))).
Proof.
  intros Htok Hty Hne. unfold consume.
  rewrite (bind_Return _ _ _ _ _ (is_end_of_input_false _ _ Htok Hty)).
  rewrite (bind_Return _ _ _ _ _ (current_Some _ _ Htok)).
  by rewrite decide_True.
Qed.

Lemma consume_inv ty p tok p' :
  consume ty p = Return (tok, p') →
  tokens p !! index p = Some tok ∧ type_ tok = ty ∧ p' = advance 1 p.
Proof.
  unfold consume.
  intros ([] & q & [-> _]%is_end_of_input_inv & H)%bind_inv; [done|].
  apply bind_inv in H as (tok' & q & [-> Htok]%current_inv & H).
  case_decide as Hty; [done|].
  rewrite (bind_Return _ _ _ _ _ (current_Some _ _ Htok)) in H.
  by injection H as [= <- <-].
Qed.

Lemma consume_never_out_of_fuel ty p : consume ty p ≠ OutOfFuel.
Proof.
  unfold consume. destruct (is_end_of_input_total p) as [b Hb].
  rewrite (bind_Return _ _ _ _ _ Hb). destruct b; [done|].
  unfold mbind, M_bind, current.
  destruct (tokens p !! index p) as [tok|] eqn:Htok; [|done].
  case_decide; [done|]. by rewrite Htok.
Qed.

(** ** Inversion of a production that returns *)

Lemma construct_inv {A : Type} (r : outcome A) p a p' :
  construct r p = Return (a, p') → r = Return a ∧ p' = p.
Proof. unfold construct. destruct r; [|done..]. by intros [= -> ->]. Qed.

Ltac invert_step :=
  match goal with
  | H : Return _ = Return _ |- _ => injection H as [= ? ?]; subst
  | H : (_ ≫= _) _ = Return _ |- _ =>
      let a := fresh "a" in let q := fresh "q" in let Ha := fresh "H" in
      apply bind_inv in H as (a & q & Ha & H); cbv beta in H
  | H : mret _ _ = Return _ |- _ => apply ret_inv in H as [? ?]; subst
  | H : current _ = Return _ |- _ => apply current_inv in H as [? H]; subst
  | H : consume _ _ = Return _ |- _ =>
      let Hty := fresh "Hty" in apply consume_inv in H as (H & Hty & ?); subst
  | H : next _ = Return _ |- _ => rewrite next_eq in H
  | H : is_end_of_input _ = Return _ |- _ =>
      apply is_end_of_input_inv in H as [? H]; subst
  | H : construct _ _ = Return _ |- _ => apply construct_inv in H as [H ?]; subst
  | H : raise _ _ = Return _ |- _ => discriminate H
  | H : (let '(_, _) := ?x in _) _ = _ |- _ => destruct x
  | H : (if ?b then _ else _) _ = Return _ |- _ =>
      let E := fresh "E" in destruct b eqn:E
  end.

Ltac invert_M := repeat invert_step.

(** ** The cursor only moves forward *)

Lemma follows_refl p : follows p p.
Proof. by split. Qed.

Lemma follows_trans p q r : follows p q → follows q r → follows p r.
Proof. unfold follows. intros [-> ?] [-> ?]. split; [done|lia]. Qed.

Lemma advanced_follows p q : advanced p q → follows p q.
Proof. unfold advanced, follows. intros (? & ? & ?). split; [done|lia]. Qed.

Lemma advanced_then_follows p q r : advanced p q → follows q r → advanced p r.
Proof.
  unfold advanced, follows. intros (Hq & ? & ?) [-> ?]. rewrite Hq.
  repeat split; [lia|done].
Qed.

Lemma follows_then_advanced p q r : follows p q → advanced q r → advanced p r.
Proof.
  unfold advanced, follows. intros [Hq ?] (-> & ? & ?). rewrite Hq in *.
  repeat split; lia.
Qed.

Lemma advanced_advance p tok :
  tokens p !! index p = Some tok → advanced p (advance 1 p).
Proof.
  intros ?%lookup_lt_Some. unfold advanced, advance; simpl.
  repeat split; [lia|done].
Qed.

Lemma follows_advance n p : follows p (advance n p).
Proof. unfold follows, advance; simpl. split; [done|lia]. Qed.

Lemma tokens_advance n p : tokens (advance n p) = tokens p.
Proof. done. Qed.

Lemma advance_advance n m p : advance n (advance m p) = advance (m + n) p.
Proof. unfold advance; simpl. f_equal. lia. Qed.

Create HintDb cursor.

#[local] Hint Resolve follows_refl advanced_follows advanced_advance
  follows_advance : cursor.

Lemma consume_advanced ty p tok p' :
  consume ty p = Return (tok, p') → advanced p p'.
Proof. intros H. invert_M. eauto with cursor. Qed.

Lemma parse_data_member_advanced p m p' :
  parse_data_member p = Return (m, p') → advanced p p'.
Proof.
  unfold parse_data_member. intros H. invert_M.
  - eapply advanced_then_follows; [eauto with cursor|].
    eapply follows_trans; eauto with cursor.
  - eapply advanced_then_follows; eauto with cursor.
Qed.

Lemma parse_implementation_advanced p i p' :
  parse_implementation p = Return (i, p') → advanced p p'.
Proof.
  unfold parse_implementation. intros H. invert_M.
  eapply advanced_then_follows; [eauto with cursor|].
  eapply follows_trans; eauto with cursor.
Qed.

(** ** Loops *)

(** An invariant of the loop-carried variables and the cursor holds when
    the loop is left. *)
Lemma while_invariant {S : Type} (I : S → Parser → Prop) (body : S → M (flow S)) :
  (∀ s q r q', I s q → body s q = Return (r, q') → I (flow_state r) q') →
  ∀ fuel s p s' p',
    I s p → while fuel body s p = Return (s', p') → I s' p'.
Proof.
  intros Hbody. induction fuel as [|fuel IH]; intros s p s' p' HI H; [done|].
  simpl in H. apply bind_inv in H as (r & q & Hr & H).
  specialize (Hbody _ _ _ _ HI Hr). destruct r as [s1|s1]; simpl in *.
  - exact (IH _ _ _ _ Hbody H).
  - apply ret_inv in H as [-> ->]. done.
Qed.

Lemma while_follows {S : Type} (body : S → M (flow S)) fuel s p s' p' :
  (∀ s q r q', body s q = Return (r, q') → follows q q') →
  while fuel body s p = Return (s', p') → follows p p'.
Proof.
  intros Hbody H.
  eapply (while_invariant (λ _ q, follows p q)); [|apply follows_refl|exact H].
  intros ? q r q' Hq Hr. eapply follows_trans; [exact Hq|]. by eapply Hbody.
Qed.

Lemma bind_never_out_of_fuel {A B : Type} (m : M A) (f : A → M B) p :
  m p ≠ OutOfFuel →
  (∀ a p', m p = Return (a, p') → f a p' ≠ OutOfFuel) →
  (m ≫= f) p ≠ OutOfFuel.
Proof.
  unfold mbind, M_bind. destruct (m p) as [[a p']| |]; [|done..].
  intros _ Hf. by apply Hf.
Qed.

(** A loop whose body moves the cursor forward each time it runs to its
    end finishes within as many iterations as tokens are left, plus the
    last evaluation of its condition. *)
Lemma while_never_out_of_fuel {S : Type} (body : S → M (flow S)) :
  ∀ fuel s p,
    (∀ s q, follows p q → body s q ≠ OutOfFuel) →
    (∀ s q s' q', follows p q → body s q = Return (Continue s', q') →
                  advanced q q') →
    length (tokens p) - index p < fuel →
    while fuel body s p ≠ OutOfFuel.
Proof.
  induction fuel as [|fuel IH]; intros s p Hfuel Hadv Hlt; [lia|].
  simpl. apply bind_never_out_of_fuel; [apply Hfuel, follows_refl|].
  intros [s'|s'] p' Hr; [|done].
  pose proof (Hadv _ _ _ _ (follows_refl p) Hr) as Hpp'.
  assert (follows p p') as Hf by by apply advanced_follows.
  apply IH.
  - intros ? q ?. apply Hfuel. by eapply follows_trans.
  - intros ? q ? q' ?. apply Hadv. by eapply follows_trans.
  - destruct Hpp' as (-> & ? & ?). lia.
Qed.

(** ** The productions move the cursor forward *)

Lemma subtype_body_advanced s p r p' :
  subtype_body s p = Return (r, p') →
  match r with Continue _ => advanced p p' | Break _ => p' = p end.
Proof.
  unfold subtype_body. intros H. invert_M; [| |done].
  - by eapply parse_data_member_advanced.
  - by eapply parse_implementation_advanced.
Qed.

Lemma body_follows {S : Type} (body : S → M (flow S)) :
  (∀ s p r p', body s p = Return (r, p') →
     match r with Continue _ => advanced p p' | Break _ => p' = p end) →
  ∀ s p r p', body s p = Return (r, p') → follows p p'.
Proof.
  intros Hbody s p r p' H. specialize (Hbody _ _ _ _ H).
  destruct r; subst; eauto with cursor.
Qed.

Lemma parse_subtype_advanced fuel p r p' :
  parse_subtype fuel p = Return (r, p') → advanced p p'.
Proof.
  unfold parse_subtype. intros H. invert_M.
  eapply advanced_then_follows; [eauto with cursor|].
  eapply follows_trans; [eauto with cursor|].
  eapply follows_trans; [|eauto with cursor].
  eapply while_follows; [|done]. apply body_follows, subtype_body_advanced.
Qed.

Lemma base_type_members_body_advanced s p r p' :
  base_type_members_body s p = Return (r, p') →
  match r with Continue _ => advanced p p' | Break _ => p' = p end.
Proof.
  unfold base_type_members_body. intros H. invert_M; [|done].
  by eapply parse_data_member_advanced.
Qed.

Lemma functions_body_advanced s p r p' :
  functions_body s p = Return (r, p') →
  match r with Continue _ => advanced p p' | Break _ => p' = p end.
Proof.
  unfold functions_body. intros H. invert_M; [|done].
  eapply advanced_then_follows; [eauto with cursor|].
  eapply follows_trans; eauto with cursor.
Qed.

Lemma sub_types_body_advanced fuel functions s p r p' :
  sub_types_body fuel functions s p = Return (r, p') →
  match r with Continue _ => advanced p p' | Break _ => p' = p end.
Proof.
  unfold sub_types_body. intros H. invert_M; [|done].
  eapply advanced_then_follows; [eauto with cursor|].
  eapply advanced_follows, parse_subtype_advanced. done.
Qed.

Lemma parse_polymorphic_type_advanced fuel types p types' p' :
  parse_polymorphic_type fuel types p = Return (types', p') → advanced p p'.
Proof.
  unfold parse_polymorphic_type. intros H. invert_M.
  eapply advanced_then_follows; [eauto with cursor|].
  eapply follows_trans; [eauto with cursor|].
  eapply follows_trans;
    [eapply while_follows; [apply body_follows, base_type_members_body_advanced|done]|].
  eapply follows_trans;
    [eapply while_follows; [apply body_follows, functions_body_advanced|done]|].
  eapply follows_trans; [eauto with cursor|].
  eapply follows_trans; [eauto with cursor|].
  eapply follows_trans; [eapply advanced_follows, parse_subtype_advanced; done|].
  eapply while_follows; [apply body_follows, sub_types_body_advanced|done].
Qed.

Lemma file_body_advanced fuel s p r p' :
  file_body fuel s p = Return (r, p') →
  match r with Continue _ => advanced p p' | Break _ => follows p p' end.
Proof.
  unfold file_body. intros H. invert_M; [apply follows_refl|].
  destruct (type_ a0) eqn:Hty; invert_M.
  - by eapply parse_polymorphic_type_advanced.
  - eauto with cursor.
  - eapply advanced_then_follows; [eauto with cursor|].
    eapply follows_trans; eauto with cursor.
Qed.

(** ** No production runs out of fuel *)

Lemma PolymorphicType_new_never_out_of_fuel functions members implementations :
  PolymorphicType.new functions members implementations ≠ OutOfFuel.
Proof. unfold PolymorphicType.new. by repeat case_decide. Qed.

Lemma current_never_out_of_fuel p : current p ≠ OutOfFuel.
Proof. unfold current. by destruct (tokens p !! index p). Qed.

Lemma is_end_of_input_never_out_of_fuel p : is_end_of_input p ≠ OutOfFuel.
Proof. destruct (is_end_of_input_total p) as [b ->]. done. Qed.

Lemma construct_never_out_of_fuel {A : Type} (r : outcome A) p :
  r ≠ OutOfFuel → construct r p ≠ OutOfFuel.
Proof. unfold construct. by destruct r. Qed.

(** What a returned call tells about the cursor after it. *)
Ltac cursor_facts :=
  repeat match goal with
  | H : consume _ _ = Return _ |- _ => apply consume_advanced, advanced_follows in H
  | H : current _ = Return _ |- _ => apply current_inv in H as [-> _]
  | H : next _ = Return _ |- _ => rewrite next_eq in H; simplify_eq
  | H : is_end_of_input _ = Return _ |- _ => apply is_end_of_input_inv in H as [-> _]
  | H : construct _ _ = Return _ |- _ => apply construct_inv in H as [_ ->]
  | H : mret _ _ = Return _ |- _ => apply ret_inv in H as [_ ->]
  | H : parse_data_member _ = Return _ |- _ =>
      apply parse_data_member_advanced, advanced_follows in H
  | H : parse_implementation _ = Return _ |- _ =>
      apply parse_implementation_advanced, advanced_follows in H
  | H : parse_subtype _ _ = Return _ |- _ =>
      apply parse_subtype_advanced, advanced_follows in H
  | H : parse_polymorphic_type _ _ _ = Return _ |- _ =>
      apply parse_polymorphic_type_advanced, advanced_follows in H
  | H : while _ subtype_body _ _ = Return _ |- _ =>
      apply while_follows in H; [|apply body_follows, subtype_body_advanced]
  | H : while _ base_type_members_body _ _ = Return _ |- _ =>
      apply while_follows in H; [|apply body_follows, base_type_members_body_advanced]
  | H : while _ functions_body _ _ = Return _ |- _ =>
      apply while_follows in H; [|apply body_follows, functions_body_advanced]
  | H : while _ (sub_types_body _ _) _ _ = Return _ |- _ =>
      apply while_follows in H; [|apply body_follows, sub_types_body_advanced]
  | H : follows _ _ |- _ => destruct H as [? ?]
  end;
  rewrite ?tokens_advance in *;
  repeat match goal with
  | H : tokens ?q = tokens _ |- _ => rewrite H in *; clear H
  end.

Ltac fuel_step :=
  match goal with
  | |- (_ ≫= _) _ ≠ OutOfFuel =>
      apply bind_never_out_of_fuel; [|cbv beta; intros ? ? ?]
  | |- consume _ _ ≠ OutOfFuel => apply consume_never_out_of_fuel
  | |- current _ ≠ OutOfFuel => apply current_never_out_of_fuel
  | |- is_end_of_input _ ≠ OutOfFuel => apply is_end_of_input_never_out_of_fuel
  | |- construct _ _ ≠ OutOfFuel =>
      apply construct_never_out_of_fuel, PolymorphicType_new_never_out_of_fuel
  | |- mret _ _ ≠ OutOfFuel => done
  | |- next _ ≠ OutOfFuel => done
  | |- raise _ _ ≠ OutOfFuel => done
  | |- (if ?b then _ else _) _ ≠ OutOfFuel => destruct b
  | |- (let '(_, _) := ?x in _) _ ≠ OutOfFuel => destruct x
  end.

Lemma parse_data_member_never_out_of_fuel p : parse_data_member p ≠ OutOfFuel.
Proof. unfold parse_data_member. repeat fuel_step. Qed.

Lemma parse_implementation_never_out_of_fuel p :
  parse_implementation p ≠ OutOfFuel.
Proof. unfold parse_implementation. repeat fuel_step. Qed.

Lemma subtype_body_never_out_of_fuel s p : subtype_body s p ≠ OutOfFuel.
Proof.
  unfold subtype_body. repeat fuel_step;
    auto using parse_data_member_never_out_of_fuel,
      parse_implementation_never_out_of_fuel.
Qed.

Lemma while_subtype_body_never_out_of_fuel fuel s p :
  length (tokens p) < fuel → while fuel subtype_body s p ≠ OutOfFuel.
Proof.
  intros Hfuel. apply while_never_out_of_fuel; [| |lia].
  - intros. apply subtype_body_never_out_of_fuel.
  - intros ? q ? q' _ Hbody. by apply subtype_body_advanced in Hbody.
Qed.

Lemma parse_subtype_never_out_of_fuel fuel p :
  length (tokens p) < fuel → parse_subtype fuel p ≠ OutOfFuel.
Proof.
  intros Hfuel. unfold parse_subtype. repeat fuel_step.
  apply while_subtype_body_never_out_of_fuel. by cursor_facts.
Qed.

Lemma base_type_members_body_never_out_of_fuel s p :
  base_type_members_body s p ≠ OutOfFuel.
Proof.
  unfold base_type_members_body. repeat fuel_step;
    auto using parse_data_member_never_out_of_fuel.
Qed.

Lemma functions_body_never_out_of_fuel s p : functions_body s p ≠ OutOfFuel.
Proof. unfold functions_body. repeat fuel_step. Qed.

Lemma sub_types_body_never_out_of_fuel fuel functions s p :
  length (tokens p) < fuel → sub_types_body fuel functions s p ≠ OutOfFuel.
Proof.
  intros Hfuel. unfold sub_types_body. repeat fuel_step.
  apply parse_subtype_never_out_of_fuel. by cursor_facts.
Qed.

Lemma parse_polymorphic_type_never_out_of_fuel fuel types p :
  length (tokens p) < fuel → parse_polymorphic_type fuel types p ≠ OutOfFuel.
Proof.
  intros Hfuel. unfold parse_polymorphic_type. repeat fuel_step.
  - apply while_never_out_of_fuel; [| |cursor_facts; lia].
    + intros. apply base_type_members_body_never_out_of_fuel.
    + intros ? q ? q' _ Hbody. by apply base_type_members_body_advanced in Hbody.
  - apply while_never_out_of_fuel; [| |cursor_facts; lia].
    + intros. apply functions_body_never_out_of_fuel.
    + intros ? q ? q' _ Hbody. by apply functions_body_advanced in Hbody.
  - apply parse_subtype_never_out_of_fuel. by cursor_facts.
  - apply while_never_out_of_fuel; [| |cursor_facts; lia].
    + intros ? q [Hq _]. apply sub_types_body_never_out_of_fuel.
      rewrite Hq. by cursor_facts.
    + intros ? q ? q' _ Hbody. by apply sub_types_body_advanced in Hbody.
Qed.

Lemma file_body_never_out_of_fuel fuel s p :
  length (tokens p) < fuel → file_body fuel s p ≠ OutOfFuel.
Proof.
  intros Hfuel. unfold file_body. repeat fuel_step.
  match goal with |- context [type_ ?tok] => destruct (type_ tok) end;
    repeat fuel_step.
  apply parse_polymorphic_type_never_out_of_fuel. by cursor_facts.
Qed.

Lemma parse_file_never_out_of_fuel fuel p :
  length (tokens p) < fuel → parse_file fuel p ≠ OutOfFuel.
Proof.
  intros Hfuel. unfold parse_file. repeat fuel_step.
  match goal with
  | H : current p = Return (_, ?p1), H' : _ ?p1 = Return (_, ?p2) |- _ =>
      assert (tokens p2 = tokens p) as Htokens
        by (clear -H H'; invert_M; by cursor_facts)
  end.
  apply while_never_out_of_fuel.
  - intros ? q [Hq _]. apply file_body_never_out_of_fuel. by rewrite Hq, Htokens.
  - intros ? q ? q' _ Hbody. by apply file_body_advanced in Hbody.
  - rewrite Htokens. lia.
Qed.

Lemma parse_with_never_out_of_fuel fuel toks :
  length toks < fuel → parse_with fuel toks ≠ OutOfFuel.
Proof.
  intros Hfuel. unfold parse_with.
  pose proof (parse_file_never_out_of_fuel fuel (Parser_init toks) Hfuel).
  by destruct (parse_file fuel (Parser_init toks)) as [[]| |].
Qed.

(** ** More fuel does not change what a finished run returned *)

Lemma fuel_le_refl {A : Type} (m : M A) : fuel_le m m.
Proof. intros p. by right. Qed.

Lemma fuel_le_bind {A B : Type} (m m' : M A) (f f' : A → M B) :
  fuel_le m m' → (∀ a, fuel_le (f a) (f' a)) →
  fuel_le (m ≫= f) (m' ≫= f').
Proof.
  intros Hm Hf p. unfold mbind, M_bind.
  destruct (Hm p) as [->| <-]; [by left|].
  destruct (m p) as [[a q]| |]; [apply Hf|by right|by left].
Qed.

Lemma fuel_le_while {S : Type} (body body' : S → M (flow S)) fuel fuel' :
  fuel ≤ fuel' → (∀ s, fuel_le (body s) (body' s)) →
  ∀ s, fuel_le (while fuel body s) (while fuel' body' s).
Proof.
  intros Hle Hbody. revert fuel' Hle.
  induction fuel as [|fuel IH]; intros fuel' Hle s; [by left|].
  destruct fuel' as [|fuel']; [lia|]. simpl.
  apply fuel_le_bind; [apply Hbody|].
  intros [s'|s']; [apply IH; lia|apply fuel_le_refl].
Qed.

Ltac fuel_le_step :=
  match goal with
  | |- fuel_le (_ ≫= _) (_ ≫= _) => apply fuel_le_bind; [|intros ?]
  | |- fuel_le (while _ _ _) (while _ _ _) => apply fuel_le_while; [done|intros ?|..]
  | |- fuel_le (if ?b then _ else _) (if ?b then _ else _) => destruct b
  | |- fuel_le (let '(_, _) := ?x in _) (let '(_, _) := ?x in _) => destruct x
  | |- fuel_le ?m ?m => apply fuel_le_refl
  end.

Lemma parse_subtype_fuel_le fuel fuel' :
  fuel ≤ fuel' → fuel_le (parse_subtype fuel) (parse_subtype fuel').
Proof. intros. unfold parse_subtype. repeat fuel_le_step. Qed.

Lemma sub_types_body_fuel_le fuel fuel' functions s :
  fuel ≤ fuel' →
  fuel_le (sub_types_body fuel functions s) (sub_types_body fuel' functions s).
Proof.
  intros. unfold sub_types_body. repeat fuel_le_step.
  by apply parse_subtype_fuel_le.
Qed.

Lemma parse_polymorphic_type_fuel_le fuel fuel' types :
  fuel ≤ fuel' →
  fuel_le (parse_polymorphic_type fuel types) (parse_polymorphic_type fuel' types).
Proof.
  intros. unfold parse_polymorphic_type. repeat fuel_le_step.
  - by apply parse_subtype_fuel_le.
  - by apply sub_types_body_fuel_le.
Qed.

Lemma file_body_fuel_le fuel fuel' s :
  fuel ≤ fuel' → fuel_le (file_body fuel s) (file_body fuel' s).
Proof.
  intros. unfold file_body. repeat fuel_le_step.
  match goal with |- context [type_ ?tok] => destruct (type_ tok) end;
    repeat fuel_le_step.
  by apply parse_polymorphic_type_fuel_le.
Qed.

Lemma parse_file_fuel_le fuel fuel' :
  fuel ≤ fuel' → fuel_le (parse_file fuel) (parse_file fuel').
Proof.
  intros. unfold parse_file. repeat fuel_le_step. by apply file_body_fuel_le.
Qed.

Lemma parse_with_more_fuel fuel toks :
  length toks < fuel → parse_with fuel toks = parse toks.
Proof.
  intros Hfuel. symmetry.
  pose proof (parse_with_never_out_of_fuel (S (length toks)) toks) as Hnever.
  unfold parse, parse_with in *.
  destruct (parse_file_fuel_le (S (length toks)) fuel ltac:(lia) (Parser_init toks))
    as [Hout| ->]; [|done].
  rewrite Hout in Hnever. by destruct Hnever; [lia|].
Qed.

(** ** The checks of [PolymorphicType.__init__] *)

Lemma name_set_cons x l : name_set (x :: l) = {[x]} ∪ name_set l.
Proof. done. Qed.

Lemma elem_of_name_set x l : x ∈ name_set l ↔ x ∈ l.
Proof. apply elem_of_list_to_set. Qed.

Lemma size_name_set_le l : size (name_set l) ≤ length l.
Proof.
  induction l as [|x l IH]; [done|]. rewrite name_set_cons, size_union_alt.
  rewrite size_singleton. simpl.
  assert (size (name_set l ∖ {[x]}) ≤ size (name_set l))
    by (apply subseteq_size; intros y [Hy _]%elem_of_difference; exact Hy).
  lia.
Qed.

(** [len(set(names)) != len(names)] tests for a repeated name. *)
Lemma size_name_set_NoDup l : size (name_set l) = length l ↔ NoDup l.
Proof.
  split; [|apply size_list_to_set].
  induction l as [|x l IH]; [constructor|]. rewrite name_set_cons. simpl.
  intros Hsize. destruct (decide (x ∈ l)) as [Hin|Hin].
  - assert ({[x]} ∪ name_set l = name_set l) as Heq.
    { apply subseteq_union_1_L, singleton_subseteq_l, elem_of_name_set, Hin. }
    rewrite Heq in Hsize. pose proof (size_name_set_le l). lia.
  - rewrite size_union, size_singleton in Hsize.
    + constructor; [done|]. apply IH. lia.
    + by apply disjoint_singleton_l; rewrite elem_of_name_set.
Qed.

Section PolymorphicType_new.
Context (functions : list PureVirtualFunction.t) (members : list Member.t)
        (implementations : list Implementation.t).

Let declared : list str := PureVirtualFunction.name <$> functions.
Let implemented : list str := Implementation.name <$> implementations.

Lemma new_duplicate_declaration :
  ¬ NoDup declared →
  PolymorphicType.new functions members implementations
  = Raise (ParserError DuplicateOperationDeclaration).
Proof.
  intros Hdup. unfold PolymorphicType.new. fold declared.
  rewrite decide_True; [done|]. by rewrite size_name_set_NoDup.
Qed.

Lemma new_duplicate_implementation :
  NoDup declared → ¬ NoDup implemented →
  PolymorphicType.new functions members implementations
  = Raise (ParserError DuplicateImplementation).
Proof.
  intros Hdecl Hdup. unfold PolymorphicType.new. fold declared implemented.
  rewrite decide_False by (by intros []; apply size_name_set_NoDup).
  rewrite decide_True; [done|]. by rewrite size_name_set_NoDup.
Qed.

Lemma new_incomplete_or_excess :
  NoDup declared → NoDup implemented →
  name_set declared ≠ name_set implemented →
  PolymorphicType.new functions members implementations
  = Raise (ParserError IncompleteOrExcessImplementation).
Proof.
  intros Hdecl Himpl Hne. unfold PolymorphicType.new. fold declared implemented.
  rewrite decide_False by (by intros []; apply size_name_set_NoDup).
  rewrite decide_False by (by intros []; apply size_name_set_NoDup).
  by rewrite decide_True.
Qed.

Lemma new_Return :
  NoDup declared → NoDup implemented →
  name_set declared = name_set implemented →
  PolymorphicType.new functions members implementations
  = Return (PolymorphicType.mk functions members implementations).
Proof.
  intros Hdecl Himpl Heq. unfold PolymorphicType.new. fold declared implemented.
  rewrite decide_False by (by intros []; apply size_name_set_NoDup).
  rewrite decide_False by (by intros []; apply size_name_set_NoDup).
  rewrite decide_False; [done|]. by intros [].
Qed.

Lemma new_inv v :
  PolymorphicType.new functions members implementations = Return v →
  v = PolymorphicType.mk functions members implementations
  ∧ NoDup declared ∧ NoDup implemented
  ∧ name_set declared = name_set implemented.
Proof.
  unfold PolymorphicType.new. fold declared implemented.
  repeat case_decide; try done. intros [= <-].
  by rewrite <-!size_name_set_NoDup.
Qed.
End PolymorphicType_new.

(** ** Every variant implements the operations of its abstract type *)

Lemma Forall_dict_set {V : Type} (P : V → Prop) k v (d : dict V) :
  Forall (λ entry, P entry.2) d → P v →
  Forall (λ entry, P entry.2) (dict_set k v d).
Proof.
  intros Hd Hv. induction Hd as [|[k' v'] d' Hv' Hd' IH]; simpl.
  - by repeat constructor.
  - case_decide; constructor; done.
Qed.

Lemma new_implements_exactly functions members implementations v :
  PolymorphicType.new functions members implementations = Return v →
  implements_exactly functions v.
Proof. intros (-> & _ & _ & Heq)%new_inv. unfold implements_exactly. done. Qed.

Lemma sub_types_body_complete fuel functions s p r p' :
  Forall (λ entry, implements_exactly functions entry.2) s →
  sub_types_body fuel functions s p = Return (r, p') →
  Forall (λ entry, implements_exactly functions entry.2) (flow_state r).
Proof.
  intros Hs H. unfold sub_types_body in H. invert_M; simpl; [|done].
  apply Forall_dict_set; [done|]. by eapply new_implements_exactly.
Qed.

Lemma parse_polymorphic_type_complete fuel types p types' p' :
  Forall (λ entry, complete_abstract_type entry.2) types →
  parse_polymorphic_type fuel types p = Return (types', p') →
  Forall (λ entry, complete_abstract_type entry.2) types'.
Proof.
  intros Htypes H. unfold parse_polymorphic_type in H. invert_M.
  apply Forall_dict_set; [done|]. unfold complete_abstract_type; simpl.
  match goal with
  | Hloop : while _ (sub_types_body _ ?fs) _ _ = Return _ |- _ =>
      eapply (while_invariant
                (λ s _, Forall (λ entry, implements_exactly fs entry.2) s));
        [| |exact Hloop]
  end.
  - intros ? ? ? ? ? ?. by eapply sub_types_body_complete.
  - apply (Forall_dict_set (implements_exactly _) _ _ []); [constructor|].
    by eapply new_implements_exactly.
Qed.

Lemma file_body_complete fuel s p r p' :
  Forall (λ entry, complete_abstract_type entry.2) (polymorphic_types s) →
  file_body fuel s p = Return (r, p') →
  Forall (λ entry, complete_abstract_type entry.2)
    (polymorphic_types (flow_state r)).
Proof.
  intros Hs H. unfold file_body in H. invert_M; [done|].
  match goal with
  | H : context [type_ ?tok] |- _ => destruct (type_ tok)
  end; invert_M; simpl; try done.
  by eapply parse_polymorphic_type_complete.
Qed.

Lemma parse_with_complete fuel toks description :
  parse_with fuel toks = Return description → complete_description description.
Proof.
  unfold parse_with.
  destruct (parse_file fuel (Parser_init toks)) as [[d q]| |] eqn:H; [|done..].
  intros [= <-]. unfold parse_file in H.
  apply bind_inv in H as (tok & q0 & _ & H).
  apply bind_inv in H as (prelude & q1 & _ & H).
  apply bind_inv in H as (s & q2 & Hloop & H). invert_M.
  unfold complete_description; simpl.
  eapply (while_invariant
            (λ s _, Forall (λ entry, complete_abstract_type entry.2)
                      (polymorphic_types s))); [| |exact Hloop].
  - intros ? ? ? ? ? ?. by eapply file_body_complete.
  - constructor.
Qed.

(** ** Running the productions on the tokens of a source file *)

Lemma type_canon tok : type_ (canon tok) = type_ tok.
Proof. unfold canon. by destruct tok as [[] ?]. Qed.

Lemma canon_identifier tok name : canon tok = identifier name → tok = identifier name.
Proof. unfold canon. by destruct tok as [[] ?]. Qed.

Lemma canon_string_literal tok lexeme :
  canon tok = string_literal lexeme → tok = string_literal lexeme.
Proof. unfold canon. by destruct tok as [[] ?]. Qed.

Lemma at_input_init toks : at_input (Parser_init toks) (canon <$> toks).
Proof. done. Qed.

Lemma at_input_length p input : at_input p input → length (remaining p) = length input.
Proof. intros <-. by rewrite length_fmap. Qed.

Lemma length_remaining p : length (remaining p) ≤ length (tokens p).
Proof. unfold remaining. rewrite length_drop. lia. Qed.

Lemma at_input_cons p c rest :
  at_input p (c :: rest) →
  ∃ tok, tokens p !! index p = Some tok ∧ canon tok = c
         ∧ at_input (advance 1 p) rest.
Proof.
  unfold at_input, remaining. intros H.
  apply fmap_cons_inv in H as (tok & r & Hc & Hr & Hdrop).
  assert (tokens p !! index p = Some tok) as Htok.
  { rewrite <-(Nat.add_0_r (index p)), <-lookup_drop, Hdrop. done. }
  exists tok. split_and!; [done..|].
  simpl. rewrite Nat.add_1_r. apply drop_S in Htok. rewrite Hdrop in Htok.
  by injection Htok as [= <-].
Qed.

Lemma at_input_nil p : at_input p [] → length (tokens p) ≤ index p.
Proof.
  unfold at_input, remaining. intros H%fmap_nil_inv. by apply drop_nil_inv.
Qed.

Lemma current_at_input p c rest :
  at_input p (c :: rest) → ∃ tok, current p = Return (tok, p) ∧ canon tok = c.
Proof.
  intros (tok & Htok & Hc & _)%at_input_cons. exists tok.
  split; [by apply current_Some|done].
Qed.

Lemma consume_at_input p c rest :
  at_input p (c :: rest) → type_ c ≠ END_OF_INPUT →
  ∃ tok, canon tok = c ∧ runs (consume (type_ c)) p tok rest.
Proof.
  intros (tok & Htok & Hc & Hrest)%at_input_cons Hty. exists tok.
  split; [done|]. exists (advance 1 p). split_and!; [|done..].
  rewrite <-Hc, type_canon in *. by apply consume_match.
Qed.

Lemma next_at_input p c rest : at_input p (c :: rest) → runs next p () rest.
Proof.
  intros (tok & _ & _ & Hrest)%at_input_cons. by exists (advance 1 p).
Qed.

Lemma runs_bind {A B : Type} (m : M A) (f : A → M B) p a rest b rest' :
  runs m p a rest →
  (∀ p', tokens p' = tokens p → at_input p' rest → runs (f a) p' b rest') →
  runs (m ≫= f) p b rest'.
Proof.
  intros (p' & Hm & Htokens & Hinput) Hf.
  destruct (Hf p' Htokens Hinput) as (p'' & Hfa & Htokens' & Hinput').
  exists p''. rewrite (bind_Return _ _ _ _ _ Hm). split_and!; [done| |done].
  by rewrite Htokens'.
Qed.

Lemma runs_bind_eq {A B : Type} (m : M A) (f : A → M B) p a rest :
  runs m p a rest →
  ∃ p', tokens p' = tokens p ∧ at_input p' rest ∧ (m ≫= f) p = f a p'.
Proof.
  intros (p' & Hm & ? & ?). exists p'. split_and!; [done..|].
  by apply bind_Return.
Qed.

Lemma runs_ret {A : Type} (a : A) p rest : at_input p rest → runs (mret a) p a rest.
Proof. intros. by exists p. Qed.

Lemma runs_current {B : Type} (f : Token → M B) p c rest b rest' :
  at_input p (c :: rest) →
  (∀ tok, canon tok = c → runs (f tok) p b rest') →
  runs (current ≫= f) p b rest'.
Proof.
  intros (tok & Hcurrent & Hcanon)%current_at_input Hf.
  destruct (Hf tok Hcanon) as (p' & Hftok & ? & ?).
  exists p'. by rewrite (bind_Return _ _ _ _ _ Hcurrent).
Qed.

(** What [canon tok = c] tells about the token read. *)
Ltac read_token tok Hcanon :=
  first [ apply canon_identifier in Hcanon; subst tok
        | apply canon_string_literal in Hcanon; subst tok
        | apply (f_equal type_) in Hcanon; rewrite type_canon in Hcanon;
          simpl in Hcanon; rewrite ?Hcanon ].

(** One call at the head of a production: [H] tells how it runs. *)
Ltac run_call H :=
  let p' := fresh "p" in
  let Htokens := fresh "Htokens" in
  let Hinput := fresh "Hinput" in
  lazymatch goal with
  | |- runs (_ ≫= _) _ _ _ =>
      eapply runs_bind; [exact H|]; intros p' Htokens Hinput; cbv beta iota
  | |- context [(?m ≫= ?f) ?p] =>
      let Heq := fresh "Heq" in
      destruct (runs_bind_eq m f p _ _ H) as (p' & Htokens & Hinput & Heq);
      rewrite Heq; clear Heq; cbv beta iota
  end.

(** [consume] at the head of a production, on the token [Hinput] shows. *)
Ltac run_consume Hinput :=
  let tok := fresh "tok" in
  let Hcanon := fresh "Hcanon" in
  let Hruns := fresh "Hruns" in
  edestruct (consume_at_input _ _ _ Hinput) as (tok & Hcanon & Hruns);
  [done|];
  read_token tok Hcanon;
  simpl in Hruns; run_call Hruns; clear Hruns.

(** [current] at the head of a production. *)
Ltac run_current Hinput :=
  let tok := fresh "tok" in
  let Hcanon := fresh "Hcanon" in
  lazymatch goal with
  | |- runs (current ≫= _) _ _ _ =>
      eapply runs_current; [exact Hinput|]; intros tok Hcanon; cbv beta
  | |- context [(current ≫= ?f) ?p] =>
      let Hcurrent := fresh "Hcurrent" in
      destruct (current_at_input _ _ _ Hinput) as (tok & Hcurrent & Hcanon);
      rewrite (bind_Return current f p _ _ Hcurrent); clear Hcurrent; cbv beta
  end;
  read_token tok Hcanon; simpl.

Lemma parse_data_member_at_input p m rest :
  at_input p (tokens_of_member m ++ rest) →
  runs parse_data_member p (member_of m) rest.
Proof.
  destruct m as [name [] ty]; unfold tokens_of_member, parse_data_member;
    simpl; intros Hinput.
  - run_consume Hinput. run_current Hinput0.
    run_call (next_at_input _ _ _ Hinput0). run_consume Hinput1.
    by apply runs_ret.
  - run_consume Hinput. run_current Hinput0.
    run_call (runs_ret () _ _ Hinput0). run_consume Hinput1.
    by apply runs_ret.
Qed.

Lemma parse_implementation_at_input p i rest :
  at_input p (tokens_of_implementation i ++ rest) →
  runs parse_implementation p (implementation_of i) rest.
Proof.
  destruct i as [name body]; unfold tokens_of_implementation,
    parse_implementation; simpl; intros Hinput.
  run_consume Hinput. run_consume Hinput0. run_consume Hinput1.
  by apply runs_ret.
Qed.

(** *** Loops over the items of a source file *)

Lemma while_S {S : Type} (body : S → M (flow S)) fuel s :
  while (Datatypes.S fuel) body s
  = (r ← body s;
     match r with
     | Continue s' => while fuel body s'
     | Break s' => mret s'
     end).
Proof. done. Qed.

#[local] Arguments while : simpl never.
#[local] Arguments subtype_body : simpl never.
#[local] Arguments base_type_members_body : simpl never.
#[local] Arguments functions_body : simpl never.
#[local] Arguments sub_types_body : simpl never.
#[local] Arguments file_body : simpl never.
#[local] Arguments parse_subtype : simpl never.
#[local] Arguments parse_polymorphic_type : simpl never.

Lemma length_bind_ge {X : Type} (spell : X → list Token) (xs : list X) :
  (∀ x, 0 < length (spell x)) → length xs ≤ length (xs ≫= spell).
Proof.
  intros Hspell. induction xs as [|x xs IH]; [done|].
  rewrite bind_cons, length_app. specialize (Hspell x). simpl. lia.
Qed.

Section while_at_input.
Context {S X : Type}.
(** The loop, the tokens of one item, and what an item adds to the
    loop-carried variables. *)
Context (body : S → M (flow S)) (spell : X → list Token) (add : S → X → S).
(** The items the body accepts, the tokens that may come after an item,
    and the token array the loop reads. *)
Context (ok : X → Prop) (follow : Token → Prop) (toks : list Token).

Hypothesis spell_head : ∀ x, ∃ c r, spell x = c :: r ∧ follow c.

Hypothesis body_item : ∀ s p x c rest,
  tokens p = toks → ok x → follow c →
  at_input p (spell x ++ c :: rest) →
  runs (body s) p (Continue (add s x)) (c :: rest).

Lemma spell_nonempty x : 0 < length (spell x).
Proof. destruct (spell_head x) as (c & r & -> & _). simpl. lia. Qed.

Lemma follow_items xs c rest :
  follow c → ∃ c' rest', (xs ≫= spell) ++ c :: rest = c' :: rest' ∧ follow c'.
Proof.
  intros Hc. destruct xs as [|x xs]; [by exists c, rest|].
  destruct (spell_head x) as (c' & r & Heq & Hc').
  exists c'. eexists. by rewrite bind_cons, Heq.
Qed.

(** The loop passes over the items ahead of it, one iteration each. *)
Lemma while_items xs : ∀ s p c rest,
  tokens p = toks → Forall ok xs → follow c →
  at_input p ((xs ≫= spell) ++ c :: rest) →
  ∃ p', tokens p' = toks ∧ at_input p' (c :: rest)
        ∧ ∀ fuel, while (length xs + fuel) body s p
                  = while fuel body (foldl add s xs) p'.
Proof.
  induction xs as [|x xs IH]; intros s p c rest Htoks Hok Hc Hinput.
  - by exists p.
  - apply Forall_cons in Hok as [Hx Hxs].
    rewrite bind_cons, <-app_assoc in Hinput.
    destruct (follow_items xs c rest Hc) as (c' & rest' & Heq & Hc').
    rewrite Heq in Hinput.
    destruct (body_item s p x c' rest' Htoks Hx Hc' Hinput)
      as (p1 & Hbody & Htoks1 & Hinput1).
    rewrite <-Heq in Hinput1. rewrite Htoks in Htoks1.
    destruct (IH (add s x) p1 c rest Htoks1 Hxs Hc Hinput1)
      as (p' & Htoks' & Hinput' & Hwhile).
    exists p'. split_and!; [done..|]. intros fuel. simpl.
    rewrite while_S, (bind_Return _ _ _ _ _ Hbody). apply Hwhile.
Qed.

(** And it stops in front of a token that ends it. *)
Lemma while_at_input xs fuel s p c rest :
  (∀ s p, tokens p = toks → at_input p (c :: rest) →
          runs (body s) p (Break s) (c :: rest)) →
  tokens p = toks → Forall ok xs → follow c →
  at_input p ((xs ≫= spell) ++ c :: rest) →
  length (remaining p) < fuel →
  runs (while fuel body s) p (foldl add s xs) (c :: rest).
Proof.
  intros Hstop Htoks Hok Hc Hinput Hfuel.
  destruct (while_items xs s p c rest Htoks Hok Hc Hinput)
    as (p' & Htoks' & Hinput' & Hwhile).
  assert (length xs < fuel) as Hlen.
  { pose proof (length_bind_ge spell xs spell_nonempty).
    apply at_input_length in Hinput. rewrite length_app in Hinput. lia. }
  replace fuel with (length xs + Datatypes.S (fuel - length xs - 1)) by lia.
  destruct (Hstop (foldl add s xs) p' Htoks' Hinput')
    as (p'' & Hbody & Htoks'' & Hinput'').
  exists p''. rewrite Hwhile, while_S, (bind_Return _ _ _ _ _ Hbody).
  split_and!; [done| |done]. by rewrite Htoks'', Htoks', Htoks.
Qed.

End while_at_input.

(** *** The body of a variant *)

Lemma foldl_add_entry es : ∀ members implementations,
  foldl add_entry (members, implementations) es
  = (members ++ members_of_entries es,
     implementations ++ implementations_of_entries es).
Proof.
  induction es as [|[m|i] es IH]; intros members implementations; simpl.
  - by rewrite !app_nil_r.
  - rewrite IH. by rewrite <-(assoc_L (++)).
  - rewrite IH. by rewrite <-(assoc_L (++)).
Qed.

Lemma subtype_body_entry s p e c rest :
  at_input p (tokens_of_entry e ++ c :: rest) →
  runs (subtype_body s) p (Continue (add_entry s e)) (c :: rest).
Proof.
  destruct s as [members implementations]. intros Hinput.
  unfold subtype_body. pose proof Hinput as Hinput'.
  destruct e as [m|i]; simpl in Hinput'.
  - run_current Hinput'.
    run_call (parse_data_member_at_input _ _ _ Hinput). by apply runs_ret.
  - run_current Hinput'.
    run_call (parse_implementation_at_input _ _ _ Hinput). by apply runs_ret.
Qed.

Lemma subtype_body_end s p c rest :
  type_ c ≠ IDENTIFIER → type_ c ≠ IMPLEMENT →
  at_input p (c :: rest) →
  runs (subtype_body s) p (Break s) (c :: rest).
Proof.
  destruct s as [members implementations]. intros Hid Himpl Hinput.
  unfold subtype_body.
  eapply runs_current; [exact Hinput|]. intros tok Hcanon.
  rewrite <-Hcanon, type_canon in Hid, Himpl.
  rewrite !decide_False by done. by apply runs_ret.
Qed.

Lemma tokens_of_entry_head e :
  ∃ c r, tokens_of_entry e = c :: r ∧ True.
Proof. destruct e; by eexists _, _. Qed.

Lemma parse_subtype_at_input fuel p st rest :
  at_input p (tokens_of_subtype st ++ rest) →
  length (tokens p) < fuel →
  runs (parse_subtype fuel) p
    (Source.subtype_name st,
     members_of_entries (Source.subtype_entries st),
     implementations_of_entries (Source.subtype_entries st))
    rest.
Proof.
  destruct st as [name es]. unfold tokens_of_subtype, parse_subtype. simpl.
  rewrite <-app_assoc. simpl. intros Hinput Hfuel.
  run_consume Hinput. run_consume Hinput0.
  eapply runs_bind.
  - apply (while_at_input subtype_body tokens_of_entry add_entry
             (λ _, True) (λ _, True) (tokens p1) tokens_of_entry_head)
      with (xs := es) (s := ([], [])); try done.
    + intros. by apply subtype_body_entry.
    + intros. by apply subtype_body_end.
    + by apply Forall_true.
    + pose proof (length_remaining p1). rewrite Htokens0, Htokens in *. lia.
  - rewrite foldl_add_entry. intros p2 Htokens2 Hinput2. simpl.
    run_consume Hinput2. by apply runs_ret.
Qed.

(** *** The header of an abstract type *)

Lemma base_type_members_body_member s p m c rest :
  at_input p (tokens_of_member m ++ c :: rest) →
  runs (base_type_members_body s) p (Continue (s ++ [member_of m])) (c :: rest).
Proof.
  intros Hinput. unfold base_type_members_body. pose proof Hinput as Hinput'.
  unfold tokens_of_member in Hinput'. simpl in Hinput'.
  run_current Hinput'.
  run_call (parse_data_member_at_input _ _ _ Hinput). by apply runs_ret.
Qed.

Lemma base_type_members_body_end s p c rest :
  type_ c ≠ IDENTIFIER → at_input p (c :: rest) →
  runs (base_type_members_body s) p (Break s) (c :: rest).
Proof.
  intros Hid Hinput. unfold base_type_members_body.
  eapply runs_current; [exact Hinput|]. intros tok Hcanon.
  rewrite <-Hcanon, type_canon in Hid.
  rewrite !decide_False by done. by apply runs_ret.
Qed.

Lemma foldl_append_fmap {X Y : Type} (f : X → Y) xs : ∀ acc,
  foldl (λ acc x, acc ++ [f x]) acc xs = acc ++ (f <$> xs).
Proof.
  induction xs as [|x xs IH]; intros acc; simpl; [by rewrite app_nil_r|].
  by rewrite IH, <-(assoc_L (++)).
Qed.

Lemma return_type_of_text (text : str) :
  (if decide (0 < length text) then Some text else None)
  = (if decide (text = "") then None else Some text).
Proof.
  destruct text as [|c text]; [done|].
  rewrite decide_True by (simpl; lia). by rewrite decide_False.
Qed.

Lemma functions_body_function s p f c rest :
  at_input p (tokens_of_function f ++ c :: rest) →
  runs (functions_body s) p (Continue (s ++ [function_of f])) (c :: rest).
Proof.
  destruct f as [name ty]. intros Hinput. unfold functions_body.
  unfold tokens_of_function in Hinput. simpl in Hinput.
  run_current Hinput. run_consume Hinput. run_consume Hinput0.
  run_consume Hinput1. unfold function_of. simpl.
  rewrite return_type_of_text. by apply runs_ret.
Qed.

Lemma functions_body_end s p c rest :
  type_ c ≠ FUNCTION → at_input p (c :: rest) →
  runs (functions_body s) p (Break s) (c :: rest).
Proof.
  intros Hfn Hinput. unfold functions_body.
  eapply runs_current; [exact Hinput|]. intros tok Hcanon.
  rewrite <-Hcanon, type_canon in Hfn.
  rewrite !decide_False by done. by apply runs_ret.
Qed.

Lemma tokens_of_member_head m : ∃ c r, tokens_of_member m = c :: r ∧ True.
Proof. by eexists _, _. Qed.

Lemma tokens_of_function_head f : ∃ c r, tokens_of_function f = c :: r ∧ True.
Proof. by eexists _, _. Qed.

(** *** The variants of an abstract type *)

Lemma runs_construct {A : Type} (r : outcome A) a p rest :
  r = Return a → at_input p rest → runs (construct r) p a rest.
Proof. intros -> Hinput. by exists p. Qed.

Lemma function_names (fs : list Source.function) :
  PureVirtualFunction.name <$> (function_of <$> fs) = Source.function_name <$> fs.
Proof. by rewrite <-list_fmap_compose. Qed.

(** A checked variant passes the checks of the constructor. *)
Lemma new_checked_subtype fs st :
  checked_subtype fs st →
  PolymorphicType.new (function_of <$> fs)
    (members_of_entries (Source.subtype_entries st))
    (implementations_of_entries (Source.subtype_entries st))
  = Return (subtype_of (function_of <$> fs) st).
Proof.
  intros (Hdecl & Himpl & Heq).
  apply new_Return; rewrite ?function_names; done.
Qed.

Lemma sub_types_body_subtype fuel fs s p st c rest :
  length (tokens p) < fuel → checked_subtype fs st →
  at_input p (tokens_of_alternative st ++ c :: rest) →
  runs (sub_types_body fuel (function_of <$> fs) s) p
    (Continue (add_subtype (function_of <$> fs) s st)) (c :: rest).
Proof.
  intros Hfuel Hchecked Hinput. unfold sub_types_body, tokens_of_alternative in *.
  simpl in Hinput. run_current Hinput.
  run_call (next_at_input _ _ _ Hinput).
  run_call (parse_subtype_at_input fuel _ _ _ Hinput0 ltac:(by rewrite Htokens)).
  run_call (runs_construct _ _ _ _ (new_checked_subtype _ _ Hchecked) Hinput1).
  by apply runs_ret.
Qed.

Lemma sub_types_body_end fuel functions s p c rest :
  type_ c ≠ PIPE → at_input p (c :: rest) →
  runs (sub_types_body fuel functions s) p (Break s) (c :: rest).
Proof.
  intros Hpipe Hinput. unfold sub_types_body.
  eapply runs_current; [exact Hinput|]. intros tok Hcanon.
  rewrite <-Hcanon, type_canon in Hpipe.
  rewrite !decide_False by done. by apply runs_ret.
Qed.

Lemma tokens_of_alternative_head st :
  ∃ c r, tokens_of_alternative st = c :: r ∧ True.
Proof. by eexists _, _. Qed.

Lemma dict_of_named_subtypes functions first more :
  dict_of_list (named_subtype functions <$> first :: more)
  = foldl (add_subtype functions)
      (dict_set (Source.subtype_name first) (subtype_of functions first) [])
      more.
Proof. rewrite fmap_cons. unfold dict_of_list. simpl. by rewrite foldl_fmap. Qed.

Lemma parse_polymorphic_type_header fuel types p name ms fs rest :
  at_input p (tokens_of_header name ms fs ++ rest) →
  length (tokens p) < fuel →
  ∃ p', tokens p' = tokens p ∧ at_input p' rest
        ∧ parse_polymorphic_type fuel types p
          = parse_sub_types fuel name (member_of <$> ms) (function_of <$> fs)
              types p'.
Proof.
  unfold tokens_of_header, parse_polymorphic_type. simpl.
  rewrite <-!app_assoc. simpl. intros Hinput Hfuel.
  run_consume Hinput. run_consume Hinput0.
  assert (length (remaining p1) < fuel) as Hfuel1.
  { pose proof (length_remaining p1). rewrite Htokens0, Htokens in *. lia. }
  destruct (follow_items tokens_of_function (λ _, True) tokens_of_function_head
              fs (symbol RIGHT_PARENTHESIS) (symbol EQUALS :: rest) I)
    as (c & rest' & Heq & _).
  assert (type_ c ≠ IDENTIFIER) as Hc.
  { destruct fs; simpl in Heq; by injection Heq as [= <- _]. }
  rewrite Heq in Hinput1.
  pose proof (while_at_input base_type_members_body tokens_of_member
                (λ acc m, acc ++ [member_of m]) (λ _, True) (λ _, True)
                (tokens p1) tokens_of_member_head
                ltac:(by intros; apply base_type_members_body_member)
                ms fuel [] p1 c rest'
                ltac:(by intros; apply base_type_members_body_end)
                eq_refl ltac:(by apply Forall_true) I Hinput1 Hfuel1) as Hmembers.
  rewrite foldl_append_fmap in Hmembers. simpl in Hmembers.
  run_call Hmembers. rewrite <-Heq in Hinput2.
  assert (length (remaining p2) < fuel) as Hfuel2.
  { pose proof (length_remaining p2). rewrite Htokens1, Htokens0, Htokens in *. lia. }
  pose proof (while_at_input functions_body tokens_of_function
                (λ acc f, acc ++ [function_of f]) (λ _, True) (λ _, True)
                (tokens p2) tokens_of_function_head
                ltac:(by intros; apply functions_body_function)
                fs fuel [] p2 (symbol RIGHT_PARENTHESIS) (symbol EQUALS :: rest)
                ltac:(by intros; apply functions_body_end)
                eq_refl ltac:(by apply Forall_true) I Hinput2 Hfuel2) as Hfunctions.
  rewrite foldl_append_fmap in Hfunctions. simpl in Hfunctions.
  run_call Hfunctions. run_consume Hinput3. run_consume Hinput4.
  exists p5. split_and!; [|done..].
  by rewrite Htokens4, Htokens3, Htokens2, Htokens1, Htokens0, Htokens.
Qed.

Lemma parse_sub_types_at_input fuel name base_type_members fs types p
    first more c rest :
  at_input p (tokens_of_subtype first
              ++ (more ≫= tokens_of_alternative) ++ c :: rest) →
  length (tokens p) < fuel → type_ c ≠ PIPE →
  Forall (checked_subtype fs) (first :: more) →
  runs (parse_sub_types fuel name base_type_members (function_of <$> fs) types) p
    (dict_set name
       (AbstractType.new
          (dict_of_list (named_subtype (function_of <$> fs) <$> first :: more))
          base_type_members (function_of <$> fs))
       types)
    (c :: rest).
Proof.
  intros Hinput Hfuel Hc [Hfirst Hmore]%Forall_cons. unfold parse_sub_types.
  rewrite dict_of_named_subtypes.
  run_call (parse_subtype_at_input fuel _ _ _ Hinput Hfuel).
  run_call (runs_construct _ _ _ _ (new_checked_subtype _ _ Hfirst) Hinput0).
  assert (length (remaining p1) < fuel) as Hfuel1.
  { pose proof (length_remaining p1). rewrite Htokens0, Htokens in *. lia. }
  pose proof (while_at_input (sub_types_body fuel (function_of <$> fs))
                tokens_of_alternative (add_subtype (function_of <$> fs))
                (checked_subtype fs) (λ _, True) (tokens p1)
                tokens_of_alternative_head) as Hloop.
  eapply runs_bind.
  - apply Hloop with (xs := more); try done.
    + intros s q st c' rest' Hq ? _ ?. apply sub_types_body_subtype; try done.
      by rewrite Hq, Htokens0, Htokens.
    + intros. by apply sub_types_body_end.
  - intros p2 Htokens2 Hinput2. by apply runs_ret.
Qed.

(** The first variant is constructed, and the operation names checked,
    once its tokens are consumed. *)
Lemma parse_sub_types_duplicate_declaration fuel name base_type_members fs
    types p first rest :
  at_input p (tokens_of_subtype first ++ rest) →
  length (tokens p) < fuel →
  ¬ NoDup (Source.function_name <$> fs) →
  parse_sub_types fuel name base_type_members (function_of <$> fs) types p
  = Raise (ParserError DuplicateOperationDeclaration).
Proof.
  intros Hinput Hfuel Hdup. unfold parse_sub_types.
  run_call (parse_subtype_at_input fuel _ _ _ Hinput Hfuel).
  rewrite new_duplicate_declaration by (by rewrite function_names). done.
Qed.

Lemma parse_polymorphic_type_at_input fuel types p a c rest :
  at_input p (tokens_of_abstract_type a ++ c :: rest) →
  length (tokens p) < fuel → type_ c ≠ PIPE →
  Forall (checked_subtype (Source.abstract_functions a)) (Source.subtypes a) →
  runs (parse_polymorphic_type fuel types) p
    (dict_set (Source.abstract_name a) (abstract_type_of a) types) (c :: rest).
Proof.
  unfold tokens_of_abstract_type. rewrite <-!app_assoc.
  intros Hinput Hfuel Hc Hchecked.
  destruct (parse_polymorphic_type_header fuel types p _ _ _ _ Hinput Hfuel)
    as (p' & Htokens & Hinput' & Heq).
  destruct (parse_sub_types_at_input fuel (Source.abstract_name a)
              (member_of <$> Source.abstract_members a)
              (Source.abstract_functions a) types p' _ _ c rest Hinput'
              ltac:(by rewrite Htokens) Hc Hchecked)
    as (p'' & Hruns & Htokens' & Hinput'').
  exists p''. rewrite Heq. split_and!; [done| |done]. by rewrite Htokens'.
Qed.

(** *** The constructs of a file *)

Lemma foldl_add_construct cs : ∀ s,
  foldl add_construct s cs
  = mkFileState (type_definitions s ++ type_definitions_of cs)
      (foldl (λ d kv, dict_set kv.1 kv.2 d) (polymorphic_types s)
         (abstract_types_of cs))
      (postlude s).
Proof.
  induction cs as [|[name contents|a] cs IH]; intros [tds pts post]; simpl.
  - by rewrite app_nil_r.
  - rewrite IH. simpl. by rewrite <-(assoc_L (++)).
  - rewrite IH. done.
Qed.

Lemma is_end_of_input_at_input p c rest :
  at_input p (c :: rest) →
  is_end_of_input p = Return (bool_decide (type_ c = END_OF_INPUT), p).
Proof.
  intros (tok & Htok & <- & _)%at_input_cons. rewrite type_canon.
  case_bool_decide as Hty.
  - apply is_end_of_input_true. right. by exists tok.
  - by eapply is_end_of_input_false.
Qed.

Lemma is_end_of_input_at_nil p :
  at_input p [] → is_end_of_input p = Return (true, p).
Proof. intros Hlen%at_input_nil. apply is_end_of_input_true. by left. Qed.

Lemma bind_assoc {A B C : Type} (m : M A) (f : A → M B) (g : B → M C) p :
  ((m ≫= f) ≫= g) p = (m ≫= λ a, f a ≫= g) p.
Proof. unfold mbind, M_bind. by destruct (m p) as [[]| |]. Qed.

Lemma runs_test {A B : Type} (m : M A) (f : A → M B) p a b rest :
  m p = Return (a, p) → runs (f a) p b rest → runs (m ≫= f) p b rest.
Proof.
  intros Hm (p' & Hf & ? & ?). exists p'. by rewrite (bind_Return _ _ _ _ _ Hm).
Qed.

Lemma file_body_construct fuel s p x c rest :
  length (tokens p) < fuel → checked_construct x → type_ c ≠ PIPE →
  at_input p (tokens_of_construct x ++ c :: rest) →
  runs (file_body fuel s) p (Continue (add_construct s x)) (c :: rest).
Proof.
  intros Hfuel Hchecked Hc Hinput. unfold file_body.
  destruct x as [name contents|a]; simpl in Hchecked.
  - simpl in Hinput.
    eapply runs_test; [exact (is_end_of_input_at_input _ _ _ Hinput)|].
    simpl. run_current Hinput. run_call (next_at_input _ _ _ Hinput).
    run_consume Hinput0. run_consume Hinput1. by apply runs_ret.
  - assert (∃ rest', tokens_of_construct (Source.AbstractTypeDefinition a)
                     ++ c :: rest
                     = identifier (Source.abstract_name a) :: rest')
      as [rest' Heq] by by eexists.
    pose proof Hinput as Hinput'. rewrite Heq in Hinput'.
    eapply runs_test; [exact (is_end_of_input_at_input _ _ _ Hinput')|].
    simpl. run_current Hinput'.
    run_call (parse_polymorphic_type_at_input fuel (polymorphic_types s)
                _ _ _ _ Hinput Hfuel Hc Hchecked).
    by apply runs_ret.
Qed.

Lemma file_body_end fuel s p c rest :
  type_ c = END_OF_INPUT → at_input p (c :: rest) →
  runs (file_body fuel s) p (Break s) (c :: rest).
Proof.
  intros Hc Hinput. unfold file_body.
  eapply runs_test; [exact (is_end_of_input_at_input _ _ _ Hinput)|].
  rewrite bool_decide_true by done. by apply runs_ret.
Qed.

Lemma file_body_postlude fuel s p lexeme rest :
  at_input p (string_literal lexeme :: rest) →
  runs (file_body fuel s) p
    (Break (mkFileState (type_definitions s) (polymorphic_types s)
              (unquote lexeme)))
    rest.
Proof.
  intros Hinput. unfold file_body.
  eapply runs_test; [exact (is_end_of_input_at_input _ _ _ Hinput)|].
  simpl. run_current Hinput. run_current Hinput.
  run_call (next_at_input _ _ _ Hinput). by apply runs_ret.
Qed.

Lemma tokens_of_construct_head x :
  ∃ c r, tokens_of_construct x = c :: r ∧ type_ c ≠ PIPE.
Proof. destruct x; by eexists _, _. Qed.

(** [parse] reads the prelude and the constructs of a file, and goes on
    with the file-level loop on what follows them. *)
Lemma parse_file_constructs fuel p prelude cs c rest :
  at_input p (tokens_of_literal prelude
              ++ (cs ≫= tokens_of_construct) ++ c :: rest) →
  length (tokens p) < fuel →
  Forall checked_construct cs → type_ c ≠ PIPE →
  (prelude = None → cs = [] → type_ c ≠ STRING_LITERAL) →
  ∃ p' fuel', tokens p' = tokens p ∧ at_input p' (c :: rest)
    ∧ parse_file fuel p
      = (while (S fuel') (file_body fuel) (state_after cs)
         ≫= parse_file_end (text_of_literal prelude)) p'.
Proof.
  intros Hinput Hfuel Hchecked Hc Hprelude. unfold parse_file.
  fold (parse_file_end).
  assert (∃ p0, tokens p0 = tokens p
                ∧ at_input p0 ((cs ≫= tokens_of_construct) ++ c :: rest)
                ∧ ∀ B (k : str → M B),
                    (tok ← current;
                     prelude ← (if decide (type_ tok = STRING_LITERAL)
                                then tok' ← current; next;;
                                     mret (unquote (lexeme tok'))
                                else mret ("" : str));
                     k prelude) p
                    = k (text_of_literal prelude) p0)
    as (p0 & Htokens0 & Hinput0 & Hstart).
  { destruct prelude as [lexeme|]; simpl in Hinput.
    - destruct (next_at_input _ _ _ Hinput) as (p0 & Hnext & ? & ?).
      exists p0. split_and!; [done..|]. intros B k.
      run_current Hinput. rewrite bind_assoc. run_current Hinput.
      by rewrite bind_assoc, (bind_Return _ _ _ _ _ Hnext).
    - exists p. split_and!; [done..|]. intros B k.
      destruct (follow_items tokens_of_construct _ tokens_of_construct_head
                  cs c rest Hc) as (c' & rest' & Heq & _).
      assert (type_ c' ≠ STRING_LITERAL) as Hc'.
      { destruct cs as [|[] cs]; simpl in Heq; injection Heq as [= <- _];
          [by apply Hprelude|done..]. }
      rewrite Heq in Hinput.
      destruct (current_at_input _ _ _ Hinput) as (tok & Hcurrent & Hcanon).
      rewrite (bind_Return _ _ _ _ _ Hcurrent).
      rewrite <-Hcanon, type_canon in Hc'. by rewrite decide_False. }
  rewrite (Hstart _ (λ prelude,
             s ← while fuel (file_body fuel) (mkFileState [] [] "");
             parse_file_end prelude s)).
  destruct (while_items (file_body fuel) tokens_of_construct add_construct
              checked_construct (λ c, type_ c ≠ PIPE) (tokens p0)
              tokens_of_construct_head
              ltac:(intros s q x c' rest' Hq ? ? ?;
                    apply file_body_construct; [by rewrite Hq, Htokens0|done..])
              cs (mkFileState [] [] "") p0 c rest eq_refl Hchecked Hc Hinput0)
    as (p' & Htokens' & Hinput' & Hwhile).
  assert (length cs < fuel) as Hlen.
  { pose proof (length_bind_ge tokens_of_construct cs
                  (spell_nonempty _ _ tokens_of_construct_head)).
    pose proof (length_remaining p0).
    apply at_input_length in Hinput0. rewrite length_app in Hinput0.
    rewrite Htokens0 in *. lia. }
  exists p', (fuel - length cs - 1). split_and!; [by rewrite Htokens'|done|].
  rewrite foldl_add_construct in Hwhile. simpl in Hwhile.
  unfold mbind at 1, M_bind at 1.
  replace fuel with (length cs + S (fuel - length cs - 1)) at 1 by lia.
  by rewrite Hwhile.
Qed.

(** *** The whole file *)

Lemma ret_bind {A B : Type} (a : A) (f : A → M B) p : (mret a ≫= f) p = f a p.
Proof. done. Qed.

Lemma parse_constructs toks prelude cs c rest :
  canon <$> toks = tokens_of_literal prelude
                   ++ (cs ≫= tokens_of_construct) ++ c :: rest →
  Forall checked_construct cs → type_ c ≠ PIPE →
  (prelude = None → cs = [] → type_ c ≠ STRING_LITERAL) →
  ∃ p' fuel', tokens p' = toks ∧ at_input p' (c :: rest)
    ∧ parse toks
      = result_of ((while (S fuel') (file_body (S (length toks))) (state_after cs)
                    ≫= parse_file_end (text_of_literal prelude)) p').
Proof.
  intros Hspell Hchecked Hc Hprelude.
  destruct (parse_file_constructs (S (length toks)) (Parser_init toks)
              prelude cs c rest Hspell ltac:(simpl; lia) Hchecked Hc Hprelude)
    as (p' & fuel' & Htokens & Hinput & Heq).
  exists p', fuel'. split_and!; [done..|].
  unfold parse, parse_with. by rewrite Heq.
Qed.

(** The file-level loop in front of the end-of-input token. *)
Lemma file_loop_end fuel fuel' prelude s p c rest :
  type_ c = END_OF_INPUT → at_input p (c :: rest) →
  result_of ((while (S fuel') (file_body fuel) s ≫= parse_file_end prelude) p)
  = Return (GeneratorDescription.new prelude (type_definitions s)
              (polymorphic_types s) (postlude s)).
Proof.
  intros Hc Hinput.
  destruct (file_body_end fuel s p c rest Hc Hinput) as (p' & Hbody & _ & Hinput').
  rewrite while_S, bind_assoc, (bind_Return _ _ _ _ _ Hbody), ret_bind.
  unfold parse_file_end.
  rewrite (bind_Return _ _ _ _ _ (is_end_of_input_at_input _ _ _ Hinput')).
  by rewrite bool_decide_true.
Qed.

(** The file-level loop in front of a string literal: the postlude. *)
Lemma file_loop_postlude fuel fuel' prelude s p lexeme rest :
  at_input p (string_literal lexeme :: rest) →
  result_of ((while (S fuel') (file_body fuel) s ≫= parse_file_end prelude) p)
  = match rest with
    | c :: _ =>
        if decide (type_ c = END_OF_INPUT)
        then Return (GeneratorDescription.new prelude (type_definitions s)
                       (polymorphic_types s) (unquote lexeme))
        else Raise (ParserError TrailingContentAfterPostlude)
    | [] => Return (GeneratorDescription.new prelude (type_definitions s)
                      (polymorphic_types s) (unquote lexeme))
    end.
Proof.
  intros Hinput.
  destruct (file_body_postlude fuel s p lexeme rest Hinput)
    as (p' & Hbody & _ & Hinput').
  rewrite while_S, bind_assoc, (bind_Return _ _ _ _ _ Hbody), ret_bind.
  unfold parse_file_end. destruct rest as [|c rest].
  - by rewrite (bind_Return _ _ _ _ _ (is_end_of_input_at_nil _ Hinput')).
  - rewrite (bind_Return _ _ _ _ _ (is_end_of_input_at_input _ _ _ Hinput')).
    by case_bool_decide; case_decide.
Qed.

(** A token sequence that spells a checked source file parses to the
    description the file denotes. *)
Lemma parse_spelled toks f :
  spells toks f → checked_file f → parse toks = Return (description_of f).
Proof.
  destruct f as [prelude cs postlude]. unfold spells, tokens_of_file, checked_file.
  simpl. intros Hspell [Hchecked Hpostlude]. destruct postlude as [lexeme|].
  - destruct (parse_constructs toks prelude cs (string_literal lexeme)
                [symbol END_OF_INPUT] Hspell Hchecked ltac:(done))
      as (p' & fuel' & _ & Hinput & ->).
    { intros Hprelude Hcs. by specialize (Hpostlude Hprelude Hcs). }
    by rewrite (file_loop_postlude _ _ _ _ _ _ _ Hinput).
  - destruct (parse_constructs toks prelude cs (symbol END_OF_INPUT) []
                Hspell Hchecked ltac:(done) ltac:(done))
      as (p' & fuel' & _ & Hinput & ->).
    by rewrite (file_loop_end _ _ _ _ _ (symbol END_OF_INPUT) _ eq_refl Hinput).
Qed.

(** The file-level loop in front of an abstract type that declares an
    operation twice, with a first variant. *)
Lemma file_body_duplicate_declaration fuel s p name ms fs first rest :
  at_input p (tokens_of_header name ms fs ++ tokens_of_subtype first ++ rest) →
  length (tokens p) < fuel →
  ¬ NoDup (Source.function_name <$> fs) →
  file_body fuel s p = Raise (ParserError DuplicateOperationDeclaration).
Proof.
  intros Hinput Hfuel Hdup.
  destruct (parse_polymorphic_type_header fuel (polymorphic_types s) p
              _ _ _ _ Hinput Hfuel) as (p' & Htokens & Hinput' & Heq).
  unfold file_body.
  assert (∃ rest', tokens_of_header name ms fs ++ tokens_of_subtype first ++ rest
                   = identifier name :: rest') as [rest' Hhead] by by eexists.
  rewrite Hhead in Hinput.
  rewrite (bind_Return _ _ _ _ _ (is_end_of_input_at_input _ _ _ Hinput)).
  simpl. run_current Hinput.
  apply bind_Raise. rewrite Heq.
  apply (parse_sub_types_duplicate_declaration _ _ _ _ _ _ first rest);
    [done| |done].
  by rewrite Htokens.
Qed.

Lemma file_loop_duplicate_declaration fuel fuel' prelude s p name ms fs first rest :
  at_input p (tokens_of_header name ms fs ++ tokens_of_subtype first ++ rest) →
  length (tokens p) < fuel →
  ¬ NoDup (Source.function_name <$> fs) →
  result_of ((while (S fuel') (file_body fuel) s ≫= parse_file_end prelude) p)
  = Raise (ParserError DuplicateOperationDeclaration).
Proof.
  intros Hinput Hfuel Hdup.
  rewrite while_S, bind_assoc.
  by rewrite (bind_Raise _ _ _ _
                (file_body_duplicate_declaration _ s _ _ _ _ _ _ Hinput Hfuel Hdup)).
Qed.

(** ** The tokens a production has read *)

Lemma reads_refl p : reads p p [].
Proof. split; [done|]. by exists []. Qed.

Lemma reads_app p q r input1 input2 :
  reads p q input1 → reads q r input2 → reads p r (input1 ++ input2).
Proof.
  intros [Hq (raw1 & Hraw1 & <-)] [Hr (raw2 & Hraw2 & <-)].
  split; [by rewrite Hr|]. exists (raw1 ++ raw2).
  by rewrite Hraw1, Hraw2, fmap_app, (assoc_L (++)).
Qed.

Lemma reads_step p tok c q input :
  tokens p !! index p = Some tok → canon tok = c →
  reads (advance 1 p) q input → reads p q (c :: input).
Proof.
  intros Htok <- Hq. apply (reads_app p (advance 1 p) q [canon tok]); [|done].
  split; [done|]. exists [tok]. split; [|done].
  unfold remaining, advance. simpl. rewrite Nat.add_1_r.
  by apply drop_S.
Qed.

Lemma canon_symbol tok ty :
  type_ tok = ty → ty ≠ IDENTIFIER → ty ≠ STRING_LITERAL → canon tok = symbol ty.
Proof. destruct tok as [[] lexeme]; simpl; intros <-; done. Qed.

Lemma canon_of_identifier tok :
  type_ tok = IDENTIFIER → canon tok = identifier (lexeme tok).
Proof. destruct tok as [[] lexeme]; simpl; done. Qed.

Lemma canon_of_literal tok :
  type_ tok = STRING_LITERAL → canon tok = string_literal (lexeme tok).
Proof. destruct tok as [[] lexeme]; simpl; done. Qed.

(** The tokens a production has read, one token at a time. *)
Ltac read_tokens :=
  repeat (eapply reads_step;
          [eassumption
          |first [by apply canon_of_identifier
                 |by apply canon_of_literal
                 |by apply canon_symbol]
          |]);
  try apply reads_refl.

Lemma parse_implementation_reads p i p' :
  parse_implementation p = Return (i, p') →
  ∃ si, reads p p' (tokens_of_implementation si) ∧ i = implementation_of si.
Proof.
  unfold parse_implementation. intros H. invert_M.
  match goal with
  | Hname : _ !! _ = Some ?name, Hid : type_ ?name = IDENTIFIER,
    Hbody : _ !! _ = Some ?body, Hliteral : type_ ?body = STRING_LITERAL |- _ =>
      exists (Source.Implementation (lexeme name) (lexeme body))
  end.
  split; [|done]. unfold tokens_of_implementation. simpl. read_tokens.
Qed.

Lemma parse_data_member_reads p m p' :
  parse_data_member p = Return (m, p') →
  ∃ sm, reads p p' (tokens_of_member sm) ∧ m = member_of sm.
Proof.
  unfold parse_data_member. intros H. invert_M.
  - apply bool_decide_eq_true in E.
    match goal with
    | Hname : _ !! _ = Some ?name, Hid : type_ ?name = IDENTIFIER,
      Hty : _ !! _ = Some ?ty, Hliteral : type_ ?ty = STRING_LITERAL |- _ =>
        exists (Source.Member (lexeme name) true (lexeme ty))
    end.
    split; [|done]. unfold tokens_of_member. simpl. read_tokens.
  - apply bool_decide_eq_false in E.
    match goal with
    | Hname : _ !! _ = Some ?name, Hid : type_ ?name = IDENTIFIER,
      Hty : _ !! _ = Some ?ty, Hliteral : type_ ?ty = STRING_LITERAL |- _ =>
        exists (Source.Member (lexeme name) false (lexeme ty))
    end.
    split; [|done]. unfold tokens_of_member. simpl. read_tokens.
Qed.

(** A loop that has returned has read the items of its passes, and left
    where its last pass stopped. *)
Lemma while_reads {S X : Type} (body : S → M (flow S))
    (spell : X → list Token) (add : S → X → S) (ok : X → Prop)
    (stop : S → Parser → S → Parser → Prop) :
  (∀ s p s' p', body s p = Return (Continue s', p') →
     ∃ x, reads p p' (spell x) ∧ ok x ∧ s' = add s x) →
  (∀ s p s' p', body s p = Return (Break s', p') → stop s p s' p') →
  ∀ fuel s p s' p',
    while fuel body s p = Return (s', p') →
    ∃ xs q, reads p q (xs ≫= spell) ∧ Forall ok xs
            ∧ stop (foldl add s xs) q s' p'.
Proof.
  intros Hcontinue Hbreak.
  induction fuel as [|fuel IH]; intros s p s' p' H; [done|].
  rewrite while_S in H. apply bind_inv in H as ([s1|s1] & p1 & Hbody & H).
  - destruct (Hcontinue _ _ _ _ Hbody) as (x & Hx & Hok & ->).
    destruct (IH _ _ _ _ H) as (xs & q & Hxs & Hoks & Hstop).
    exists (x :: xs), q. split_and!; [|by constructor|done].
    rewrite bind_cons. by eapply reads_app.
  - apply ret_inv in H as [-> ->]. exists [], p.
    split_and!; [apply reads_refl|constructor|]. by apply Hbreak.
Qed.

Lemma subtype_body_reads s p s' p' :
  subtype_body s p = Return (Continue s', p') →
  ∃ e, reads p p' (tokens_of_entry e) ∧ True ∧ s' = add_entry s e.
Proof.
  destruct s as [members implementations]. unfold subtype_body. intros H.
  invert_M; simplify_eq.
  - match goal with
    | Hm : parse_data_member _ = Return _ |- _ =>
        apply parse_data_member_reads in Hm as (sm & Hreads & ->)
    end.
    by exists (Source.MemberEntry sm).
  - match goal with
    | Hi : parse_implementation _ = Return _ |- _ =>
        apply parse_implementation_reads in Hi as (si & Hreads & ->)
    end.
    by exists (Source.ImplementationEntry si).
Qed.

Lemma subtype_body_stops s p s' p' :
  subtype_body s p = Return (Break s', p') → p' = p ∧ s' = s.
Proof.
  destruct s as [members implementations]. unfold subtype_body. intros H.
  invert_M; by simplify_eq.
Qed.

Lemma parse_subtype_reads fuel p name members implementations p' :
  parse_subtype fuel p = Return (name, members, implementations, p') →
  ∃ st, reads p p' (tokens_of_subtype st)
        ∧ name = Source.subtype_name st
        ∧ members = members_of_entries (Source.subtype_entries st)
        ∧ implementations = implementations_of_entries (Source.subtype_entries st).
Proof.
  unfold parse_subtype. intros H. invert_M. simplify_eq.
  match goal with
  | Hloop : while _ subtype_body _ _ = Return _ |- _ =>
      apply (while_reads subtype_body tokens_of_entry add_entry (λ _, True)
               (λ s p s' p', p' = p ∧ s' = s)
               subtype_body_reads subtype_body_stops) in Hloop
        as (es & q & Hes & _ & -> & Hstate)
  end.
  rewrite foldl_add_entry in Hstate. simpl in Hstate. simplify_eq.
  match goal with
  | Hname : tokens p !! index p = Some ?tok |- _ =>
      exists (Source.Subtype (lexeme tok) es)
  end.
  split; [|done]. unfold tokens_of_subtype. simpl.
  eapply reads_step; [eassumption|by apply canon_of_identifier|].
  eapply reads_step; [eassumption|by apply canon_symbol|].
  eapply reads_app; [exact Hes|]. read_tokens.
Qed.

(** ** A first variant that is not well formed *)

(** What the productions of a variant raise. *)
Lemma bind_raises {A B : Type} (E : exception → Prop) (m : M A) (f : A → M B) :
  raises E m → (∀ a, raises E (f a)) → raises E (m ≫= f).
Proof.
  intros Hm Hf p e. unfold mbind, M_bind.
  destruct (m p) as [[a p']|e'|] eqn:Hmp; [apply Hf| |done].
  intros [= ->]. by eapply Hm.
Qed.

Lemma while_raises {S : Type} (E : exception → Prop) (body : S → M (flow S)) :
  (∀ s, raises E (body s)) → ∀ fuel s, raises E (while fuel body s).
Proof.
  intros Hbody. induction fuel as [|fuel IH]; intros s; [by intros ? ?|].
  rewrite while_S. apply bind_raises; [apply Hbody|].
  intros [s'|s']; [apply IH|by intros ? ?].
Qed.

Lemma current_raises : raises token_error current.
Proof.
  intros p e. unfold current. destruct (tokens p !! index p); [done|].
  intros [= <-]. by left.
Qed.

Lemma consume_raises ty : raises token_error (consume ty).
Proof.
  intros p e. unfold consume.
  destruct (is_end_of_input_total p) as [b Hb].
  rewrite (bind_Return _ _ _ _ _ Hb). destruct b.
  { intros [= <-]. right. by left. }
  unfold mbind, M_bind, current.
  destruct (tokens p !! index p) as [tok|] eqn:Htok; [|intros [= <-]; by left].
  case_decide; [|by rewrite Htok].
  intros [= <-]. right. right. by eexists _, _, _.
Qed.

Ltac raises_step :=
  match goal with
  | |- raises _ (_ ≫= _) => apply bind_raises; [|intros ?]
  | |- raises _ current => apply current_raises
  | |- raises _ (consume _) => apply consume_raises
  | |- raises _ (mret _) => by intros ? ?
  | |- raises _ next => by intros ? ?
  | |- raises _ (if ?b then _ else _) => destruct b
  | |- raises _ (let '(_, _) := ?x in _) => destruct x
  end.

Lemma parse_data_member_raises : raises token_error parse_data_member.
Proof. unfold parse_data_member. repeat raises_step. Qed.

Lemma parse_implementation_raises : raises token_error parse_implementation.
Proof. unfold parse_implementation. repeat raises_step. Qed.

Lemma subtype_body_raises s : raises token_error (subtype_body s).
Proof.
  unfold subtype_body. repeat raises_step;
    auto using parse_data_member_raises, parse_implementation_raises.
Qed.

Lemma parse_subtype_raises fuel : raises token_error (parse_subtype fuel).
Proof.
  unfold parse_subtype. repeat raises_step.
  apply while_raises, subtype_body_raises.
Qed.

(** Two cursors with the same input ahead are the same cursor, unless
    both stand past the last token. *)
Lemma at_input_cursor p p' input :
  tokens p = tokens p' → at_input p input → at_input p' input →
  input ≠ [] → p = p'.
Proof.
  intros Htokens Hp Hp' Hne.
  apply at_input_length in Hp, Hp'. unfold remaining in Hp, Hp'.
  rewrite length_drop in Hp, Hp'.
  assert (0 < length input) by (destruct input; [done|simpl; lia]).
  destruct p as [toks i], p' as [toks' i']; simpl in *. subst toks'.
  f_equal. lia.
Qed.

Lemma parse_subtype_at_nil fuel p :
  at_input p [] →
  parse_subtype fuel p = Raise (ParserError UnexpectedEndOfInput).
Proof.
  intros Hlen%at_input_nil. unfold parse_subtype.
  apply bind_Raise, consume_at_end. by left.
Qed.

Lemma parse_subtype_same_input fuel p p' input :
  tokens p = tokens p' → at_input p input → at_input p' input →
  parse_subtype fuel p' = parse_subtype fuel p.
Proof.
  intros Htokens Hp Hp'. destruct input as [|c input].
  - by rewrite !parse_subtype_at_nil.
  - by rewrite (at_input_cursor p p' (c :: input)).
Qed.

(** The first variant is parsed before anything is checked: what
    [parse_subtype] raises on it is what the file-level loop raises. *)
Lemma file_body_first_variant_raises fuel s p name ms fs rest e :
  at_input p (tokens_of_header name ms fs ++ rest) →
  length (tokens p) < fuel →
  (∀ p', tokens p' = tokens p → at_input p' rest →
         parse_subtype fuel p' = Raise e) →
  file_body fuel s p = Raise e.
Proof.
  intros Hinput Hfuel Hraise.
  destruct (parse_polymorphic_type_header fuel (polymorphic_types s) p
              _ _ _ _ Hinput Hfuel) as (p' & Htokens & Hinput' & Heq).
  unfold file_body.
  assert (∃ rest', tokens_of_header name ms fs ++ rest
                   = identifier name :: rest') as [rest' Hhead] by by eexists.
  rewrite Hhead in Hinput.
  rewrite (bind_Return _ _ _ _ _ (is_end_of_input_at_input _ _ _ Hinput)).
  simpl. run_current Hinput.
  apply bind_Raise. rewrite Heq. unfold parse_sub_types.
  apply bind_Raise. by apply Hraise.
Qed.

(** The tokens [parse_subtype] has read are a variant. *)
Lemma parse_subtype_returns_variant fuel p r p' rest :
  at_input p rest → parse_subtype fuel p = Return (r, p') →
  ∃ first rest', rest = tokens_of_subtype first ++ rest'.
Proof.
  destruct r as [[name members] implementations]. intros Hinput H.
  apply parse_subtype_reads in H as (st & [_ (raw & Hraw & Hspell)] & _).
  exists st, (canon <$> remaining p').
  by rewrite <-Hinput, Hraw, fmap_app, Hspell.
Qed.

(** ** Dictionaries: insertion order and overwriting *)

Lemma dict_keys_set {V : Type} k (v : V) d :
  dict_keys (dict_set k v d)
  = if decide (k ∈ dict_keys d) then dict_keys d else dict_keys d ++ [k].
Proof.
  unfold dict_keys. induction d as [|[k' v'] d IH]; csimpl; [done|].
  destruct (decide (k' = k)) as [->|Hk]; csimpl.
  - rewrite decide_True; [done|]. by left.
  - rewrite IH. destruct (decide (k ∈ d.*1)) as [Hin|Hin].
    + rewrite decide_True; [done|]. by right.
    + rewrite decide_False; [done|]. by intros [->|?]%elem_of_cons.
Qed.

Lemma dict_get_set_eq {V : Type} k (v : V) d : dict_get k (dict_set k v d) = Some v.
Proof.
  induction d as [|[k' v'] d IH]; csimpl.
  - by rewrite decide_True.
  - case_decide as Hk; csimpl; [by rewrite decide_True|by rewrite decide_False].
Qed.

Lemma dict_get_set_ne {V : Type} k k' (v : V) d :
  k ≠ k' → dict_get k' (dict_set k v d) = dict_get k' d.
Proof.
  intros Hne. induction d as [|[k'' v''] d IH]; csimpl.
  - by rewrite decide_False.
  - case_decide as Hk; csimpl.
    + subst. by rewrite !decide_False.
    + by rewrite IH.
Qed.

Lemma dict_get_None {V : Type} k (d : dict V) :
  k ∉ dict_keys d → dict_get k d = None.
Proof.
  unfold dict_keys. induction d as [|[k' v'] d IH]; csimpl; [done|].
  intros [Hne Hin]%not_elem_of_cons. rewrite decide_False by done. by apply IH.
Qed.

Lemma NoDup_dict_keys_set {V : Type} k (v : V) d :
  NoDup (dict_keys d) → NoDup (dict_keys (dict_set k v d)).
Proof.
  intros Hd. rewrite dict_keys_set. case_decide as Hin; [done|].
  apply NoDup_app. split_and!; [done| |apply NoDup_singleton].
  intros x Hx ->%list_elem_of_singleton. done.
Qed.

Lemma NoDup_dict_keys_update {V : Type} (l : list (str * V)) : ∀ d,
  NoDup (dict_keys d) → NoDup (dict_keys (dict_update d l)).
Proof.
  induction l as [|[k v] l IH]; intros d Hd; [done|].
  apply IH. by apply NoDup_dict_keys_set.
Qed.

(** A dictionary has one entry for each of its names. *)
Lemma NoDup_dict_keys_of_list {V : Type} (l : list (str * V)) :
  NoDup (dict_keys (dict_of_list l)).
Proof. apply (NoDup_dict_keys_update l []). constructor. Qed.

Lemma dict_get_update_other {V : Type} k (l : list (str * V)) : ∀ d,
  k ∉ l.*1 → dict_get k (dict_update d l) = dict_get k d.
Proof.
  induction l as [|[k' v'] l IH]; intros d Hk; [done|].
  apply not_elem_of_cons in Hk as [Hne Hk]. csimpl in *.
  unfold dict_update in *. csimpl. rewrite IH by done.
  by apply dict_get_set_ne.
Qed.

(** The entry of a name holds what its last assignment stored. *)
Lemma dict_get_of_list_last {V : Type} (l1 : list (str * V)) k v l2 :
  k ∉ l2.*1 → dict_get k (dict_of_list (l1 ++ (k, v) :: l2)) = Some v.
Proof.
  intros Hk. unfold dict_of_list. rewrite foldl_app. csimpl.
  etrans; [apply (dict_get_update_other k l2 _ Hk)|]. apply dict_get_set_eq.
Qed.

Lemma filter_key_absent {V : Type} k (d : list (str * V)) :
  k ∉ dict_keys d → filter (λ entry, entry.1 = k) d = [].
Proof.
  unfold dict_keys. induction d as [|[k' v'] d IH]; [done|]. rewrite fmap_cons.
  intros [Hne Hin]%not_elem_of_cons.
  rewrite filter_cons_False by (simpl in *; congruence). by apply IH.
Qed.

(** The one entry of a name. *)
Lemma filter_key_dict_get {V : Type} k (v : V) (d : list (str * V)) :
  NoDup (dict_keys d) → dict_get k d = Some v →
  filter (λ entry, entry.1 = k) d = [(k, v)].
Proof.
  unfold dict_keys. induction d as [|[k' v'] d IH]; [done|].
  rewrite fmap_cons. intros [Hk' Hd]%NoDup_cons. cbn [dict_get].
  destruct (decide (k' = k)) as [->|Hk].
  - intros [= ->]. rewrite filter_cons_True by done.
    by rewrite filter_key_absent.
  - intros Hget. rewrite filter_cons_False by done. by apply IH.
Qed.

Lemma dict_update_distinct {V : Type} (l : list (str * V)) : ∀ d,
  NoDup (dict_keys d ++ l.*1) → dict_update d l = d ++ l.
Proof.
  induction l as [|[k v] l IH]; intros d Hd; [by rewrite app_nil_r|].
  csimpl in Hd. unfold dict_update in *. csimpl.
  assert (dict_set k v d = d ++ [(k, v)]) as ->.
  { apply NoDup_app in Hd as (_ & Hd & _).
    assert (k ∉ dict_keys d) as Hk by (intros ?; eapply Hd; [done|by left]).
    clear -Hk. unfold dict_keys in Hk.
    induction d as [|[k' v'] d IH]; csimpl; [done|].
    apply not_elem_of_cons in Hk as [Hne Hk].
    rewrite decide_False by done. by rewrite IH. }
  rewrite IH.
  - by rewrite <-(assoc_L (++)).
  - unfold dict_keys in *. by rewrite fmap_app, <-(assoc_L (++)).
Qed.

(** Names that are pairwise distinct are stored in the order of their
    assignments. *)
Lemma dict_of_list_distinct {V : Type} (l : list (str * V)) :
  NoDup l.*1 → dict_of_list l = l.
Proof. intros Hl. by apply (dict_update_distinct l []). Qed.

Lemma dict_keys_update {V : Type} (l : list (str * V)) : ∀ d,
  dict_keys (dict_update d l)
  = dict_keys d ++ filter (λ n, n ∉ dict_keys d) (first_occurrences l.*1).
Proof.
  induction l as [|[k v] l IH]; intros d; [by rewrite app_nil_r|].
  unfold dict_update in *. csimpl. rewrite IH, dict_keys_set.
  case_decide as Hin.
  - rewrite filter_cons_False by (by intros []).
    rewrite list_filter_filter. f_equal. apply list_filter_iff.
    intros n. split; [|by intros []]. intros Hn. split; [done|by intros ->].
  - rewrite filter_cons_True by done.
    rewrite <-(assoc_L (++)). csimpl. do 2 f_equal.
    rewrite list_filter_filter. apply list_filter_iff.
    intros n. rewrite not_elem_of_app, list_elem_of_singleton. naive_solver.
Qed.

Lemma filter_all (P : str → Prop) `{∀ n, Decision (P n)} (l : list str) :
  (∀ n, P n) → filter P l = l.
Proof.
  intros HP. induction l as [|n l IH]; [done|].
  by rewrite filter_cons_True, IH.
Qed.

(** A dictionary lists its names in the order of their first
    assignment. *)
Lemma dict_keys_of_list {V : Type} (l : list (str * V)) :
  dict_keys (dict_of_list l) = first_occurrences l.*1.
Proof.
  change (dict_of_list l) with (dict_update [] l).
  rewrite dict_keys_update. csimpl.
  apply filter_all. intros n. apply not_elem_of_nil.
Qed.

Lemma elem_of_dict_set {V : Type} k (v : V) (d : list (str * V)) entry :
  entry ∈ dict_set k v d → entry = (k, v) ∨ entry ∈ d.
Proof.
  induction d as [|[k' v'] d IH]; cbn [dict_set].
  - intros ->%list_elem_of_singleton. by left.
  - destruct (decide (k' = k)) as [->|Hk].
    + intros [->|Hin]%elem_of_cons; [by left|]. right. by right.
    + intros [->|Hin]%elem_of_cons; [right; by left|].
      destruct (IH Hin) as [->|?]; [by left|]. right. by right.
Qed.

Lemma elem_of_dict_update {V : Type} (l : list (str * V)) : ∀ d entry,
  entry ∈ dict_update d l → entry ∈ d ∨ entry ∈ l.
Proof.
  induction l as [|[k v] l IH]; intros d entry; [by left|].
  unfold dict_update in *. cbn [foldl]. intros [Hin|Hin]%IH.
  - apply elem_of_dict_set in Hin as [->|Hin]; [right; by left|by left].
  - right. by right.
Qed.

(** Every entry of a dictionary was assigned. *)
Lemma elem_of_dict_of_list {V : Type} (l : list (str * V)) entry :
  entry ∈ dict_of_list l → entry ∈ l.
Proof.
  intros [Hin|Hin]%(elem_of_dict_update l []); [|done].
  by apply elem_of_nil in Hin.
Qed.

(** ** Unquoting a string literal *)

(** [lexeme[1:-1]] drops the two delimiters of a quoted literal. *)
Lemma slice_1_m1_quoted (a b : char) (inner : str) :
  slice_1_m1 (a :: inner ++ [b]) = inner.
Proof.
  unfold slice_1_m1.
  replace (length (a :: inner ++ [b]) - 2) with (length inner)
    by (simpl; rewrite length_app; simpl; lia).
  simpl. apply take_app_length.
Qed.

Lemma slice_1_m1_short (s : str) : length s < 2 → slice_1_m1 s = [].
Proof.
  unfold slice_1_m1. destruct s as [|a [|b s]]; simpl; [done..|lia].
Qed.

Lemma lstrip_spec (s : str) :
  ∃ l, s = l ++ lstrip s ∧ blank l = true
       ∧ ∀ c, first_char (lstrip s) = Some c → isspace c = false.
Proof.
  induction s as [|c s (l & Hs & Hl & Hfirst)]; simpl.
  - by exists [].
  - destruct (isspace c) eqn:Hc.
    + exists (c :: l). simpl. rewrite Hc, Hl.
      split_and!; [exact (f_equal (cons c) Hs)|done..].
    + exists []. split_and!; [done..|]. simpl. by intros ? [= <-].
Qed.

Lemma rstrip_spec (s : str) :
  ∃ r, s = rstrip s ++ r ∧ blank r = true
       ∧ ∀ c, last_char (rstrip s) = Some c → isspace c = false.
Proof.
  induction s as [|c s (r & Hs & Hr & Hlast)]; simpl.
  - by exists [].
  - destruct (rstrip s) as [|c' s'] eqn:Hrs.
    + destruct (isspace c) eqn:Hc.
      * exists (c :: r). simpl. rewrite Hc, Hr.
        split_and!; [exact (f_equal (cons c) Hs)|done..].
      * exists r. split_and!; [exact (f_equal (cons c) Hs)|done|].
        by intros ? [= <-].
    + exists r. split_and!; [exact (f_equal (cons c) Hs)|done|].
      intros c0 Hc0. apply Hlast. done.
Qed.

Lemma first_char_rstrip (s : str) c :
  first_char (rstrip s) = Some c → first_char s = Some c.
Proof.
  destruct s as [|c' s]; simpl; [done|].
  destruct (rstrip s); [|done]. by destruct (isspace c').
Qed.

(** [s.strip()] is [s] without the whitespace at its two ends. *)
Lemma strip_spec (s : str) :
  ∃ l r, s = l ++ strip s ++ r ∧ blank l = true ∧ blank r = true
         ∧ (∀ c, first_char (strip s) = Some c → isspace c = false)
         ∧ (∀ c, last_char (strip s) = Some c → isspace c = false).
Proof.
  destruct (lstrip_spec s) as (l & Hl & Hblank_l & Hfirst).
  destruct (rstrip_spec (lstrip s)) as (r & Hr & Hblank_r & Hlast).
  exists l, r. unfold strip. split_and!; [|done..| |done].
  - rewrite Hl at 1. by rewrite Hr at 1.
  - intros c Hc. by apply Hfirst, first_char_rstrip.
Qed.

Lemma strip_no_blank_ends (s : str) :
  (∀ c, first_char s = Some c → isspace c = false) →
  (∀ c, last_char s = Some c → isspace c = false) →
  strip s = s.
Proof.
  intros Hfirst Hlast. unfold strip.
  assert (lstrip s = s) as ->.
  { destruct s as [|c s]; simpl; [done|]. by rewrite (Hfirst c). }
  clear Hfirst. induction s as [|c s IH]; simpl; [done|].
  destruct s as [|c' s].
  - simpl. by rewrite (Hlast c).
  - rewrite IH by done. done.
Qed.

(** The characters [str.isspace] tells, one by one. *)
Lemma isspace_spec (c : char) :
  isspace c = true
  ↔ c ∈ [9; 10; 11; 12; 13; 28; 29; 30; 31; 32; 133; 160; 5760;
         8192; 8193; 8194; 8195; 8196; 8197; 8198; 8199; 8200; 8201; 8202;
         8232; 8233; 8239; 8287; 12288]%N.
Proof.
  unfold isspace. rewrite !orb_true_iff, !andb_true_iff.
  rewrite !N.leb_le, !N.eqb_eq. rewrite !elem_of_cons, elem_of_nil. lia.
Qed.

(** * The claims of the specification *)

(** The end-to-end example of the specification. *)
Example parse_shape :
  spells shape_tokens shape_file ∧ checked_file shape_file
  ∧ parse shape_tokens
    = Return
        (GeneratorDescription.new "prelude text" []
           [(("Shape" : str),
             AbstractType.new
               [(("Circle" : str),
                 PolymorphicType.mk
                   [PureVirtualFunction.new "area" (Some ("double" : str))]
                   [Member.new "radius" false "double"]
                   [Implementation.new "area" "return 3.14*radius*radius;"]);
                (("Square" : str),
                 PolymorphicType.mk
                   [PureVirtualFunction.new "area" (Some ("double" : str))]
                   [Member.new "side" true "double"]
                   [Implementation.new "area" "return side*side;"])]
               []
               [PureVirtualFunction.new "area" (Some ("double" : str))])]
           "postlude text").
Proof. split_and!; [done|compute_done|by vm_compute]. Qed.

(** ** C1: every variant implements exactly the declared operations *)

(** C1, as stated, fails: a variant whose implementation names differ
    from the declared operation names, and repeat a name, is rejected
    with DuplicateImplementation, the error of the earlier check, not
    with IncompleteOrExcessImplementation. *)
Lemma excess_implementation_reported_as_duplicate :
  name_set (Implementation.name
              <$> [Implementation.new "render" "a"; Implementation.new "render" "b"])
  ≠ name_set (PureVirtualFunction.name
                <$> [PureVirtualFunction.new "area" (Some ("double" : str))])
  ∧ PolymorphicType.new [PureVirtualFunction.new "area" (Some ("double" : str))] []
      [Implementation.new "render" "a"; Implementation.new "render" "b"]
    = Raise (ParserError DuplicateImplementation)
  ∧ parse render_tokens = Raise (ParserError DuplicateImplementation).
Proof. split_and!; [compute_done|by vm_compute..]. Qed.

(** C1, amended: a variant that is constructed implements exactly the
    operations its abstract type declares; a variant whose implementation
    names differ from them fails at construction, with
    IncompleteOrExcessImplementation when neither the declarations nor
    the implementations repeat a name and with the duplicate error of the
    earlier check otherwise; and every variant of every abstract type of
    a description that [parse] returns implements exactly the operations
    of its abstract type. *)
Theorem variants_implement_declared_operations :
  (∀ functions members implementations v,
     PolymorphicType.new functions members implementations = Return v →
     v = PolymorphicType.mk functions members implementations
     ∧ implements_exactly functions v)
  ∧ (∀ functions members implementations,
       name_set (Implementation.name <$> implementations)
       ≠ name_set (PureVirtualFunction.name <$> functions) →
       ∃ msg,
         PolymorphicType.new functions members implementations
         = Raise (ParserError msg)
         ∧ (msg = IncompleteOrExcessImplementation
            ↔ NoDup (PureVirtualFunction.name <$> functions)
              ∧ NoDup (Implementation.name <$> implementations))
         ∧ (msg = DuplicateOperationDeclaration
            ↔ ¬ NoDup (PureVirtualFunction.name <$> functions))
         ∧ (msg = DuplicateImplementation
            ↔ NoDup (PureVirtualFunction.name <$> functions)
              ∧ ¬ NoDup (Implementation.name <$> implementations)))
  ∧ (∀ toks description,
       parse toks = Return description →
       ∀ name abstract_type,
         (name, abstract_type) ∈ GeneratorDescription.abstract_types description →
         ∀ variant_name variant,
           (variant_name, variant) ∈ AbstractType.sub_types abstract_type →
           implements_exactly (AbstractType.pure_virtual_functions abstract_type)
             variant).
Proof.
  split_and!.
  - intros functions members implementations v Hnew. split.
    + by apply new_inv in Hnew as (-> & _).
    + by eapply new_implements_exactly.
  - intros functions members implementations Hne.
    destruct (decide (NoDup (PureVirtualFunction.name <$> functions)))
      as [Hdecl|Hdecl];
      [destruct (decide (NoDup (Implementation.name <$> implementations)))
         as [Himpl|Himpl]|].
    + exists IncompleteOrExcessImplementation.
      rewrite new_incomplete_or_excess by done.
      split_and!; [done|intuition discriminate..].
    + exists DuplicateImplementation.
      rewrite new_duplicate_implementation by done.
      split_and!; [done|intuition discriminate..].
    + exists DuplicateOperationDeclaration.
      rewrite new_duplicate_declaration by done.
      split_and!; [done|intuition discriminate..].
  - intros toks description Hparse name abstract_type Hin variant_name variant Hv.
    apply parse_with_complete in Hparse. unfold complete_description in Hparse.
    rewrite Forall_forall in Hparse. specialize (Hparse _ Hin). simpl in Hparse.
    unfold complete_abstract_type in Hparse. rewrite Forall_forall in Hparse.
    apply (Hparse _ Hv).
Qed.

(** On the sample input, the variant [Square] implements [area]. *)
Lemma variants_implement_declared_operations_witness :
  implements_exactly [PureVirtualFunction.new "area" (Some ("double" : str))]
    (PolymorphicType.mk
       [PureVirtualFunction.new "area" (Some ("double" : str))]
       [Member.new "side" true "double"]
       [Implementation.new "area" "return side*side;"]).
Proof.
  refine (proj2 (proj2 variants_implement_declared_operations)
            shape_tokens (description_of shape_file) eq_refl
            "Shape" (abstract_type_of shape_abstract_type) _ "Square" _ _).
  - apply list_elem_of_here.
  - apply list_elem_of_further, list_elem_of_here.
Defined.

(** ** C2: the order of the checks *)

(** C2: whatever else is wrong with a variant, a repeated operation
    declaration is reported first; then, the declarations being distinct,
    a repeated implementation, whether or not the names also differ from
    the declared ones; then a difference between the two sets of names;
    and only a variant that passes the three checks is constructed. *)
Theorem validation_order (functions : list PureVirtualFunction.t)
    (members : list Member.t) (implementations : list Implementation.t) :
  let declared := PureVirtualFunction.name <$> functions in
  let implemented := Implementation.name <$> implementations in
  (¬ NoDup declared →
     PolymorphicType.new functions members implementations
     = Raise (ParserError DuplicateOperationDeclaration))
  ∧ (NoDup declared → ¬ NoDup implemented →
       PolymorphicType.new functions members implementations
       = Raise (ParserError DuplicateImplementation))
  ∧ (NoDup declared → NoDup implemented →
       name_set declared ≠ name_set implemented →
       PolymorphicType.new functions members implementations
       = Raise (ParserError IncompleteOrExcessImplementation))
  ∧ (NoDup declared → NoDup implemented →
       name_set declared = name_set implemented →
       PolymorphicType.new functions members implementations
       = Return (PolymorphicType.mk functions members implementations)).
Proof.
  intros declared implemented. split_and!.
  - apply new_duplicate_declaration.
  - apply new_duplicate_implementation.
  - apply new_incomplete_or_excess.
  - apply new_Return.
Qed.

(** The example of the claim: [area] implemented twice and [perimeter]
    not at all is a duplicate implementation. *)
Lemma validation_order_witness :
  PolymorphicType.new
    [PureVirtualFunction.new "area" (Some ("double" : str));
     PureVirtualFunction.new "perimeter" (Some ("double" : str))]
    []
    [Implementation.new "area" "a"; Implementation.new "area" "b"]
  = Raise (ParserError DuplicateImplementation).
Proof.
  apply (proj1 (proj2 (validation_order
    [PureVirtualFunction.new "area" (Some ("double" : str));
     PureVirtualFunction.new "perimeter" (Some ("double" : str))]
    []
    [Implementation.new "area" "a"; Implementation.new "area" "b"])));
    compute_done.
Defined.

(** ** C3: a repeated operation declaration *)

(** C3, as stated, fails: the operation names are checked when the first
    variant is constructed, after its tokens are consumed, so a first
    variant that is malformed reports its own error and the repeated
    declaration goes unreported. *)
Lemma malformed_first_variant_reported_first :
  parse area_twice_malformed_tokens
  = Raise (ParserError (UnexpectedToken STRING_LITERAL RIGHT_PARENTHESIS ")")).
Proof. by vm_compute. Qed.

(** C3, amended: when an abstract type declares an operation twice,
    what [parse] raises is decided by the tokens after the header.  If
    they start with a well-formed first variant, [parse] raises
    DuplicateOperationDeclaration once that variant is parsed: whatever
    the variant implements, and whatever follows it.  If they do not,
    [parse_subtype] raises on them, and [parse] raises that very
    exception in the place of the duplicate declaration: an unexpected
    token or an unexpected end of input, or the index error of the list
    access where the tokens break off.  No third case exists, and the
    cursor the two cases speak of does: it is the one in front of the
    tokens after the header.  (The constructs before the abstract type
    are well formed and pass their checks.) *)
Theorem duplicate_declaration_reported (toks : list Token)
    (prelude : option str) (cs : list Source.construct)
    (name : str) (members : list Source.member)
    (functions : list Source.function) (rest : list Token) :
  canon <$> toks
  = tokens_of_literal prelude ++ (cs ≫= tokens_of_construct)
    ++ tokens_of_header name members functions ++ rest →
  Forall checked_construct cs →
  ¬ NoDup (Source.function_name <$> functions) →
  (∀ first rest',
     rest = tokens_of_subtype first ++ rest' →
     parse toks = Raise (ParserError DuplicateOperationDeclaration))
  ∧ at_input (mkParser toks (length toks - length rest)) rest
  ∧ (∀ p, tokens p = toks → at_input p rest →
       match parse_subtype (S (length toks)) p with
       | Return _ =>
           (∃ first rest', rest = tokens_of_subtype first ++ rest')
           ∧ parse toks = Raise (ParserError DuplicateOperationDeclaration)
       | Raise e => parse toks = Raise e ∧ token_error e
       | OutOfFuel => False
       end).
Proof.
  intros Hspell Hchecked Hdup.
  assert (at_input (mkParser toks (length toks - length rest)) rest)
    as Hcursor.
  { rewrite !(assoc_L (++)) in Hspell. unfold at_input, remaining. simpl.
    rewrite fmap_drop, Hspell.
    apply (f_equal length) in Hspell.
    rewrite length_fmap, length_app in Hspell.
    rewrite Hspell, Nat.add_sub. apply drop_app_length. }
  assert (∃ rest0, tokens_of_header name members functions ++ rest
                   = identifier name :: rest0) as [rest0 Hhead] by by eexists.
  rewrite Hhead in Hspell.
  destruct (parse_constructs toks prelude cs (identifier name) rest0
              Hspell Hchecked ltac:(done) ltac:(done))
    as (p0 & fuel' & Htokens & Hinput & Hparse).
  rewrite <-Hhead in Hinput.
  assert (∀ first rest',
            rest = tokens_of_subtype first ++ rest' →
            parse toks = Raise (ParserError DuplicateOperationDeclaration))
    as Hfirst.
  { intros first rest' ->. rewrite Hparse.
    apply (file_loop_duplicate_declaration _ _ _ _ _ _ _ _ _ _ Hinput);
      [rewrite Htokens; lia|done]. }
  split_and!; [done..|]. intros p Hp Hrest.
  destruct (parse_subtype (S (length toks)) p) as [[r p']|e|] eqn:Hsub.
  - destruct (parse_subtype_returns_variant _ _ _ _ _ Hrest Hsub)
      as (first & rest' & Heq).
    split; [by eauto|]. by eapply Hfirst.
  - split; [|by eapply parse_subtype_raises].
    rewrite Hparse, while_S, bind_assoc.
    rewrite (bind_Raise _ _ _ e
               (file_body_first_variant_raises (S (length toks))
                  (state_after cs) p0 name members functions rest e Hinput
                  ltac:(rewrite Htokens; lia)
                  ltac:(intros p' Hp' Hrest'; rewrite <-Hsub;
                        apply (parse_subtype_same_input _ _ _ rest);
                        [by rewrite Hp', Htokens|done..]))).
    done.
  - by apply (parse_subtype_never_out_of_fuel (S (length toks)) p);
      [rewrite Hp; lia|].
Qed.

(** On [area_twice_tokens], the repeated [area] is reported although the
    first variant implements nothing and the second is malformed. *)
Lemma duplicate_declaration_reported_witness :
  parse area_twice_tokens = Raise (ParserError DuplicateOperationDeclaration).
Proof.
  refine (proj1 (duplicate_declaration_reported area_twice_tokens None []
                   "Shape" []
                   [Source.Function "area" (quoted "double");
                    Source.Function "area" (quoted "int")]
                   (tokens_of_subtype
                      (Source.Subtype "Circle"
                         [Source.MemberEntry
                            (Source.Member "radius" false (quoted "double"))])
                    ++ [symbol PIPE; identifier "Square";
                        symbol LEFT_PARENTHESIS])
                   _ _ _)
            (Source.Subtype "Circle"
               [Source.MemberEntry
                  (Source.Member "radius" false (quoted "double"))])
            [symbol PIPE; identifier "Square"; symbol LEFT_PARENTHESIS] _).
  - reflexivity.
  - constructor.
  - compute_done.
  - reflexivity.
Defined.

(** ** C4: reading the current token *)

(** C4, as stated, fails: on the end-of-input token [current] returns
    the token, and past the last token it raises the index error of the
    list access, not [UnexpectedEndOfInput]. *)
Lemma current_at_end_of_input :
  current (mkParser [mkToken END_OF_INPUT ""] 0)
  = Return (mkToken END_OF_INPUT "", mkParser [mkToken END_OF_INPUT ""] 0)
  ∧ current (mkParser [mkToken END_OF_INPUT ""] 1) = Raise IndexError.
Proof. by split. Qed.

(** C4, amended: [current] returns the token under the cursor whenever
    there is one, the end-of-input token included, and leaves the cursor
    where it is; past the last token it raises [IndexError]; it is
    [consume] that raises UnexpectedEndOfInput, in both states. *)
Theorem current_reads_the_token_under_the_cursor (p : Parser) :
  (∀ tok, tokens p !! index p = Some tok → current p = Return (tok, p))
  ∧ (length (tokens p) ≤ index p → current p = Raise IndexError)
  ∧ (at_end p →
     ∀ ty, consume ty p = Raise (ParserError UnexpectedEndOfInput)).
Proof.
  split_and!.
  - apply current_Some.
  - apply current_None.
  - intros Hend ty. by apply consume_at_end.
Qed.

(** On the end-of-input token, [consume] raises UnexpectedEndOfInput. *)
Lemma current_reads_the_token_under_the_cursor_witness :
  consume IDENTIFIER (mkParser [mkToken END_OF_INPUT ""] 0)
  = Raise (ParserError UnexpectedEndOfInput).
Proof.
  apply (proj2 (proj2 (current_reads_the_token_under_the_cursor
                         (mkParser [mkToken END_OF_INPUT ""] 0)))).
  right. exists (mkToken END_OF_INPUT ""). by split.
Defined.

(** ** C5: the text of a string literal *)

Lemma parse_data_member_unquotes p m p' :
  parse_data_member p = Return (m, p') →
  ∃ tok, tokens p !! (index p + (if Member.by_move m then 2 else 1)) = Some tok
         ∧ type_ tok = STRING_LITERAL
         ∧ Member.type_ m = unquote (lexeme tok).
Proof.
  unfold parse_data_member. intros H. invert_M; simpl in *;
    rewrite <-?(assoc_L Nat.add) in *; simpl in *; eauto.
Qed.

Lemma parse_implementation_unquotes p i p' :
  parse_implementation p = Return (i, p') →
  ∃ tok, tokens p !! (index p + 2) = Some tok
         ∧ type_ tok = STRING_LITERAL
         ∧ Implementation.body i = unquote (lexeme tok).
Proof.
  unfold parse_implementation. intros H. invert_M; simpl in *.
  rewrite <-?(assoc_L Nat.add) in *; simpl in *; eauto.
Qed.

Lemma functions_body_unquotes functions p functions' p' :
  functions_body functions p = Return (Continue functions', p') →
  ∃ name tok,
    tokens p !! (index p + 2) = Some tok
    ∧ type_ tok = STRING_LITERAL
    ∧ functions'
      = functions
        ++ [PureVirtualFunction.new name
              (if decide (unquote (lexeme tok) = "") then None
               else Some (unquote (lexeme tok)))].
Proof.
  unfold functions_body. intros H. invert_M; simplify_eq.
  rewrite return_type_of_text. simpl in * |-.
  rewrite <-?(assoc_L Nat.add) in *. simpl in * |-. eauto 6.
Qed.

Lemma file_body_type_definition_unquotes fuel s p tok r p' :
  tokens p !! index p = Some tok → type_ tok = TYPE →
  file_body fuel s p = Return (r, p') →
  ∃ name contents,
    tokens p !! (index p + 1) = Some name
    ∧ tokens p !! (index p + 2) = Some contents
    ∧ type_ contents = STRING_LITERAL
    ∧ r = Continue (mkFileState
                      (type_definitions s
                       ++ [(lexeme name, unquote (lexeme contents))])
                      (polymorphic_types s) (postlude s)).
Proof.
  intros Htok Hty H. unfold file_body in H. invert_M.
  - match goal with
    | Hend : true = true ↔ at_end _ |- _ =>
        destruct Hend as [[Hlen|(tok' & ? & ?)] _]; [done|..]
    end.
    + apply lookup_lt_Some in Htok. lia.
    + simplify_eq. congruence.
  - simplify_eq. rewrite Hty in *. invert_M; simpl in *.
    rewrite <-?(assoc_L Nat.add) in *; simpl in *. eauto 8.
Qed.

Lemma file_body_postlude_unquotes fuel s p tok :
  tokens p !! index p = Some tok → type_ tok = STRING_LITERAL →
  file_body fuel s p
  = Return (Break (mkFileState (type_definitions s) (polymorphic_types s)
                     (unquote (lexeme tok))),
            advance 1 p).
Proof.
  intros Htok Hty. unfold file_body.
  rewrite (bind_Return _ _ _ _ _ (is_end_of_input_false _ _ Htok ltac:(congruence))).
  rewrite (bind_Return _ _ _ _ _ (current_Some _ _ Htok)), Hty.
  by rewrite (bind_Return _ _ _ _ _ (current_Some _ _ Htok)).
Qed.

Lemma parse_prelude_unquotes tok toks description :
  type_ tok = STRING_LITERAL →
  parse (tok :: toks) = Return description →
  GeneratorDescription.prelude description = unquote (lexeme tok).
Proof.
  intros Hty. unfold parse, parse_with.
  destruct (parse_file _ _) as [[d q]| |] eqn:H; [|done..].
  intros [= <-]. unfold parse_file in H.
  apply bind_inv in H as (tok' & q0 & [-> Htok]%current_inv & H).
  simpl in Htok. injection Htok as [= <-].
  rewrite decide_True in H by done.
  apply bind_inv in H as (prelude & q1 & Hprelude & H).
  apply bind_inv in H as (s & q2 & _ & H). invert_M; simpl in *.
  by simplify_eq.
Qed.

(** C5: the expression [lexeme[1:-1].strip()] removes the first and the
    last character of a lexeme (all there is of a lexeme shorter than
    two characters) and the whitespace at both ends of what is between
    them, for lexemes of any Unicode characters, the whitespace being
    the 29 characters that [str.isspace] tells; and it is what each
    production stores of the string literal it consumes: the type of a member, the return type of an operation
    (nothing at all when that text is empty), the body of an
    implementation, the contents of a type definition, the prelude and
    the postlude. *)
Theorem string_literals_are_unquoted :
  (∀ (a b : char) (inner : str),
     unquote (a :: inner ++ [b]) = strip inner)
  ∧ (∀ lexeme : str, length lexeme < 2 → unquote lexeme = "")
  ∧ (∀ text : str,
       ∃ l r, text = l ++ strip text ++ r
              ∧ blank l = true ∧ blank r = true
              ∧ (∀ c, first_char (strip text) = Some c → isspace c = false)
              ∧ (∀ c, last_char (strip text) = Some c → isspace c = false))
  ∧ (∀ p m p',
       parse_data_member p = Return (m, p') →
       ∃ tok, tokens p !! (index p + (if Member.by_move m then 2 else 1))
              = Some tok
              ∧ type_ tok = STRING_LITERAL
              ∧ Member.type_ m = unquote (lexeme tok))
  ∧ (∀ functions p functions' p',
       functions_body functions p = Return (Continue functions', p') →
       ∃ name tok,
         tokens p !! (index p + 2) = Some tok
         ∧ type_ tok = STRING_LITERAL
         ∧ functions'
           = functions
             ++ [PureVirtualFunction.new name
                   (if decide (unquote (lexeme tok) = "") then None
                    else Some (unquote (lexeme tok)))])
  ∧ (∀ p i p',
       parse_implementation p = Return (i, p') →
       ∃ tok, tokens p !! (index p + 2) = Some tok
              ∧ type_ tok = STRING_LITERAL
              ∧ Implementation.body i = unquote (lexeme tok))
  ∧ (∀ fuel s p tok r p',
       tokens p !! index p = Some tok → type_ tok = TYPE →
       file_body fuel s p = Return (r, p') →
       ∃ name contents,
         tokens p !! (index p + 1) = Some name
         ∧ tokens p !! (index p + 2) = Some contents
         ∧ type_ contents = STRING_LITERAL
         ∧ r = Continue (mkFileState
                           (type_definitions s
                            ++ [(lexeme name, unquote (lexeme contents))])
                           (polymorphic_types s) (postlude s)))
  ∧ (∀ tok toks description,
       type_ tok = STRING_LITERAL →
       parse (tok :: toks) = Return description →
       GeneratorDescription.prelude description = unquote (lexeme tok))
  ∧ (∀ fuel s p tok,
       tokens p !! index p = Some tok → type_ tok = STRING_LITERAL →
       file_body fuel s p
       = Return (Break (mkFileState (type_definitions s) (polymorphic_types s)
                          (unquote (lexeme tok))),
                 advance 1 p))
  ∧ (∀ toks f,
       spells toks f → checked_file f → parse toks = Return (description_of f))
  ∧ (∀ c : char,
       isspace c = true
       ↔ c ∈ [9; 10; 11; 12; 13; 28; 29; 30; 31; 32; 133; 160; 5760;
              8192; 8193; 8194; 8195; 8196; 8197; 8198; 8199; 8200; 8201;
              8202; 8232; 8233; 8239; 8287; 12288]%N).
Proof.
  split_and!.
  - intros a b inner. unfold unquote. by rewrite slice_1_m1_quoted.
  - intros lexeme Hshort. unfold unquote. by rewrite slice_1_m1_short.
  - apply strip_spec.
  - apply parse_data_member_unquotes.
  - apply functions_body_unquotes.
  - apply parse_implementation_unquotes.
  - apply file_body_type_definition_unquotes.
  - apply parse_prelude_unquotes.
  - apply file_body_postlude_unquotes.
  - apply parse_spelled.
  - apply isspace_spec.
Qed.


(** The literal of the specification. *)
Lemma string_literals_are_unquoted_witness :
  unquote (quoted "  int x;  ") = "int x;".
Proof.
  exact (proj1 string_literals_are_unquoted quotation_mark quotation_mark
           "  int x;  ").
Defined.

(** An em space (U+2003) and an ideographic space (U+3000) around the
    text are trimmed like the ASCII space. *)
Example unquote_trims_unicode_whitespace :
  unquote (quotation_mark :: 8195%N :: "int" ++ [12288%N; quotation_mark])
  = "int".
Proof. reflexivity. Qed.

(** ** C6: the postlude is the last construct *)

(** C6: a string literal that follows the prelude or a construct is the
    postlude, and ends the file-level loop: [parse] returns the
    description of what came before it when nothing or the end-of-input
    token follows, and raises TrailingContentAfterPostlude on any other
    token, whatever comes after that token.  (The constructs before the
    postlude are well formed and pass their checks.) *)
Theorem postlude_is_last (toks : list Token) (prelude : option str)
    (cs : list Source.construct) (lexeme : str) (rest : list Token) :
  canon <$> toks
  = tokens_of_literal prelude ++ (cs ≫= tokens_of_construct)
    ++ string_literal lexeme :: rest →
  Forall checked_construct cs →
  (prelude = None → cs ≠ []) →
  parse toks
  = match rest with
    | c :: _ =>
        if decide (type_ c = END_OF_INPUT)
        then Return (GeneratorDescription.new (text_of_literal prelude)
                       (type_definitions_of cs)
                       (dict_of_list (abstract_types_of cs))
                       (unquote lexeme))
        else Raise (ParserError TrailingContentAfterPostlude)
    | [] => Return (GeneratorDescription.new (text_of_literal prelude)
                      (type_definitions_of cs)
                      (dict_of_list (abstract_types_of cs))
                      (unquote lexeme))
    end.
Proof.
  intros Hspell Hchecked Hprelude.
  destruct (parse_constructs toks prelude cs (string_literal lexeme) rest
              Hspell Hchecked ltac:(done))
    as (p' & fuel' & _ & Hinput & ->).
  { intros Hnone Hnil. by destruct (Hprelude Hnone). }
  by rewrite (file_loop_postlude _ _ _ _ _ _ _ Hinput).
Qed.

(** After the postlude of the sample file, one more token of any kind
    but the end of input is an error. *)
Lemma postlude_is_last_witness :
  parse (removelast shape_tokens ++ [mkToken IDENTIFIER "Extra"])
  = Raise (ParserError TrailingContentAfterPostlude).
Proof.
  apply (postlude_is_last
           (removelast shape_tokens ++ [mkToken IDENTIFIER "Extra"])
           (Some (quoted "prelude text"))
           [Source.AbstractTypeDefinition shape_abstract_type]
           (quoted "postlude text") [identifier "Extra"]).
  - reflexivity.
  - compute_done.
  - discriminate.
Defined.

(** ** C7: two variants of one name *)

Lemma abstract_types_of_app cs1 cs2 :
  abstract_types_of (cs1 ++ cs2) = abstract_types_of cs1 ++ abstract_types_of cs2.
Proof. apply omap_app. Qed.

(** C7: an abstract type with two variants of one name parses without
    error (the file being otherwise well formed), and its dictionary of
    variants has exactly one entry of that name, which holds the later
    variant.  (The abstract type is the last of its name in the file, and
    the later variant the last of its name in the abstract type.) *)
Theorem duplicate_variant_overwrites (toks : list Token) (f : Source.file)
    (before after : list Source.construct) (a : Source.abstract_type)
    (earlier between later : list Source.subtype) (v1 v2 : Source.subtype) :
  spells toks f → checked_file f →
  Source.file_constructs f = before ++ Source.AbstractTypeDefinition a :: after →
  Source.abstract_name a ∉ (abstract_types_of after).*1 →
  Source.subtypes a = earlier ++ v1 :: between ++ v2 :: later →
  Source.subtype_name v1 = Source.subtype_name v2 →
  Source.subtype_name v2 ∉ Source.subtype_name <$> later →
  ∃ description abstract_type,
    parse toks = Return description
    ∧ dict_get (Source.abstract_name a)
        (GeneratorDescription.abstract_types description)
      = Some abstract_type
    ∧ filter (λ entry, entry.1 = Source.subtype_name v2)
        (AbstractType.sub_types abstract_type)
      = [(Source.subtype_name v2,
          subtype_of (function_of <$> Source.abstract_functions a) v2)].
Proof.
  intros Hspell Hchecked Hcs Hafter Hsubtypes _ Hlater.
  exists (description_of f), (abstract_type_of a). split_and!.
  - by apply parse_spelled.
  - unfold description_of. simpl. rewrite Hcs, abstract_types_of_app. simpl.
    by apply dict_get_of_list_last.
  - unfold abstract_type_of. cbn [AbstractType.sub_types].
    apply filter_key_dict_get; [apply NoDup_dict_keys_of_list|].
    rewrite Hsubtypes.
    replace (earlier ++ v1 :: between ++ v2 :: later)
      with ((earlier ++ v1 :: between) ++ v2 :: later)
      by (by rewrite <-(assoc_L (++))).
    rewrite fmap_app, fmap_cons. apply dict_get_of_list_last.
    by rewrite <-list_fmap_compose.
Qed.

(** On [twice_A_tokens], the one entry [A] holds the variant with the
    member [y]. *)
Lemma duplicate_variant_overwrites_witness :
  ∃ description abstract_type,
    parse twice_A_tokens = Return description
    ∧ dict_get "Shape" (GeneratorDescription.abstract_types description)
      = Some abstract_type
    ∧ filter (λ entry, entry.1 = ("A" : str))
        (AbstractType.sub_types abstract_type)
      = [(("A" : str), PolymorphicType.mk [] [Member.new "y" false "bool"] [])].
Proof.
  apply (duplicate_variant_overwrites twice_A_tokens twice_A_file
           [] [] twice_A [] [only_B] [] first_A second_A).
  - reflexivity.
  - compute_done.
  - reflexivity.
  - compute_done.
  - reflexivity.
  - reflexivity.
  - compute_done.
Defined.

(** ** C8: the order of the declarations *)

(** C8, as stated, fails: in [A ( x ) | B ( ) | A ( y )] the later [A]
    is stored in the place of the earlier one, before [B], which the
    source declares before it. *)
Lemma later_variant_stored_first :
  spells twice_A_tokens twice_A_file ∧ checked_file twice_A_file
  ∧ parse twice_A_tokens
    = Return
        (GeneratorDescription.new "" []
           [(("Shape" : str),
             AbstractType.new
               [(("A" : str), PolymorphicType.mk [] [Member.new "y" false "bool"] []);
                (("B" : str), PolymorphicType.mk [] [] [])]
               [] [])]
           "")
  ∧ parse twice_A_tokens ≠ Return (description_in_order twice_A_file).
Proof. split_and!; [done|compute_done|by vm_compute|by vm_compute]. Qed.

Lemma abstract_types_in_order_distinct cs :
  Forall (λ c, match c with
               | Source.TypeDefinition _ _ => True
               | Source.AbstractTypeDefinition a => NoDup (subtype_names a)
               end) cs →
  abstract_types_of cs = abstract_types_in_order cs.
Proof.
  induction 1 as [|[name contents|a] cs Ha _ IH]; simpl; [done..|].
  rewrite IH. do 2 f_equal. unfold abstract_type_of, abstract_type_in_order.
  f_equal. apply dict_of_list_distinct.
  by rewrite <-list_fmap_compose.
Qed.

(** C8, amended: the description of a well-formed token sequence lists
    the type definitions in the order of the source; every abstract type
    in it comes from a definition of the source and lists its shared
    members and operations in the order of that definition, and every
    variant of it comes from a variant of that definition and lists its
    members and implementations in the order of that variant; the two
    dictionaries list each name once, at the place of its first
    declaration; so the abstract types and the variants are in the order
    of the source as well when no name is declared twice. *)
Theorem declaration_order_preserved (toks : list Token) (f : Source.file) :
  spells toks f → checked_file f →
  ∃ description,
    parse toks = Return description
    ∧ GeneratorDescription.type_definitions description
      = type_definitions_of (Source.file_constructs f)
    ∧ dict_keys (GeneratorDescription.abstract_types description)
      = first_occurrences (abstract_names (Source.file_constructs f))
    ∧ (∀ name abstract_type,
         (name, abstract_type)
         ∈ GeneratorDescription.abstract_types description →
         ∃ a,
           Source.AbstractTypeDefinition a ∈ Source.file_constructs f
           ∧ name = Source.abstract_name a
           ∧ AbstractType.members abstract_type
             = member_of <$> Source.abstract_members a
           ∧ AbstractType.pure_virtual_functions abstract_type
             = function_of <$> Source.abstract_functions a
           ∧ dict_keys (AbstractType.sub_types abstract_type)
             = first_occurrences (subtype_names a)
           ∧ ∀ variant_name variant,
               (variant_name, variant) ∈ AbstractType.sub_types abstract_type →
               ∃ st,
                 st ∈ Source.subtypes a
                 ∧ variant_name = Source.subtype_name st
                 ∧ PolymorphicType.members variant
                   = members_of_entries (Source.subtype_entries st)
                 ∧ PolymorphicType.implementations variant
                   = implementations_of_entries (Source.subtype_entries st))
    ∧ (distinct_names f → description = description_in_order f).
Proof.
  intros Hspell Hchecked. exists (description_of f). split_and!.
  - by apply parse_spelled.
  - done.
  - apply dict_keys_of_list.
  - intros name abstract_type Hin. cbn [description_of
      GeneratorDescription.abstract_types] in Hin.
    apply elem_of_dict_of_list, list_elem_of_omap in Hin as (c & Hc & Hsome).
    destruct c as [|a]; [done|]. injection Hsome as [= <- <-].
    exists a. split_and!; [done..| |].
    + unfold abstract_type_of. cbn [AbstractType.sub_types].
      rewrite dict_keys_of_list. unfold subtype_names.
      by rewrite <-list_fmap_compose.
    + intros variant_name variant Hv. unfold abstract_type_of in Hv.
      cbn [AbstractType.sub_types] in Hv.
      apply elem_of_dict_of_list, list_elem_of_fmap in Hv as (st & Heq & Hst).
      injection Heq as [= -> ->]. by exists st.
  - intros [Habstract Hsubtypes]. unfold description_of, description_in_order.
    f_equal. rewrite dict_of_list_distinct by done.
    by apply abstract_types_in_order_distinct.
Qed.

(** The sample file declares no name twice: its description is in the
    order of the source. *)
Lemma declaration_order_preserved_witness :
  parse shape_tokens = Return (description_in_order shape_file).
Proof.
  pose proof (declaration_order_preserved shape_tokens shape_file
                eq_refl ltac:(compute_done))
    as (description & Hparse & _ & _ & _ & Horder).
  rewrite Hparse, Horder; [reflexivity|]. split.
  - compute_done.
  - repeat constructor; by apply (bool_decide_unpack _).
Defined.

(** ** C9: termination *)

(** C9: [parse] returns or raises on every token sequence: no loop needs
    more iterations than [parse] grants it, one for each token and one
    for the last evaluation of its condition, and more fuel changes
    nothing; every pass over the body of each of the five loops that
    runs to its end leaves the cursor at least one token further, in the
    same tokens, and started on a token; and a loop whose passes do so
    finishes within the number of tokens left, plus one. *)
Theorem parse_terminates (toks : list Token) :
  ((∃ description, parse toks = Return description)
   ∨ (∃ e, parse toks = Raise e))
  ∧ (∀ fuel, length toks < fuel → parse_with fuel toks = parse toks)
  ∧ (∀ fuel s p s' p',
       file_body fuel s p = Return (Continue s', p') → advanced p p')
  ∧ (∀ s p s' p',
       base_type_members_body s p = Return (Continue s', p') → advanced p p')
  ∧ (∀ s p s' p',
       functions_body s p = Return (Continue s', p') → advanced p p')
  ∧ (∀ s p s' p',
       subtype_body s p = Return (Continue s', p') → advanced p p')
  ∧ (∀ fuel functions s p s' p',
       sub_types_body fuel functions s p = Return (Continue s', p') →
       advanced p p')
  ∧ (∀ (S : Type) (body : S → M (flow S)) fuel s p,
       (∀ s q, follows p q → body s q ≠ OutOfFuel) →
       (∀ s q s' q', follows p q → body s q = Return (Continue s', q') →
                     advanced q q') →
       length (tokens p) - index p < fuel →
       while fuel body s p ≠ OutOfFuel).
Proof.
  split_and!.
  - pose proof (parse_with_never_out_of_fuel (S (length toks)) toks) as Hnever.
    unfold parse. destruct (parse_with _ _) as [d|e|]; [eauto..|].
    destruct Hnever; [lia|done].
  - intros fuel. apply parse_with_more_fuel.
  - intros fuel s p s' p' H. by apply file_body_advanced in H.
  - intros s p s' p' H. by apply base_type_members_body_advanced in H.
  - intros s p s' p' H. by apply functions_body_advanced in H.
  - intros s p s' p' H. by apply subtype_body_advanced in H.
  - intros fuel functions s p s' p' H. by apply sub_types_body_advanced in H.
  - intros S body fuel s p. apply while_never_out_of_fuel.
Qed.

(** The sample input, with twice the fuel. *)
Lemma parse_terminates_witness :
  parse_with (2 * S (length shape_tokens)) shape_tokens = parse shape_tokens.
Proof.
  apply (proj1 (proj2 (parse_terminates shape_tokens))). simpl. lia.
Defined.

(** ** C10: no token to read *)

(** C10: on the empty token sequence [parse] raises the index error of
    the list access in [current], which is no [ParserError]: [parse]
    reads the current token, to test for a prelude, before it tests for
    the end of the input; and so does every call of [current] with the
    cursor past the last token. *)
Theorem parse_empty_raises_IndexError :
  parse [] = Raise IndexError
  ∧ (∀ fuel p, length (tokens p) ≤ index p → parse_file fuel p = Raise IndexError)
  ∧ (∀ p, length (tokens p) ≤ index p → current p = Raise IndexError)
  ∧ (∀ msg, IndexError ≠ ParserError msg).
Proof.
  split_and!; [done| |apply current_None|done].
  intros fuel p Hlen. unfold parse_file.
  by rewrite (bind_Raise _ _ _ _ (current_None _ Hlen)).
Qed.

(** The cursor past the only token. *)
Lemma parse_empty_raises_IndexError_witness :
  current (mkParser [mkToken IDENTIFIER "Shape"] 1) = Raise IndexError.
Proof.
  apply (proj1 (proj2 (proj2 parse_empty_raises_IndexError))). simpl. lia.
Defined.

(** * Further properties of the parser *)

(** ** The cursor *)

(** X1: [consume] returns exactly when the cursor is on a token of the
    expected kind and that kind is not the end of input, and then
    returns that token and moves the cursor by one; on a token of
    another kind (but the end of input) it raises UnexpectedToken with
    the kind and the lexeme of that token; and the end-of-input token is
    never consumed: expecting it raises, wherever the cursor is. *)
Theorem consume_returns_iff (ty : TokenType) (p : Parser) :
  (∀ tok p',
     consume ty p = Return (tok, p')
     ↔ tokens p !! index p = Some tok ∧ type_ tok = ty
       ∧ ty ≠ END_OF_INPUT ∧ p' = advance 1 p)
  ∧ (∀ tok,
       tokens p !! index p = Some tok → type_ tok ≠ END_OF_INPUT →
       type_ tok ≠ ty →
       consume ty p
       = Raise (ParserError (UnexpectedToken ty (type_ tok) (lexeme tok))))
  ∧ (ty = END_OF_INPUT → ∃ msg, consume ty p = Raise (ParserError msg)).
Proof.
  split_and!.
  - intros tok p'. split.
    + intros H. pose proof H as (Htok & Hty & ->)%consume_inv.
      split_and!; [done..| |done]. intros ->.
      rewrite consume_at_end in H; [done|]. right. by exists tok.
    + intros (Htok & <- & Hty & ->). by apply consume_match.
  - intros tok. apply consume_mismatch.
  - intros ->. destruct (tokens p !! index p) as [tok|] eqn:Htok.
    + destruct (decide (type_ tok = END_OF_INPUT)) as [Hty|Hty].
      * eexists. apply consume_at_end. right. by exists tok.
      * eexists. by apply consume_mismatch.
    + eexists. apply consume_at_end. left. by apply lookup_ge_None.
Qed.

(** On a parenthesis where an identifier is expected, [consume] reports
    the kind and the lexeme of the parenthesis. *)
Lemma consume_returns_iff_witness :
  consume IDENTIFIER (mkParser [mkToken LEFT_PARENTHESIS "("] 0)
  = Raise (ParserError (UnexpectedToken IDENTIFIER LEFT_PARENTHESIS "(")).
Proof.
  by apply (proj1 (proj2 (consume_returns_iff IDENTIFIER
                            (mkParser [mkToken LEFT_PARENTHESIS "("] 0)))
              (mkToken LEFT_PARENTHESIS "(")).
Defined.

(** X2: [is_end_of_input] never raises and never moves the cursor: it
    answers true past the last token, where there is no token to test,
    and on the end-of-input token, and false on any other token. *)
Theorem is_end_of_input_answers (p : Parser) :
  ∃ b, is_end_of_input p = Return (b, p)
       ∧ (b = true ↔ at_end p)
       ∧ (b = false
          ↔ ∃ tok, tokens p !! index p = Some tok ∧ type_ tok ≠ END_OF_INPUT).
Proof.
  destruct (is_end_of_input_total p) as [b Hb]. exists b.
  destruct (is_end_of_input_inv _ _ _ Hb) as [_ Hiff].
  split_and!; [done..|]. split.
  - intros ->. destruct (tokens p !! index p) as [tok|] eqn:Htok.
    + exists tok. split; [done|]. intros Hty.
      assert (false = true) as [=]. apply Hiff. right. by exists tok.
    + assert (false = true) as [=]. apply Hiff. left. by apply lookup_ge_None.
  - intros (tok & Htok & Hty). destruct b; [|done].
    destruct Hiff as [[Hlen|(tok' & ? & ?)] _]; [done| |by simplify_eq].
    apply lookup_lt_Some in Htok. lia.
Qed.

(** X3: [peek] never moves the cursor; at the end of the input (past
    the last token or on the end-of-input token) it returns nothing,
    even when more tokens follow; elsewhere it returns the token after
    the current one, and raises the index error of the list access when
    the current token is the last. *)
Theorem peek_looks_one_token_ahead (p : Parser) :
  (∀ r p', peek p = Return (r, p') → p' = p)
  ∧ (at_end p → peek p = Return (None, p))
  ∧ (∀ tok,
       tokens p !! index p = Some tok → type_ tok ≠ END_OF_INPUT →
       peek p = match tokens p !! (index p + 1) with
                | Some tok' => Return (Some tok', p)
                | None => Raise IndexError
                end).
Proof.
  split_and!.
  - intros r p'. unfold peek.
    intros ([] & q & [-> _]%is_end_of_input_inv & H)%bind_inv.
    + by apply ret_inv in H as [_ ->].
    + destruct (tokens p !! (index p + 1)); [|done]. by injection H as [= _ <-].
  - intros Hend. unfold peek.
    by rewrite (bind_Return _ _ _ _ _ (is_end_of_input_true _ Hend)).
  - intros tok Htok Hty. unfold peek.
    by rewrite (bind_Return _ _ _ _ _ (is_end_of_input_false _ _ Htok Hty)).
Qed.

(** On the last token of a sequence that lacks the end-of-input token,
    there is nothing to look at. *)
Lemma peek_looks_one_token_ahead_witness :
  peek (mkParser [mkToken IDENTIFIER "Shape"] 0) = Raise IndexError.
Proof.
  apply (proj2 (proj2 (peek_looks_one_token_ahead
                         (mkParser [mkToken IDENTIFIER "Shape"] 0)))
           (mkToken IDENTIFIER "Shape")); done.
Defined.

(** ** The end of the input *)

(** X4: when [parse] returns, the cursor has moved forward in the same
    tokens and stands at the end of the input: past the last token or on
    an end-of-input token. *)
Theorem parse_file_stops_at_end_of_input (fuel : nat) (p : Parser)
    (description : GeneratorDescription.t) (p' : Parser) :
  parse_file fuel p = Return (description, p') →
  follows p p' ∧ at_end p'.
Proof.
  unfold parse_file. intros H.
  apply bind_inv in H as (tok & q0 & [-> Htok]%current_inv & H).
  apply bind_inv in H as (prelude & q1 & Hprelude & H).
  apply bind_inv in H as (s & q2 & Hloop & H).
  apply bind_inv in H as (b & q3 & [-> Hend]%is_end_of_input_inv & H).
  destruct b; [|done]. apply ret_inv in H as [_ ->]. split; [|by apply Hend].
  assert (follows p q1) as Hq1.
  { destruct (decide (type_ tok = STRING_LITERAL)); invert_M;
      eauto with cursor. }
  eapply follows_trans; [exact Hq1|].
  eapply while_follows; [|exact Hloop].
  intros s0 q r q' Hbody. apply file_body_advanced in Hbody.
  destruct r; eauto with cursor.
Qed.

(** On the sample input the cursor stops on the end-of-input token. *)
Lemma parse_file_stops_at_end_of_input_witness :
  at_end (mkParser shape_tokens 27).
Proof.
  refine (proj2 (parse_file_stops_at_end_of_input 28 (Parser_init shape_tokens)
                   (description_of shape_file) _ _)).
  reflexivity.
Defined.

(** X5: the tokens after the end-of-input token are never read: a token
    sequence that spells a source file and goes on after its
    end-of-input token parses to the description of that file. *)
Theorem tokens_after_end_of_input_are_ignored (toks : list Token)
    (f : Source.file) (more : list Token) :
  canon <$> toks = tokens_of_file f ++ more → checked_file f →
  parse toks = Return (description_of f).
Proof.
  destruct f as [prelude cs postlude]. unfold tokens_of_file, checked_file.
  simpl. rewrite <-!(assoc_L (++)).
  intros Hspell [Hchecked Hpostlude]. destruct postlude as [lexeme|].
  - destruct (parse_constructs toks prelude cs (string_literal lexeme)
                (symbol END_OF_INPUT :: more) Hspell Hchecked ltac:(done))
      as (p' & fuel' & _ & Hinput & ->).
    { intros Hprelude Hcs. by specialize (Hpostlude Hprelude Hcs). }
    by rewrite (file_loop_postlude _ _ _ _ _ _ _ Hinput).
  - destruct (parse_constructs toks prelude cs (symbol END_OF_INPUT) more
                Hspell Hchecked ltac:(done) ltac:(done))
      as (p' & fuel' & _ & Hinput & ->).
    by rewrite (file_loop_end _ _ _ _ _ (symbol END_OF_INPUT) _ eq_refl Hinput).
Qed.

(** The sample file, followed by a stray parenthesis. *)
Lemma tokens_after_end_of_input_are_ignored_witness :
  parse (shape_tokens ++ [mkToken RIGHT_PARENTHESIS ")"])
  = Return (description_of shape_file).
Proof.
  apply (tokens_after_end_of_input_are_ignored
           (shape_tokens ++ [mkToken RIGHT_PARENTHESIS ")"]) shape_file
           [symbol RIGHT_PARENTHESIS]).
  - reflexivity.
  - compute_done.
Defined.

(** ** Errors at the level of the file *)

Lemma file_body_unrecognized fuel s p tok :
  tokens p !! index p = Some tok →
  type_ tok ∈ [FUNCTION; IMPLEMENT; BY_MOVE; LEFT_PARENTHESIS;
               RIGHT_PARENTHESIS; EQUALS] →
  file_body fuel s p
  = Raise (ParserError (UnrecognizedFileLevelConstruct (type_ tok))).
Proof.
  intros Htok Hty. unfold file_body.
  assert (type_ tok ≠ END_OF_INPUT) as Hne.
  { intros Heq. rewrite Heq in Hty.
    repeat (apply elem_of_cons in Hty as [Hty|Hty]; [done|]).
    by apply elem_of_nil in Hty. }
  rewrite (bind_Return _ _ _ _ _ (is_end_of_input_false _ _ Htok Hne)).
  rewrite (bind_Return _ _ _ _ _ (current_Some _ _ Htok)).
  repeat (apply elem_of_cons in Hty as [Hty|Hty]; [by rewrite Hty|]).
  by apply elem_of_nil in Hty.
Qed.

(** X6: where a construct may start (after the prelude and any number of
    well-formed constructs that pass their checks), a token that starts
    none, a [function], [implement] or [by_move] keyword, a parenthesis
    or an equals sign, makes [parse] raise
    UnrecognizedFileLevelConstruct with the kind of that token, whatever
    follows it. *)
Theorem unrecognized_construct_is_reported (toks : list Token)
    (prelude : option str) (cs : list Source.construct)
    (c : Token) (rest : list Token) :
  canon <$> toks
  = tokens_of_literal prelude ++ (cs ≫= tokens_of_construct) ++ c :: rest →
  Forall checked_construct cs →
  type_ c ∈ [FUNCTION; IMPLEMENT; BY_MOVE; LEFT_PARENTHESIS;
             RIGHT_PARENTHESIS; EQUALS] →
  parse toks = Raise (ParserError (UnrecognizedFileLevelConstruct (type_ c))).
Proof.
  intros Hspell Hchecked Hty.
  assert (type_ c ≠ PIPE ∧ type_ c ≠ STRING_LITERAL) as [Hpipe Hliteral].
  { split; intros Heq; rewrite Heq in Hty;
      repeat (apply elem_of_cons in Hty as [Hty|Hty]; [done|]);
      by apply elem_of_nil in Hty. }
  destruct (parse_constructs toks prelude cs c rest Hspell Hchecked Hpipe
              ltac:(done))
    as (p' & fuel' & _ & Hinput & ->).
  apply at_input_cons in Hinput as (tok & Htok & <- & _).
  rewrite type_canon in *.
  rewrite while_S, bind_assoc.
  by rewrite (bind_Raise _ _ _ _ (file_body_unrecognized _ _ _ _ Htok Hty)).
Qed.

(** An equals sign after a type definition. *)
Lemma unrecognized_construct_is_reported_witness :
  parse [mkToken TYPE "type"; mkToken IDENTIFIER "Id";
         mkToken STRING_LITERAL (quoted "int"); mkToken EQUALS "=";
         mkToken END_OF_INPUT ""]
  = Raise (ParserError (UnrecognizedFileLevelConstruct EQUALS)).
Proof.
  apply (unrecognized_construct_is_reported _ None
           [Source.TypeDefinition "Id" (quoted "int")]
           (symbol EQUALS) [symbol END_OF_INPUT]).
  - reflexivity.
  - by repeat constructor.
  - compute_done.
Defined.

(** ** A variant that fails its checks *)

Lemma construct_Raise {A B : Type} (r : outcome A) (f : A → M B) p e :
  r = Raise e → (construct r ≫= f) p = Raise e.
Proof. by intros ->. Qed.

Lemma sub_types_body_failing fuel fs s p bad rest e :
  at_input p (tokens_of_alternative bad ++ rest) →
  length (tokens p) < fuel →
  PolymorphicType.new (function_of <$> fs)
    (members_of_entries (Source.subtype_entries bad))
    (implementations_of_entries (Source.subtype_entries bad))
  = Raise e →
  sub_types_body fuel (function_of <$> fs) s p = Raise e.
Proof.
  intros Hinput Hfuel Hnew. unfold sub_types_body, tokens_of_alternative in *.
  simpl in Hinput. run_current Hinput.
  run_call (next_at_input _ _ _ Hinput).
  run_call (parse_subtype_at_input fuel _ _ _ Hinput0 ltac:(by rewrite Htokens)).
  by apply construct_Raise.
Qed.

Lemma parse_sub_types_failing fuel name base_type_members fs types p
    earlier bad rest e :
  at_input p (tokens_of_variants (earlier ++ [bad]) ++ rest) →
  length (tokens p) < fuel →
  Forall (checked_subtype fs) earlier →
  PolymorphicType.new (function_of <$> fs)
    (members_of_entries (Source.subtype_entries bad))
    (implementations_of_entries (Source.subtype_entries bad))
  = Raise e →
  parse_sub_types fuel name base_type_members (function_of <$> fs) types p
  = Raise e.
Proof.
  intros Hinput Hfuel Hchecked Hnew. unfold parse_sub_types.
  destruct earlier as [|first more].
  - simpl in Hinput. rewrite app_nil_r in Hinput.
    run_call (parse_subtype_at_input fuel _ _ _ Hinput Hfuel).
    by apply construct_Raise.
  - apply Forall_cons in Hchecked as [Hfirst Hmore].
    assert (tokens_of_variants ((first :: more) ++ [bad])
            = tokens_of_subtype first ++ (more ≫= tokens_of_alternative)
              ++ tokens_of_alternative bad) as Hvariants.
    { unfold tokens_of_variants. simpl. rewrite bind_app. simpl.
      by rewrite app_nil_r. }
    rewrite Hvariants, <-!(assoc_L (++)) in Hinput.
    run_call (parse_subtype_at_input fuel _ _ _ Hinput Hfuel).
    run_call (runs_construct _ _ _ _ (new_checked_subtype _ _ Hfirst) Hinput0).
    apply bind_Raise.
    assert (∃ rest', tokens_of_alternative bad ++ rest = symbol PIPE :: rest')
      as [rest' Heq] by by eexists.
    pose proof Hinput1 as Hinput'. rewrite Heq in Hinput'.
    destruct (while_items (sub_types_body fuel (function_of <$> fs))
                tokens_of_alternative (add_subtype (function_of <$> fs))
                (checked_subtype fs) (λ _, True) (tokens p1)
                tokens_of_alternative_head
                ltac:(intros s q st c' r' Hq ? _ ?;
                      apply sub_types_body_subtype;
                      [by rewrite Hq, Htokens0, Htokens|done..])
                more (dict_set (Source.subtype_name first)
                        (subtype_of (function_of <$> fs) first) [])
                p1 (symbol PIPE) rest' eq_refl Hmore I Hinput')
      as (p2 & Htokens2 & Hinput2 & Hwhile).
    assert (length more < fuel) as Hlen.
    { pose proof (length_bind_ge tokens_of_alternative more
                    (spell_nonempty _ _ tokens_of_alternative_head)).
      pose proof (length_remaining p1).
      apply at_input_length in Hinput1. rewrite length_app in Hinput1.
      rewrite Htokens0, Htokens in *. lia. }
    replace fuel with (length more + S (fuel - length more - 1)) at 1 by lia.
    rewrite Hwhile, while_S. apply bind_Raise. rewrite <-Heq in Hinput2.
    eapply sub_types_body_failing; [done| |done].
    by rewrite Htokens2, Htokens0, Htokens.
Qed.

Lemma file_body_failing fuel s p name ms fs earlier bad rest e :
  at_input p (tokens_of_header name ms fs
              ++ tokens_of_variants (earlier ++ [bad]) ++ rest) →
  length (tokens p) < fuel →
  Forall (checked_subtype fs) earlier →
  PolymorphicType.new (function_of <$> fs)
    (members_of_entries (Source.subtype_entries bad))
    (implementations_of_entries (Source.subtype_entries bad))
  = Raise e →
  file_body fuel s p = Raise e.
Proof.
  intros Hinput Hfuel Hearlier Hnew.
  destruct (parse_polymorphic_type_header fuel (polymorphic_types s) p
              _ _ _ _ Hinput Hfuel) as (p' & Htokens & Hinput' & Heq).
  unfold file_body.
  assert (∃ rest', tokens_of_header name ms fs
                   ++ tokens_of_variants (earlier ++ [bad]) ++ rest
                   = identifier name :: rest') as [rest' Hhead] by by eexists.
  rewrite Hhead in Hinput.
  rewrite (bind_Return _ _ _ _ _ (is_end_of_input_at_input _ _ _ Hinput)).
  simpl. run_current Hinput.
  apply bind_Raise. rewrite Heq.
  eapply parse_sub_types_failing; [done| |done..]. by rewrite Htokens.
Qed.

(** X7: the checks of a variant run as soon as its tokens are consumed:
    when the variants before it pass their checks, [parse] raises the
    error that the constructor raises for the first variant that fails
    them, whatever follows that variant.  (The constructs before the
    abstract type are well formed and pass their checks.) *)
Theorem failing_variant_is_reported (toks : list Token)
    (prelude : option str) (cs : list Source.construct)
    (name : str) (members : list Source.member)
    (functions : list Source.function)
    (earlier : list Source.subtype) (bad : Source.subtype)
    (rest : list Token) (e : exception) :
  canon <$> toks
  = tokens_of_literal prelude ++ (cs ≫= tokens_of_construct)
    ++ tokens_of_header name members functions
    ++ tokens_of_variants (earlier ++ [bad]) ++ rest →
  Forall checked_construct cs →
  Forall (checked_subtype functions) earlier →
  PolymorphicType.new (function_of <$> functions)
    (members_of_entries (Source.subtype_entries bad))
    (implementations_of_entries (Source.subtype_entries bad))
  = Raise e →
  parse toks = Raise e.
Proof.
  intros Hspell Hchecked Hearlier Hnew.
  assert (∃ rest', tokens_of_header name members functions
                   ++ tokens_of_variants (earlier ++ [bad]) ++ rest
                   = identifier name :: rest') as [rest' Hhead] by by eexists.
  rewrite Hhead in Hspell.
  destruct (parse_constructs toks prelude cs (identifier name) rest'
              Hspell Hchecked ltac:(done) ltac:(done))
    as (p' & fuel' & Htokens & Hinput & ->).
  rewrite while_S, bind_assoc. rewrite <-Hhead in Hinput.
  by rewrite (bind_Raise _ _ _ _
                (file_body_failing (S (length toks)) (state_after cs) p' _ _ _ _ _ _ _ Hinput
                   ltac:(rewrite Htokens; lia) Hearlier Hnew)).
Qed.

(** [Shape ( function area "double" ) = Circle ( implement area "a" )
     | Square ( )]: the second variant does not implement [area]. *)
Lemma failing_variant_is_reported_witness :
  parse [mkToken IDENTIFIER "Shape"; mkToken LEFT_PARENTHESIS "(";
         mkToken FUNCTION "function"; mkToken IDENTIFIER "area";
         mkToken STRING_LITERAL (quoted "double");
         mkToken RIGHT_PARENTHESIS ")"; mkToken EQUALS "=";
         mkToken IDENTIFIER "Circle"; mkToken LEFT_PARENTHESIS "(";
         mkToken IMPLEMENT "implement"; mkToken IDENTIFIER "area";
         mkToken STRING_LITERAL (quoted "a");
         mkToken RIGHT_PARENTHESIS ")";
         mkToken PIPE "|";
         mkToken IDENTIFIER "Square"; mkToken LEFT_PARENTHESIS "(";
         mkToken RIGHT_PARENTHESIS ")";
         mkToken END_OF_INPUT ""]
  = Raise (ParserError IncompleteOrExcessImplementation).
Proof.
  apply (failing_variant_is_reported _ None [] "Shape" []
           [Source.Function "area" (quoted "double")]
           [Source.Subtype "Circle"
              [Source.ImplementationEntry (Source.Implementation "area" (quoted "a"))]]
           (Source.Subtype "Square" [])
           [symbol END_OF_INPUT]).
  - reflexivity.
  - constructor.
  - repeat constructor; by apply (bool_decide_unpack _).
  - by vm_compute.
Defined.

(** ** Token sequences without an end-of-input token *)

Lemma file_loop_more_fuel fuel fuel1 fuel2 prelude s p :
  fuel1 ≤ fuel2 →
  (while fuel1 (file_body fuel) s ≫= parse_file_end prelude) p ≠ OutOfFuel →
  (while fuel1 (file_body fuel) s ≫= parse_file_end prelude) p
  = (while fuel2 (file_body fuel) s ≫= parse_file_end prelude) p.
Proof.
  intros Hle Hnever.
  by destruct (fuel_le_bind _ _ (parse_file_end prelude) (parse_file_end prelude)
                 (fuel_le_while (file_body fuel) (file_body fuel) _ _ Hle
                    (λ s, fuel_le_refl _) s)
                 (λ _, fuel_le_refl _) p).
Qed.

Lemma file_body_type_definition fuel s p name contents rest :
  at_input p (tokens_of_construct (Source.TypeDefinition name contents) ++ rest) →
  runs (file_body fuel s) p
    (Continue (add_construct s (Source.TypeDefinition name contents))) rest.
Proof.
  simpl. intros Hinput. unfold file_body.
  eapply runs_test; [exact (is_end_of_input_at_input _ _ _ Hinput)|].
  simpl. run_current Hinput. run_call (next_at_input _ _ _ Hinput).
  run_consume Hinput0. run_consume Hinput1. by apply runs_ret.
Qed.

Lemma sub_types_body_alternative fuel fs s p st rest :
  length (tokens p) < fuel → checked_subtype fs st →
  at_input p (tokens_of_alternative st ++ rest) →
  runs (sub_types_body fuel (function_of <$> fs) s) p
    (Continue (add_subtype (function_of <$> fs) s st)) rest.
Proof.
  intros Hfuel Hchecked Hinput. unfold sub_types_body, tokens_of_alternative in *.
  simpl in Hinput. run_current Hinput.
  run_call (next_at_input _ _ _ Hinput).
  run_call (parse_subtype_at_input fuel _ _ _ Hinput0 ltac:(by rewrite Htokens)).
  run_call (runs_construct _ _ _ _ (new_checked_subtype _ _ Hchecked) Hinput1).
  by apply runs_ret.
Qed.

(** With the last token consumed, the test for a further [|] reads past
    the end of the tokens. *)
Lemma sub_types_loop_truncated F fs more : ∀ fuel s p,
  at_input p (more ≫= tokens_of_alternative) →
  length (tokens p) < F → Forall (checked_subtype fs) more →
  length more < fuel →
  while fuel (sub_types_body F (function_of <$> fs)) s p = Raise IndexError.
Proof.
  induction more as [|st more IH]; intros fuel s p Hinput HF Hchecked Hfuel;
    (destruct fuel as [|fuel]; [simpl in Hfuel; lia|]); rewrite while_S.
  - apply bind_Raise. unfold sub_types_body. apply bind_Raise.
    by apply current_None, at_input_nil.
  - apply Forall_cons in Hchecked as [Hst Hmore]. rewrite bind_cons in Hinput.
    destruct (sub_types_body_alternative F fs s p st _ HF Hst Hinput)
      as (p' & Hbody & Htokens & Hinput').
    rewrite (bind_Return _ _ _ _ _ Hbody).
    apply IH; [done|by rewrite Htokens|done|simpl in Hfuel; lia].
Qed.

Lemma file_body_truncated fuel s p a :
  at_input p (tokens_of_abstract_type a) →
  length (tokens p) < fuel →
  Forall (checked_subtype (Source.abstract_functions a)) (Source.subtypes a) →
  file_body fuel s p = Raise IndexError.
Proof.
  intros Hinput Hfuel [Hfirst Hmore]%Forall_cons.
  pose proof Hinput as Hinput0. unfold tokens_of_abstract_type in Hinput0.
  destruct (parse_polymorphic_type_header fuel (polymorphic_types s) p
              _ _ _ _ Hinput0 Hfuel) as (p' & Htokens & Hinput' & Heq).
  unfold file_body.
  assert (∃ rest', tokens_of_abstract_type a
                   = identifier (Source.abstract_name a) :: rest')
    as [rest' Hhead] by by eexists.
  rewrite Hhead in Hinput.
  rewrite (bind_Return _ _ _ _ _ (is_end_of_input_at_input _ _ _ Hinput)).
  simpl. run_current Hinput.
  apply bind_Raise. rewrite Heq. unfold parse_sub_types.
  run_call (parse_subtype_at_input fuel _ _ _ Hinput' ltac:(by rewrite Htokens)).
  run_call (runs_construct _ _ _ _ (new_checked_subtype _ _ Hfirst) Hinput1).
  apply bind_Raise.
  apply (sub_types_loop_truncated fuel _ (Source.more_subtypes a));
    [done|by rewrite Htokens1, Htokens0, Htokens|done|].
  pose proof (length_bind_ge tokens_of_alternative (Source.more_subtypes a)
                (spell_nonempty _ _ tokens_of_alternative_head)).
  pose proof (length_remaining p1). apply at_input_length in Hinput2.
  rewrite Htokens1, Htokens0, Htokens in *.
  change (λ st, symbol PIPE :: tokens_of_subtype st) with tokens_of_alternative
    in *.
  lia.
Qed.

(** X8: the end-of-input token is needed after an abstract type only.
    On a token sequence that breaks off after a well-formed abstract
    type, [parse] raises [IndexError], not a [ParserError]: the test for
    a further [|] reads the current token without a test for the end of
    the tokens.  A sequence that breaks off after the prelude or after a
    type definition parses as if the end-of-input token were there.
    (The constructs are well formed and pass their checks.) *)
Theorem end_of_input_token_needed_after_abstract_type (toks : list Token)
    (prelude : option str) (cs : list Source.construct) :
  canon <$> toks = tokens_of_literal prelude ++ (cs ≫= tokens_of_construct) →
  Forall checked_construct cs →
  toks ≠ [] →
  parse toks
  = match last cs with
    | Some (Source.AbstractTypeDefinition _) => Raise IndexError
    | _ => Return (GeneratorDescription.new (text_of_literal prelude)
                     (type_definitions_of cs)
                     (dict_of_list (abstract_types_of cs)) "")
    end.
Proof.
  intros Hspell Hchecked Hne.
  destruct cs as [|x cs _] using rev_ind.
  - destruct prelude as [lexeme|]; simpl in Hspell.
    + apply fmap_cons_inv in Hspell as (tok & toks' & Htok & Hnil & ->).
      symmetry in Hnil. apply fmap_nil_inv in Hnil as ->.
      symmetry in Htok. apply canon_string_literal in Htok as ->. done.
    + by apply fmap_nil_inv in Hspell.
  - rewrite last_snoc. apply Forall_app in Hchecked as [Hcs Hx].
    rewrite Forall_singleton in Hx.
    rewrite bind_app, bind_cons in Hspell. simpl in Hspell.
    rewrite app_nil_r in Hspell.
    destruct (tokens_of_construct_head x) as (c & rest & Hhead & Hc).
    pose proof Hspell as Hspell'. rewrite Hhead in Hspell'.
    assert (type_ c ≠ STRING_LITERAL) as Hliteral.
    { destruct x; by injection Hhead as [= <- _]. }
    destruct (parse_constructs toks prelude cs c rest Hspell' Hcs Hc
                ltac:(done))
      as (p' & fuel' & Htokens & Hinput & Heq).
    rewrite <-Hhead in Hinput. destruct x as [name contents|a].
    + pose proof (parse_with_never_out_of_fuel (S (length toks)) toks
                    ltac:(lia)) as Hnever.
      fold (parse toks) in Hnever. rewrite Heq in Hnever |- *.
      rewrite (file_loop_more_fuel _ (S fuel') (S (S fuel')));
        [|lia|by intros Hout; rewrite Hout in Hnever].
      destruct (file_body_type_definition (S (length toks)) (state_after cs)
                  p' name contents [] Hinput)
        as (p1 & Hbody & Htokens1 & Hinput1).
      rewrite while_S, bind_assoc, (bind_Return _ _ _ _ _ Hbody).
      cbv beta iota. rewrite while_S, bind_assoc.
      assert (file_body (S (length toks))
                (add_construct (state_after cs)
                   (Source.TypeDefinition name contents)) p1
              = Return (Break (add_construct (state_after cs)
                                 (Source.TypeDefinition name contents)), p1))
        as Hbody1.
      { unfold file_body.
        by rewrite (bind_Return _ _ _ _ _ (is_end_of_input_at_nil _ Hinput1)). }
      rewrite (bind_Return _ _ _ _ _ Hbody1), ret_bind. unfold parse_file_end.
      rewrite (bind_Return _ _ _ _ _ (is_end_of_input_at_nil _ Hinput1)).
      simpl. unfold type_definitions_of, abstract_types_of.
      rewrite !omap_app. simpl. by rewrite app_nil_r.
    + rewrite Heq, while_S, bind_assoc.
      by rewrite (bind_Raise _ _ _ _
                    (file_body_truncated (S (length toks)) (state_after cs) p' a
                       Hinput ltac:(rewrite Htokens; lia) Hx)).
Qed.

(** The sample abstract type without the postlude and the end-of-input
    token after it. *)
Lemma end_of_input_token_needed_after_abstract_type_witness :
  parse (take 26 shape_tokens) = Raise IndexError.
Proof.
  apply (end_of_input_token_needed_after_abstract_type (take 26 shape_tokens)
           (Some (quoted "prelude text"))
           [Source.AbstractTypeDefinition shape_abstract_type]).
  - reflexivity.
  - compute_done.
  - discriminate.
Defined.

(** ** The abstract types of a description that [parse] returns *)

Lemma new_well_formed_variant functions members implementations v :
  PolymorphicType.new functions members implementations = Return v →
  NoDup (PureVirtualFunction.name <$> functions)
  ∧ well_formed_variant functions v.
Proof.
  intros (-> & Hdecl & Himpl & Heq)%new_inv. split; [done|]. split; [done|].
  simpl. apply NoDup_Permutation; [done..|].
  intros x. by rewrite <-!elem_of_name_set, Heq.
Qed.

Lemma dict_set_nonempty {V : Type} k (v : V) (d : dict V) : dict_set k v d ≠ [].
Proof. destruct d as [|[k' v'] d]; simpl; [done|]. by case_decide. Qed.

Lemma well_formed_variants_set functions name v sub_types :
  (sub_types = [] ∨ well_formed_variants functions sub_types) →
  well_formed_variant functions v →
  well_formed_variants functions (dict_set name v sub_types).
Proof.
  intros Hs Hv. split_and!.
  - apply dict_set_nonempty.
  - apply NoDup_dict_keys_set. destruct Hs as [->|(_ & ? & _)]; [constructor|done].
  - apply Forall_dict_set; [|done].
    destruct Hs as [->|(_ & _ & ?)]; [constructor|done].
Qed.

Lemma sub_types_body_well_formed fuel functions s p r p' :
  well_formed_variants functions s →
  sub_types_body fuel functions s p = Return (r, p') →
  well_formed_variants functions (flow_state r).
Proof.
  intros Hs H. unfold sub_types_body in H. invert_M; simpl; [|done].
  apply well_formed_variants_set; [by right|].
  by eapply new_well_formed_variant.
Qed.

Lemma parse_polymorphic_type_well_formed fuel types p types' p' :
  well_formed_abstract_types types →
  parse_polymorphic_type fuel types p = Return (types', p') →
  well_formed_abstract_types types'.
Proof.
  intros [Hkeys Htypes] H. unfold parse_polymorphic_type in H. invert_M.
  match goal with
  | Hnew : PolymorphicType.new _ _ _ = Return _ |- _ =>
      apply new_well_formed_variant in Hnew as [Hdecl Hfirst]
  end.
  split; [by apply NoDup_dict_keys_set|].
  apply Forall_dict_set; [done|]. split; [done|]. simpl.
  match goal with
  | Hloop : while _ (sub_types_body _ ?fs) _ _ = Return _ |- _ =>
      eapply (while_invariant (λ s _, well_formed_variants fs s));
        [| |exact Hloop]
  end.
  - intros ? ? ? ? ? ?. by eapply sub_types_body_well_formed.
  - apply well_formed_variants_set; [by left|done].
Qed.

Lemma file_body_well_formed fuel s p r p' :
  well_formed_abstract_types (polymorphic_types s) →
  file_body fuel s p = Return (r, p') →
  well_formed_abstract_types (polymorphic_types (flow_state r)).
Proof.
  intros Hs H. unfold file_body in H. invert_M; [done|].
  match goal with
  | H : context [type_ ?tok] |- _ => destruct (type_ tok)
  end; invert_M; simpl; try done.
  by eapply parse_polymorphic_type_well_formed.
Qed.

Lemma parse_well_formed toks description :
  parse toks = Return description →
  well_formed_abstract_types (GeneratorDescription.abstract_types description).
Proof.
  unfold parse, parse_with.
  destruct (parse_file _ (Parser_init toks)) as [[d q]| |] eqn:H; [|done..].
  intros [= <-]. unfold parse_file in H.
  apply bind_inv in H as (tok & q0 & _ & H).
  apply bind_inv in H as (prelude & q1 & _ & H).
  apply bind_inv in H as (s & q2 & Hloop & H). invert_M. simpl.
  eapply (while_invariant
            (λ s _, well_formed_abstract_types (polymorphic_types s)));
    [| |exact Hloop].
  - intros ? ? ? ? ? ?. by eapply file_body_well_formed.
  - split; constructor.
Qed.

(** X9: in every description that [parse] returns, whatever the tokens,
    no abstract type and, within an abstract type, no variant is listed
    twice; every abstract type has at least one variant and declares no
    operation twice; and every variant holds the list of operations of
    its abstract type and implements each of them once: the names of its
    implementations are the names of the operations, up to their
    order. *)
Theorem returned_abstract_types_are_well_formed (toks : list Token)
    (description : GeneratorDescription.t) :
  parse toks = Return description →
  NoDup (dict_keys (GeneratorDescription.abstract_types description))
  ∧ ∀ name abstract_type,
      (name, abstract_type) ∈ GeneratorDescription.abstract_types description →
      AbstractType.sub_types abstract_type ≠ []
      ∧ NoDup (dict_keys (AbstractType.sub_types abstract_type))
      ∧ NoDup (PureVirtualFunction.name
                 <$> AbstractType.pure_virtual_functions abstract_type)
      ∧ ∀ variant_name variant,
          (variant_name, variant) ∈ AbstractType.sub_types abstract_type →
          PolymorphicType.pure_virtual_functions variant
          = AbstractType.pure_virtual_functions abstract_type
          ∧ Implementation.name <$> PolymorphicType.implementations variant
            ≡ₚ PureVirtualFunction.name
                 <$> AbstractType.pure_virtual_functions abstract_type.
Proof.
  intros [Hkeys Htypes]%parse_well_formed. split; [done|].
  intros name abstract_type Hin. rewrite Forall_forall in Htypes.
  destruct (Htypes _ Hin) as (Hdecl & Hne & Hvariants & Hall).
  split_and!; [done..|].
  intros variant_name variant Hv. rewrite Forall_forall in Hall.
  apply (Hall _ Hv).
Qed.

(** On the sample input: the variant [Square] of [Shape]. *)
Lemma returned_abstract_types_are_well_formed_witness :
  Implementation.name <$> [Implementation.new "area" "return side*side;"]
  ≡ₚ PureVirtualFunction.name <$> [PureVirtualFunction.new "area" (Some ("double" : str))].
Proof.
  refine (proj2 (proj2 (proj2 (proj2 (proj2
            (returned_abstract_types_are_well_formed shape_tokens
               (description_of shape_file) eq_refl)
            "Shape" (abstract_type_of shape_abstract_type) _)))
            "Square"
            (PolymorphicType.mk
               [PureVirtualFunction.new "area" (Some ("double" : str))]
               [Member.new "side" true "double"]
               [Implementation.new "area" "return side*side;"]) _)).
  - apply list_elem_of_here.
  - apply list_elem_of_further, list_elem_of_here.
Defined.

(** ** Where the parts of a description come from *)

(** The token a returned call has read is a token of the input. *)
Ltac find_token :=
  match goal with
  | Htok : tokens _ !! _ = Some ?tok |- identifier_of _ _ =>
      exists tok; split_and!;
        [eapply list_elem_of_lookup_2; exact Htok|eassumption|reflexivity]
  | Htok : tokens _ !! _ = Some ?tok |- literal_of _ _ =>
      exists tok; split_and!;
        [eapply list_elem_of_lookup_2; exact Htok|eassumption|reflexivity]
  end.

Lemma parse_data_member_from p m p' :
  parse_data_member p = Return (m, p') → member_from (tokens p) m.
Proof.
  unfold parse_data_member. intros H. invert_M; split; simpl; find_token.
Qed.

Lemma parse_implementation_from p i p' :
  parse_implementation p = Return (i, p') → implementation_from (tokens p) i.
Proof.
  unfold parse_implementation. intros H. invert_M; split; simpl; find_token.
Qed.

(** A loop keeps what holds of its variables for the tokens it reads. *)
Lemma while_from {S : Type} (P : list Token → S → Prop) (body : S → M (flow S)) :
  (∀ s q r q', body s q = Return (r, q') → follows q q') →
  (∀ s q r q', P (tokens q) s → body s q = Return (r, q') →
               P (tokens q) (flow_state r)) →
  ∀ fuel s p s' p',
    P (tokens p) s → while fuel body s p = Return (s', p') →
    tokens p' = tokens p ∧ P (tokens p) s'.
Proof.
  intros Hfollows Hbody fuel s p s' p' Hs H.
  eapply (while_invariant (λ s q, tokens q = tokens p ∧ P (tokens p) s));
    [|by split|exact H].
  intros s0 q r q' [Hq Hs0] Hr. destruct (Hfollows _ _ _ _ Hr) as [Hq' _].
  split; [by rewrite Hq'|]. rewrite <-Hq. apply (Hbody s0 q r q'); [|done].
  by rewrite Hq.
Qed.

Lemma subtype_body_from s p r p' :
  Forall (member_from (tokens p)) s.1
  ∧ Forall (implementation_from (tokens p)) s.2 →
  subtype_body s p = Return (r, p') →
  Forall (member_from (tokens p)) (flow_state r).1
  ∧ Forall (implementation_from (tokens p)) (flow_state r).2.
Proof.
  intros [Hmembers Himplementations] H. unfold subtype_body in H.
  invert_M; simpl in *; [| |done].
  - split; [|done]. apply Forall_app. split; [done|].
    apply Forall_singleton. by eapply parse_data_member_from.
  - split; [done|]. apply Forall_app. split; [done|].
    apply Forall_singleton. by eapply parse_implementation_from.
Qed.

Lemma parse_subtype_from fuel p name members implementations p' :
  parse_subtype fuel p = Return (name, members, implementations, p') →
  variant_from (tokens p)
    (name, PolymorphicType.mk [] members implementations).
Proof.
  unfold parse_subtype. intros H. invert_M. simpl in *.
  match goal with
  | Hloop : while _ subtype_body _ _ = Return _ |- _ =>
      apply (while_from (λ toks s, Forall (member_from toks) s.1
                                   ∧ Forall (implementation_from toks) s.2))
        in Hloop as [_ [Hmembers Himplementations]];
        [|apply body_follows, subtype_body_advanced
         |intros ? ? ? ?; apply subtype_body_from
         |by split]
  end.
  simplify_eq. split_and!; [find_token|done..].
Qed.

Lemma base_type_members_body_from s p r p' :
  Forall (member_from (tokens p)) s →
  base_type_members_body s p = Return (r, p') →
  Forall (member_from (tokens p)) (flow_state r).
Proof.
  intros Hs H. unfold base_type_members_body in H.
  invert_M; simpl in *; [|done].
  apply Forall_app. split; [done|].
  apply Forall_singleton. by eapply parse_data_member_from.
Qed.

Lemma functions_body_from s p r p' :
  Forall (function_from (tokens p)) s →
  functions_body s p = Return (r, p') →
  Forall (function_from (tokens p)) (flow_state r).
Proof.
  intros Hs H. unfold functions_body in H.
  invert_M; simpl in *; [|done].
  apply Forall_app. split; [done|]. apply Forall_singleton.
  split; simpl; [find_token|].
  rewrite return_type_of_text.
  match goal with
  | Htok : tokens _ !! _ = Some ?tok, Hty : type_ ?tok = STRING_LITERAL |- _ =>
      destruct (decide (unquote (lexeme tok) = "")) as [Htext|Htext];
        [exists tok; split_and!; [by eapply list_elem_of_lookup_2|done..]|]
  end.
  split; [done|find_token].
Qed.

Lemma Forall_dict_set_entry {V : Type} (P : str * V → Prop) k v (d : dict V) :
  Forall P d → P (k, v) → Forall P (dict_set k v d).
Proof.
  intros Hd Hv. induction Hd as [|[k' v'] d' Hv' Hd' IH]; simpl.
  - by repeat constructor.
  - case_decide; [subst|]; by constructor.
Qed.

Lemma sub_types_body_from fuel functions s p r p' :
  Forall (variant_from (tokens p)) s →
  sub_types_body fuel functions s p = Return (r, p') →
  Forall (variant_from (tokens p)) (flow_state r).
Proof.
  intros Hs H. unfold sub_types_body in H. invert_M; simpl in *; [|done].
  match goal with
  | Hnew : PolymorphicType.new _ _ _ = Return _ |- _ =>
      apply new_inv in Hnew as (-> & _)
  end.
  match goal with
  | Hsub : parse_subtype _ _ = Return _ |- _ =>
      apply parse_subtype_from in Hsub as (? & ? & ?)
  end.
  apply Forall_dict_set_entry; [done|]. by split_and!.
Qed.

Lemma parse_polymorphic_type_from fuel types p types' p' :
  Forall (abstract_type_from (tokens p)) types →
  parse_polymorphic_type fuel types p = Return (types', p') →
  Forall (abstract_type_from (tokens p)) types'.
Proof.
  intros Htypes H. unfold parse_polymorphic_type in H. invert_M.
  repeat match goal with
  | Hloop : while _ base_type_members_body _ _ = Return _ |- _ =>
      apply (while_from (λ toks s, Forall (member_from toks) s)) in Hloop
        as [Htokens_members Hmembers];
        [|apply body_follows, base_type_members_body_advanced
         |intros ? ? ? ?; apply base_type_members_body_from
         |constructor]
  | Hloop : while _ functions_body _ _ = Return _ |- _ =>
      apply (while_from (λ toks s, Forall (function_from toks) s)) in Hloop
        as [Htokens_functions Hfunctions];
        [|apply body_follows, functions_body_advanced
         |intros ? ? ? ?; apply functions_body_from
         |constructor]
  end.
  match goal with
  | Hsub : parse_subtype _ _ = Return _ |- _ =>
      pose proof (parse_subtype_advanced _ _ _ _ Hsub) as (Htokens_first & _);
      apply parse_subtype_from in Hsub as (Hname & Hfirst_members & Hfirst_impls)
  end.
  match goal with
  | Hnew : PolymorphicType.new _ _ _ = Return _ |- _ =>
      apply new_inv in Hnew as (-> & _)
  end.
  simpl in *. rewrite Htokens_members in *. rewrite Htokens_functions in *.
  match goal with
  | Hloop : while _ (sub_types_body _ _) _ _ = Return _ |- _ =>
      apply (while_from (λ toks s, Forall (variant_from toks) s)) in Hloop
        as [_ Hvariants];
        [|apply body_follows, sub_types_body_advanced
         |intros ? ? ? ?; apply sub_types_body_from
         |rewrite Htokens_first;
          apply (Forall_dict_set_entry _ _ _ []); [constructor|by split_and!]]
  end.
  rewrite Htokens_first in Hvariants.
  apply Forall_dict_set_entry; [done|]. split_and!; [find_token|done..].
Qed.

Lemma file_body_from fuel s p r p' :
  file_state_from (tokens p) s →
  file_body fuel s p = Return (r, p') →
  file_state_from (tokens p) (flow_state r).
Proof.
  intros (Hdefinitions & Htypes & Hpostlude) H. unfold file_body in H.
  invert_M; [done|].
  match goal with
  | H : context [type_ ?tok] |- _ => destruct (type_ tok) eqn:Hkind
  end; invert_M; simplify_eq; simpl in *.
  - split_and!; [done| |done]. by eapply parse_polymorphic_type_from.
  - split_and!; [done..|]. right. find_token.
  - split_and!; [|done..]. apply Forall_app. split; [done|].
    apply Forall_singleton. split; simpl; find_token.
Qed.

Lemma parse_file_from fuel p description p' :
  parse_file fuel p = Return (description, p') →
  (GeneratorDescription.prelude description = ""
   ∨ literal_of (tokens p) (GeneratorDescription.prelude description))
  ∧ file_state_from (tokens p)
      (mkFileState (GeneratorDescription.type_definitions description)
         (GeneratorDescription.abstract_types description)
         (GeneratorDescription.postlude description)).
Proof.
  unfold parse_file. intros H.
  apply bind_inv in H as (tok & q0 & [-> Htok]%current_inv & H).
  apply bind_inv in H as (prelude & q1 & Hprelude & H).
  apply bind_inv in H as (s & q2 & Hloop & H).
  apply bind_inv in H as (b & q3 & [-> _]%is_end_of_input_inv & H).
  destruct b; [|done]. apply ret_inv in H as [-> ->]. simpl.
  assert (tokens q1 = tokens p
          ∧ (prelude = "" ∨ literal_of (tokens p) prelude)) as [Hq1 Hfrom].
  { destruct (decide (type_ tok = STRING_LITERAL)); invert_M; simplify_eq;
      simpl.
    - split; [done|]. right. find_token.
    - split; [done|]. by left. }
  split; [done|].
  apply (while_from file_state_from) in Hloop as [_ Hstate].
  - rewrite Hq1 in Hstate. by destruct s.
  - intros s0 q r q' Hbody. apply file_body_advanced in Hbody.
    destruct r; eauto with cursor.
  - intros ? ? ? ?. apply file_body_from.
  - split_and!; [constructor..|by left].
Qed.

(** X10: [parse] makes a description of nothing but the tokens: every
    name in it (of a type definition, an abstract type, a variant, a
    member, an operation, an implementation) is the lexeme of an
    identifier of the input, and every text in it (the prelude and the
    postlude unless empty, the contents of a type definition, the type of
    a member, the return type of an operation, the body of an
    implementation) is the unquoted lexeme of a string literal of the
    input; an operation has no return type exactly when that text is
    empty, so a return type that is present is never the empty
    string. *)
Theorem description_is_made_of_the_tokens (toks : list Token)
    (description : GeneratorDescription.t) :
  parse toks = Return description →
  (GeneratorDescription.prelude description = ""
   ∨ literal_of toks (GeneratorDescription.prelude description))
  ∧ (GeneratorDescription.postlude description = ""
     ∨ literal_of toks (GeneratorDescription.postlude description))
  ∧ (∀ name contents,
       (name, contents) ∈ GeneratorDescription.type_definitions description →
       identifier_of toks name ∧ literal_of toks contents)
  ∧ (∀ name abstract_type,
       (name, abstract_type) ∈ GeneratorDescription.abstract_types description →
       identifier_of toks name
       ∧ Forall (member_from toks) (AbstractType.members abstract_type)
       ∧ Forall (function_from toks)
           (AbstractType.pure_virtual_functions abstract_type)
       ∧ ∀ variant_name variant,
           (variant_name, variant) ∈ AbstractType.sub_types abstract_type →
           identifier_of toks variant_name
           ∧ Forall (member_from toks) (PolymorphicType.members variant)
           ∧ Forall (implementation_from toks)
               (PolymorphicType.implementations variant)).
Proof.
  unfold parse, parse_with.
  destruct (parse_file _ (Parser_init toks)) as [[d q]| |] eqn:H; [|done..].
  intros [= <-].
  apply parse_file_from in H as (Hprelude & Hdefinitions & Htypes & Hpostlude).
  simpl in *. split_and!; [done..| |].
  - intros name contents Hin. rewrite Forall_forall in Hdefinitions.
    apply (Hdefinitions _ Hin).
  - intros name abstract_type Hin. rewrite Forall_forall in Htypes.
    destruct (Htypes _ Hin) as (Hname & Hmembers & Hfunctions & Hvariants).
    split_and!; [done..|]. intros variant_name variant Hv.
    rewrite Forall_forall in Hvariants. apply (Hvariants _ Hv).
Qed.

(** On the sample input, the postlude is the unquoted lexeme of a string
    literal of the input. *)
Lemma description_is_made_of_the_tokens_witness :
  literal_of shape_tokens "postlude text".
Proof.
  destruct (proj1 (proj2 (description_is_made_of_the_tokens shape_tokens
                            (description_of shape_file) eq_refl)))
    as [Hempty|Hliteral]; [discriminate Hempty|exact Hliteral].
Defined.

(** ** The productions of a member and of an implementation *)

Lemma consume_kind ty p tok :
  tokens p !! index p = Some tok → type_ tok = ty → ty ≠ END_OF_INPUT →
  consume ty p = Return (tok, advance 1 p).
Proof. intros Htok <- Hty. by apply consume_match. Qed.

Lemma advance_1_1 p : advance 1 (advance 1 p) = advance 2 p.
Proof. by rewrite advance_advance. Qed.

Lemma advance_1_1_1 p : advance 1 (advance 1 (advance 1 p)) = advance 3 p.
Proof. by rewrite !advance_advance. Qed.

(** X11: [parse_implementation] returns exactly on the three tokens
    [implement], identifier, string literal: it then returns the
    implementation of that name with the unquoted literal as its body,
    and leaves the cursor three tokens further. *)
Theorem parse_implementation_returns_iff (p : Parser)
    (i : Implementation.t) (p' : Parser) :
  parse_implementation p = Return (i, p')
  ↔ ∃ keyword name body,
      tokens p !! index p = Some keyword ∧ type_ keyword = IMPLEMENT
      ∧ tokens p !! (index p + 1) = Some name ∧ type_ name = IDENTIFIER
      ∧ tokens p !! (index p + 2) = Some body ∧ type_ body = STRING_LITERAL
      ∧ i = Implementation.new (lexeme name) (unquote (lexeme body))
      ∧ p' = advance 3 p.
Proof.
  unfold parse_implementation. split.
  - intros H. invert_M. simpl in * |-.
    rewrite <-?(assoc_L Nat.add) in *. simpl in * |-.
    eexists _, _, _. split_and!; [eassumption..|reflexivity|].
    apply advance_1_1_1.
  - intros (keyword & name & body & Hkeyword & Hkw & Hname & Hid & Hbody
            & Hliteral & -> & ->).
    rewrite (bind_Return _ _ _ _ _ (consume_kind _ _ _ Hkeyword Hkw ltac:(done))).
    rewrite (bind_Return _ _ _ _ _
               (consume_kind _ (advance 1 p) _ Hname Hid ltac:(done))).
    replace (index p + 2) with (index p + 1 + 1) in Hbody by lia.
    rewrite (bind_Return _ _ _ _ _
               (consume_kind _ (advance 1 (advance 1 p)) _ Hbody Hliteral
                  ltac:(done))).
    by rewrite advance_1_1_1.
Qed.

(** The implementation of [area] in [Circle], the tokens 12 to 14 of the
    sample input. *)
Lemma parse_implementation_returns_iff_witness :
  parse_implementation (mkParser shape_tokens 12)
  = Return (Implementation.new "area" "return 3.14*radius*radius;",
            mkParser shape_tokens 15).
Proof.
  apply (proj2 (parse_implementation_returns_iff (mkParser shape_tokens 12)
                  (Implementation.new "area" "return 3.14*radius*radius;")
                  (mkParser shape_tokens 15))).
  exists (mkToken IMPLEMENT "implement"), (mkToken IDENTIFIER "area"),
    (mkToken STRING_LITERAL (quoted "  return 3.14*radius*radius;  ")).
  by split_and!.
Defined.

(** X12: [parse_data_member] returns exactly on an identifier followed
    by a string literal, with or without [by_move] between them: it then
    returns the member of that name, with the unquoted literal as its
    type and the flag that tells whether [by_move] was there, and leaves
    the cursor after the literal.  On an identifier that is the last
    token it raises [IndexError]: the test for [by_move] reads the
    current token without a test for the end of the tokens. *)
Theorem parse_data_member_returns_iff (p : Parser) :
  (∀ m p',
     parse_data_member p = Return (m, p')
     ↔ ∃ name ty,
         tokens p !! index p = Some name ∧ type_ name = IDENTIFIER
         ∧ type_ ty = STRING_LITERAL
         ∧ m = Member.new (lexeme name) (Member.by_move m) (unquote (lexeme ty))
         ∧ if Member.by_move m
           then (∃ keyword, tokens p !! (index p + 1) = Some keyword
                            ∧ type_ keyword = BY_MOVE)
                ∧ tokens p !! (index p + 2) = Some ty
                ∧ p' = advance 3 p
           else tokens p !! (index p + 1) = Some ty
                ∧ p' = advance 2 p)
  ∧ (∀ name,
       tokens p !! index p = Some name → type_ name = IDENTIFIER →
       length (tokens p) = index p + 1 →
       parse_data_member p = Raise IndexError).
Proof.
  unfold parse_data_member. split.
  - intros m p'. split.
    + intros H. invert_M; simpl in * |-;
        rewrite <-?(assoc_L Nat.add) in *; simpl in * |-;
        apply bool_decide_eq_true in E || apply bool_decide_eq_false in E;
        eexists _, _; (split_and!; [eassumption..|reflexivity|]); simpl.
      * split_and!; [by eexists|done|apply advance_1_1_1].
      * split; [done|apply advance_1_1].
    + intros (name & ty & Hname & Hid & Hliteral & -> & Hshape). simpl in Hshape.
      rewrite (bind_Return _ _ _ _ _ (consume_kind _ _ _ Hname Hid ltac:(done))).
      destruct (Member.by_move m).
      * destruct Hshape as ((keyword & Hkeyword & Hkw) & Hty & ->).
        rewrite (bind_Return _ _ _ _ _
                   (current_Some (advance 1 p) _ Hkeyword)).
        rewrite bool_decide_true by done.
        rewrite (bind_Return _ _ _ _ _ (next_eq _)).
        replace (index p + 2) with (index p + 1 + 1) in Hty by lia.
        rewrite (bind_Return _ _ _ _ _
                   (consume_kind _ (advance 1 (advance 1 p)) _ Hty Hliteral
                      ltac:(done))).
        by rewrite advance_1_1_1.
      * destruct Hshape as (Hty & ->).
        rewrite (bind_Return _ _ _ _ _ (current_Some (advance 1 p) _ Hty)).
        rewrite bool_decide_false by (by rewrite Hliteral).
        rewrite ret_bind.
        rewrite (bind_Return _ _ _ _ _
                   (consume_kind _ (advance 1 p) _ Hty Hliteral ltac:(done))).
        by rewrite advance_1_1.
  - intros name Hname Hid Hlen.
    rewrite (bind_Return _ _ _ _ _ (consume_kind _ _ _ Hname Hid ltac:(done))).
    apply bind_Raise, current_None. simpl. lia.
Qed.

(** A member name as the last token. *)
Lemma parse_data_member_returns_iff_witness :
  parse_data_member (mkParser [mkToken IDENTIFIER "radius"] 0) = Raise IndexError.
Proof.
  by apply (proj2 (parse_data_member_returns_iff
                     (mkParser [mkToken IDENTIFIER "radius"] 0))
              (mkToken IDENTIFIER "radius")).
Defined.

(** ** The printed form of a member and of a variant *)

Lemma prefix_unique (stop : char → bool) (a : str) : ∀ (b x y : str),
  free_of stop a = true → free_of stop b = true →
  stops_at stop x = true → stops_at stop y = true →
  a ++ x = b ++ y → a = b ∧ x = y.
Proof.
  induction a as [|c a IH]; intros [|d b] x y Ha Hb Hx Hy Heq;
    simpl in Heq, Ha, Hb.
  - done.
  - subst x. simpl in Hx. apply andb_true_iff in Hb as [Hd _].
    rewrite Hx in Hd. done.
  - subst y. simpl in Hy. apply andb_true_iff in Ha as [Hc _].
    rewrite Hy in Hc. done.
  - injection Heq as [= -> Heq].
    apply andb_true_iff in Ha as [_ Ha]. apply andb_true_iff in Hb as [_ Hb].
    destruct (IH b x y Ha Hb Hx Hy Heq) as [-> ->]. done.
Qed.


Lemma Member_str_inj m1 m2 :
  free_of ends_name (Member.name m1) = true →
  free_of ends_name (Member.name m2) = true →
  Member_str m1 = Member_str m2 → m1 = m2.
Proof.
  destruct m1 as [name1 by_move1 type1], m2 as [name2 by_move2 type2].
  unfold Member_str. simpl. intros Hname1 Hname2 Heq.
  apply (prefix_unique ends_name) in Heq as [-> Heq];
    [|done..|by destruct by_move1|by destruct by_move2].
  destruct by_move1, by_move2; simpl in Heq; by simplify_eq.
Qed.

(** X13: the printed form of a member tells the member, for names as
    identifiers are: two members whose names have neither a space nor a
    colon and that print alike are the same member, in name, flag and
    type.  For other names it does not: the member [a by_move] of type
    [int] prints like the member [a], moved, of type [int]. *)
Theorem Member_str_tells_the_member :
  (∀ m1 m2 : Member.t,
     free_of ends_name (Member.name m1) = true →
     free_of ends_name (Member.name m2) = true →
     Member_str m1 = Member_str m2 → m1 = m2)
  ∧ Member_str (Member.new "a by_move" false "int")
    = Member_str (Member.new "a" true "int").
Proof. split; [apply Member_str_inj|done]. Qed.

(** [side by_move: double] and [side: double] are two members. *)
Lemma Member_str_tells_the_member_witness :
  Member_str (Member.new "side" true "double")
  ≠ Member_str (Member.new "side" false "double").
Proof.
  intros Heq.
  by apply (proj1 Member_str_tells_the_member
              (Member.new "side" true "double")
              (Member.new "side" false "double") eq_refl eq_refl) in Heq.
Defined.






(** ** What [parse] accepts *)

Lemma base_type_members_body_reads s p s' p' :
  base_type_members_body s p = Return (Continue s', p') →
  ∃ m, reads p p' (tokens_of_member m) ∧ True ∧ s' = s ++ [member_of m].
Proof.
  unfold base_type_members_body. intros H. invert_M; simplify_eq.
  match goal with
  | Hm : parse_data_member _ = Return _ |- _ =>
      apply parse_data_member_reads in Hm as (sm & Hreads & ->)
  end.
  by exists sm.
Qed.

Lemma base_type_members_body_stops s p s' p' :
  base_type_members_body s p = Return (Break s', p') → p' = p ∧ s' = s.
Proof.
  unfold base_type_members_body. intros H. invert_M; by simplify_eq.
Qed.

Lemma functions_body_reads s p s' p' :
  functions_body s p = Return (Continue s', p') →
  ∃ f, reads p p' (tokens_of_function f) ∧ True ∧ s' = s ++ [function_of f].
Proof.
  unfold functions_body. intros H. invert_M; simplify_eq.
  match goal with
  | Hname : _ !! _ = Some ?name, Hid : type_ ?name = IDENTIFIER,
    Hty : _ !! _ = Some ?ty, Hliteral : type_ ?ty = STRING_LITERAL |- _ =>
      exists (Source.Function (lexeme name) (lexeme ty))
  end.
  split_and!; [|done|].
  - unfold tokens_of_function. simpl. read_tokens.
  - unfold function_of. simpl. by rewrite return_type_of_text.
Qed.

Lemma functions_body_stops s p s' p' :
  functions_body s p = Return (Break s', p') → p' = p ∧ s' = s.
Proof. unfold functions_body. intros H. invert_M; by simplify_eq. Qed.

Lemma new_inv_checked_subtype fs st v :
  PolymorphicType.new (function_of <$> fs)
    (members_of_entries (Source.subtype_entries st))
    (implementations_of_entries (Source.subtype_entries st))
  = Return v →
  checked_subtype fs st ∧ v = subtype_of (function_of <$> fs) st.
Proof.
  intros (-> & Hdecl & Himpl & Heq)%new_inv. rewrite function_names in *.
  by split.
Qed.

Lemma sub_types_body_reads fuel fs s p s' p' :
  sub_types_body fuel (function_of <$> fs) s p = Return (Continue s', p') →
  ∃ st, reads p p' (tokens_of_alternative st) ∧ checked_subtype fs st
        ∧ s' = add_subtype (function_of <$> fs) s st.
Proof.
  unfold sub_types_body. intros H. invert_M; simplify_eq.
  match goal with
  | Hsub : parse_subtype _ _ = Return _ |- _ =>
      apply parse_subtype_reads in Hsub as (st & Hreads & -> & -> & ->)
  end.
  match goal with
  | Hnew : PolymorphicType.new _ _ _ = Return _ |- _ =>
      apply new_inv_checked_subtype in Hnew as [Hchecked ->]
  end.
  exists st. split_and!; [|done..]. unfold tokens_of_alternative.
  eapply reads_step; [eassumption|by apply canon_symbol|done].
Qed.

Lemma sub_types_body_stops fuel functions s p s' p' :
  sub_types_body fuel functions s p = Return (Break s', p') → p' = p ∧ s' = s.
Proof. unfold sub_types_body. intros H. invert_M; by simplify_eq. Qed.

Lemma parse_polymorphic_type_reads fuel types p types' p' :
  parse_polymorphic_type fuel types p = Return (types', p') →
  ∃ a, reads p p' (tokens_of_abstract_type a)
       ∧ checked_construct (Source.AbstractTypeDefinition a)
       ∧ types' = dict_set (Source.abstract_name a) (abstract_type_of a) types.
Proof.
  unfold parse_polymorphic_type. intros H. invert_M.
  match goal with
  | Hloop : while _ base_type_members_body _ _ = Return _ |- _ =>
      apply (while_reads base_type_members_body tokens_of_member
               (λ s m, s ++ [member_of m]) (λ _, True)
               (λ s p s' p', p' = p ∧ s' = s)
               base_type_members_body_reads base_type_members_body_stops)
        in Hloop as (ms & ? & Hms & _ & -> & ->)
  end.
  match goal with
  | Hloop : while _ functions_body _ _ = Return _ |- _ =>
      apply (while_reads functions_body tokens_of_function
               (λ s f, s ++ [function_of f]) (λ _, True)
               (λ s p s' p', p' = p ∧ s' = s)
               functions_body_reads functions_body_stops)
        in Hloop as (fs & ? & Hfs & _ & -> & ->)
  end.
  rewrite !foldl_append_fmap in *. simpl in * |-.
  match goal with
  | Hsub : parse_subtype _ _ = Return _ |- _ =>
      apply parse_subtype_reads in Hsub as (first & Hfirst & -> & -> & ->)
  end.
  match goal with
  | Hnew : PolymorphicType.new _ _ _ = Return _ |- _ =>
      apply new_inv_checked_subtype in Hnew as [Hchecked ->]
  end.
  match goal with
  | Hloop : while _ (sub_types_body _ _) _ _ = Return _ |- _ =>
      apply (while_reads (sub_types_body fuel (function_of <$> fs))
               tokens_of_alternative (add_subtype (function_of <$> fs))
               (checked_subtype fs) (λ s p s' p', p' = p ∧ s' = s)
               (sub_types_body_reads fuel fs)
               (sub_types_body_stops fuel (function_of <$> fs)))
        in Hloop as (more & ? & Hmore & Hcheckeds & -> & ->)
  end.
  match goal with
  | Hname : tokens p !! index p = Some ?tok |- _ =>
      exists (Source.AbstractType (lexeme tok) ms fs first more)
  end.
  split_and!.
  - match goal with
    | |- reads _ _ (tokens_of_abstract_type ?a) =>
        assert (tokens_of_abstract_type a
                = [identifier (Source.abstract_name a); symbol LEFT_PARENTHESIS]
                  ++ (ms ≫= tokens_of_member)
                  ++ (fs ≫= tokens_of_function)
                  ++ [symbol RIGHT_PARENTHESIS; symbol EQUALS]
                  ++ tokens_of_subtype first
                  ++ (more ≫= tokens_of_alternative) ++ []) as ->
    end.
    { unfold tokens_of_abstract_type, tokens_of_header. simpl.
      by rewrite app_nil_r, <-!(assoc_L (++)). }
    eapply reads_step; [eassumption|by apply canon_of_identifier|].
    eapply reads_step; [eassumption|by apply canon_symbol|].
    eapply reads_app; [exact Hms|].
    eapply reads_app; [exact Hfs|].
    eapply reads_step; [eassumption|by apply canon_symbol|].
    eapply reads_step; [eassumption|by apply canon_symbol|].
    eapply reads_app; [exact Hfirst|].
    eapply reads_app; [exact Hmore|].
    apply reads_refl.
  - simpl. by constructor.
  - unfold abstract_type_of.
    change (Source.subtypes (Source.AbstractType _ ms fs first more))
      with (first :: more).
    by rewrite dict_of_named_subtypes.
Qed.

Lemma file_body_reads fuel s p s' p' :
  file_body fuel s p = Return (Continue s', p') →
  ∃ c, reads p p' (tokens_of_construct c) ∧ checked_construct c
       ∧ s' = add_construct s c.
Proof.
  unfold file_body. intros H. invert_M; [done|].
  match goal with
  | H : context [type_ ?tok] |- _ => destruct (type_ tok) eqn:Hkind
  end; invert_M; simplify_eq.
  - match goal with
    | Htype : parse_polymorphic_type _ _ _ = Return _ |- _ =>
        apply parse_polymorphic_type_reads in Htype
          as (abstract & Hreads & Hchecked & ->)
    end.
    by exists (Source.AbstractTypeDefinition abstract).
  - match goal with
    | Hname : _ !! _ = Some ?name, Hid : type_ ?name = IDENTIFIER,
      Hty : _ !! _ = Some ?ty, Hliteral : type_ ?ty = STRING_LITERAL |- _ =>
        exists (Source.TypeDefinition (lexeme name) (lexeme ty))
    end.
    split_and!; [|done..]. simpl. read_tokens.
Qed.

Lemma file_body_stops fuel s p s' p' :
  file_body fuel s p = Return (Break s', p') →
  (p' = p ∧ s' = s ∧ at_end p)
  ∨ ∃ tok, tokens p !! index p = Some tok ∧ type_ tok = STRING_LITERAL
           ∧ p' = advance 1 p
           ∧ s' = mkFileState (type_definitions s) (polymorphic_types s)
                    (unquote (lexeme tok)).
Proof.
  unfold file_body. intros H. invert_M.
  - simplify_eq. left. split_and!; [done..|].
    match goal with Hend : _ ↔ at_end p |- _ => by apply Hend end.
  - match goal with
    | H : context [type_ ?tok] |- _ => destruct (type_ tok) eqn:Hkind
    end; invert_M; simplify_eq.
    right. by eexists.
Qed.

Lemma remaining_lookup p tok :
  tokens p !! index p = Some tok ↔ ∃ rest, remaining p = tok :: rest.
Proof.
  unfold remaining. split.
  - intros Htok. eexists. by apply drop_S.
  - intros [rest Hrest].
    by rewrite <-(Nat.add_0_r (index p)), <-lookup_drop, Hrest.
Qed.

Lemma state_after_constructs cs :
  foldl add_construct (mkFileState [] [] "") cs = state_after cs.
Proof. by rewrite foldl_add_construct. Qed.

Lemma parse_file_reads fuel p description p' :
  parse_file fuel p = Return (description, p') →
  ∃ f, reads p p' (tokens_of_literal (Source.file_prelude f)
                   ++ (Source.file_constructs f ≫= tokens_of_construct)
                   ++ tokens_of_literal (Source.file_postlude f))
       ∧ at_end p' ∧ checked_file f ∧ description = description_of f.
Proof.
  unfold parse_file. intros H.
  apply bind_inv in H as (tok & q0 & [-> Htok]%current_inv & H).
  apply bind_inv in H as (prelude & q1 & Hprelude & H).
  apply bind_inv in H as (s & q2 & Hloop & H).
  apply bind_inv in H as (b & q3 & [-> Hend]%is_end_of_input_inv & H).
  destruct b; [|done]. apply ret_inv in H as [-> ->].
  assert (at_end q2) as Hat_end by by apply Hend.
  assert (∃ o, reads p q1 (tokens_of_literal o) ∧ prelude = text_of_literal o
               ∧ (o = None → q1 = p ∧ type_ tok ≠ STRING_LITERAL))
    as (o & Ho & -> & Hnone).
  { destruct (decide (type_ tok = STRING_LITERAL)); invert_M; simplify_eq.
    - exists (Some (lexeme tok)). split_and!; [|done..]. simpl. read_tokens.
    - exists None. split_and!; [apply reads_refl|done..]. }
  apply (while_reads (file_body fuel) tokens_of_construct add_construct
           checked_construct _ (file_body_reads fuel) (file_body_stops fuel))
    in Hloop as (cs & q & Hcs & Hchecked & Hstop).
  rewrite state_after_constructs in Hstop.
  destruct Hstop as [(-> & -> & _)|(tok' & Htok' & Hliteral & -> & ->)].
  - exists (Source.File o cs None). simpl. split_and!; [|done|by split|done].
    rewrite app_nil_r. by eapply reads_app.
  - exists (Source.File o cs (Some (lexeme tok'))). simpl.
    split_and!; [|done| |done].
    + eapply reads_app; [exact Ho|]. eapply reads_app; [exact Hcs|].
      read_tokens.
    + split; [done|]. simpl. intros -> ->.
      destruct (Hnone eq_refl) as [-> Hne].
      destruct Hcs as [_ (raw & Hraw & Hnil)].
      apply fmap_nil_inv in Hnil as ->. simpl in Hraw.
      apply remaining_lookup in Htok' as [rest Hrest].
      rewrite Hrest in Hraw.
      assert (tokens p !! index p = Some tok') as Htok''
        by (apply remaining_lookup; by eexists).
      by simplify_eq.
Qed.

(** X15: [parse] accepts the grammar only: whenever it returns, the
    tokens, or the tokens with the end-of-input token they lack, spell a
    source file of the grammar whose variants pass their checks, perhaps
    followed by more tokens, and what it returns is the description of
    that file. *)
Theorem parse_accepts_the_grammar_only (toks : list Token)
    (description : GeneratorDescription.t) :
  parse toks = Return description →
  ∃ f, checked_file f ∧ description = description_of f
       ∧ ((∃ more, canon <$> toks = tokens_of_file f ++ more)
          ∨ canon <$> (toks ++ [symbol END_OF_INPUT]) = tokens_of_file f).
Proof.
  unfold parse, parse_with.
  destruct (parse_file _ (Parser_init toks)) as [[d q]| |] eqn:H; [|done..].
  intros [= <-].
  apply parse_file_reads in H
    as (f & [_ (raw & Hraw & Hspell)] & Hend & Hchecked & ->).
  exists f. split_and!; [done..|].
  change (remaining (Parser_init toks)) with toks in Hraw.
  unfold tokens_of_file.
  destruct Hend as [Hlen|(tok & Htok & Hty)].
  - right. unfold remaining in Hraw. rewrite drop_ge, app_nil_r in Hraw by done.
    subst raw. rewrite fmap_app, Hspell. by rewrite <-!(assoc_L (++)).
  - left. apply remaining_lookup in Htok as [rest Hrest].
    exists (canon <$> rest).
    rewrite Hraw, Hrest, fmap_app, fmap_cons, Hspell.
    rewrite (canon_symbol tok END_OF_INPUT) by done.
    by rewrite <-!(assoc_L (++)).
Qed.

(** The sample input spells a source file of the grammar. *)
Lemma parse_accepts_the_grammar_only_witness :
  ∃ f, checked_file f ∧ description_of shape_file = description_of f
       ∧ ((∃ more, canon <$> shape_tokens = tokens_of_file f ++ more)
          ∨ canon <$> (shape_tokens ++ [symbol END_OF_INPUT])
            = tokens_of_file f).
Proof.
  apply (parse_accepts_the_grammar_only shape_tokens
           (description_of shape_file)).
  reflexivity.
Defined.

(** ** No index error on tokens with an end-of-input token *)

Lemma bind_in_bounds {A B : Type} (m : M A) (f : A → M B) p :
  in_bounds m p →
  (∀ a p', m p = Return (a, p') → guarded p' → in_bounds (f a) p') →
  in_bounds (m ≫= f) p.
Proof.
  intros [Hm Hguarded] Hf. unfold in_bounds, mbind, M_bind in *.
  destruct (m p) as [[a p']|e|];
    [|split; [intros [= ->]; by apply Hm|done]|by split].
  apply Hf; [done|]. by apply (Hguarded a).
Qed.

Lemma guarded_lookup p : guarded p → is_Some (tokens p !! index p).
Proof.
  intros (i & tok & Hi & Htok & _). apply lookup_lt_is_Some.
  apply lookup_lt_Some in Htok. lia.
Qed.

Lemma guarded_advance p tok :
  guarded p → tokens p !! index p = Some tok → type_ tok ≠ END_OF_INPUT →
  guarded (advance 1 p).
Proof.
  intros (i & tok' & Hi & Htok' & Hty) Htok Hne. exists i, tok'.
  split_and!; [|done..]. simpl.
  destruct (decide (i = index p)) as [->|]; [|lia]. by simplify_eq.
Qed.

Lemma current_in_bounds p : guarded p → in_bounds current p.
Proof.
  intros Hp. destruct (guarded_lookup p Hp) as [tok Htok].
  unfold in_bounds. rewrite (current_Some _ _ Htok). split; [done|].
  by intros ? ? [= <- <-].
Qed.

Lemma is_end_of_input_in_bounds p : guarded p → in_bounds is_end_of_input p.
Proof.
  intros Hp. destruct (is_end_of_input_total p) as [b Hb].
  unfold in_bounds. rewrite Hb. split; [done|]. by intros ? ? [= <- <-].
Qed.

Lemma consume_in_bounds ty p : guarded p → in_bounds (consume ty) p.
Proof.
  intros Hp. split.
  - destruct (guarded_lookup p Hp) as [tok Htok].
    destruct (decide (type_ tok = END_OF_INPUT)) as [Hty|Hty].
    { rewrite consume_at_end; [done|]. right. by exists tok. }
    destruct (decide (type_ tok = ty)) as [<-|Hne].
    + by rewrite consume_match.
    + by rewrite (consume_mismatch _ _ _ Htok).
  - intros tok p' H. pose proof H as (Htok & <- & ->)%consume_inv.
    eapply guarded_advance; [done..|]. intros Hty.
    rewrite consume_at_end in H; [done|]. right. by exists tok.
Qed.

Lemma next_in_bounds p tok :
  guarded p → tokens p !! index p = Some tok → type_ tok ≠ END_OF_INPUT →
  in_bounds next p.
Proof.
  intros Hp Htok Hty. split; [done|]. intros [] p' [= <-].
  by eapply guarded_advance.
Qed.

Lemma mret_in_bounds {A : Type} (a : A) p : guarded p → in_bounds (mret a) p.
Proof. intros Hp. split; [done|]. by intros ? ? [= <- <-]. Qed.

Lemma raise_in_bounds {A : Type} msg p :
  in_bounds (raise (A:=A) (ParserError msg)) p.
Proof. by split. Qed.

Lemma construct_in_bounds functions members implementations p :
  guarded p →
  in_bounds (construct (PolymorphicType.new functions members implementations)) p.
Proof.
  intros Hp. unfold in_bounds, construct, PolymorphicType.new.
  repeat case_decide; split; try done. by intros ? ? [= <- <-].
Qed.

Lemma while_in_bounds {S : Type} (body : S → M (flow S)) :
  (∀ s q, guarded q → in_bounds (body s) q) →
  ∀ fuel s p, guarded p → in_bounds (while fuel body s) p.
Proof.
  intros Hbody. induction fuel as [|fuel IH]; intros s p Hp; [by split|].
  rewrite while_S. apply bind_in_bounds; [by apply Hbody|].
  intros [s'|s'] p' _ Hp'; [by apply IH|by apply mret_in_bounds].
Qed.

(** One call of a production, and what the calls before it have shown. *)
Ltac in_bounds_step :=
  match goal with
  | |- in_bounds (_ ≫= _) _ =>
      apply bind_in_bounds;
        [|let H := fresh "H" in
          intros ? ? H ?;
          try (apply current_inv in H as [-> H]); simplify_eq]
  | |- in_bounds current _ => by apply current_in_bounds
  | |- in_bounds (consume _) _ => by apply consume_in_bounds
  | |- in_bounds is_end_of_input _ => by apply is_end_of_input_in_bounds
  | |- in_bounds (mret _) _ => by apply mret_in_bounds
  | |- in_bounds (raise (ParserError _)) _ => apply raise_in_bounds
  | |- in_bounds (construct _) _ => by apply construct_in_bounds
  | |- in_bounds next _ =>
      eapply next_in_bounds; [done|eassumption|congruence]
  | |- in_bounds (if bool_decide ?P then _ else _) _ =>
      let E := fresh "E" in
      destruct (bool_decide P) eqn:E;
        [apply bool_decide_eq_true in E|apply bool_decide_eq_false in E]
  | |- in_bounds (if ?b then _ else _) _ => destruct b
  | |- in_bounds (let '(_, _) := ?x in _) _ => destruct x
  end.

Lemma parse_data_member_in_bounds p :
  guarded p → in_bounds parse_data_member p.
Proof. intros Hp. unfold parse_data_member. repeat in_bounds_step. Qed.

Lemma parse_implementation_in_bounds p :
  guarded p → in_bounds parse_implementation p.
Proof. intros Hp. unfold parse_implementation. repeat in_bounds_step. Qed.

Lemma subtype_body_in_bounds s p : guarded p → in_bounds (subtype_body s) p.
Proof.
  intros Hp. unfold subtype_body. repeat in_bounds_step;
    auto using parse_data_member_in_bounds, parse_implementation_in_bounds.
Qed.

Lemma parse_subtype_in_bounds fuel p :
  guarded p → in_bounds (parse_subtype fuel) p.
Proof.
  intros Hp. unfold parse_subtype. repeat in_bounds_step.
  apply while_in_bounds; [|done]. intros. by apply subtype_body_in_bounds.
Qed.

Lemma base_type_members_body_in_bounds s p :
  guarded p → in_bounds (base_type_members_body s) p.
Proof.
  intros Hp. unfold base_type_members_body. repeat in_bounds_step;
    auto using parse_data_member_in_bounds.
Qed.

Lemma functions_body_in_bounds s p : guarded p → in_bounds (functions_body s) p.
Proof. intros Hp. unfold functions_body. repeat in_bounds_step. Qed.

Lemma sub_types_body_in_bounds fuel functions s p :
  guarded p → in_bounds (sub_types_body fuel functions s) p.
Proof.
  intros Hp. unfold sub_types_body. repeat in_bounds_step;
    auto using parse_subtype_in_bounds.
Qed.

Lemma parse_polymorphic_type_in_bounds fuel types p :
  guarded p → in_bounds (parse_polymorphic_type fuel types) p.
Proof.
  intros Hp. unfold parse_polymorphic_type. repeat in_bounds_step;
    auto using parse_subtype_in_bounds.
  - apply while_in_bounds; [|done].
    intros. by apply base_type_members_body_in_bounds.
  - apply while_in_bounds; [|done]. intros. by apply functions_body_in_bounds.
  - apply while_in_bounds; [|done]. intros. by apply sub_types_body_in_bounds.
Qed.

Lemma file_body_in_bounds fuel s p : guarded p → in_bounds (file_body fuel s) p.
Proof.
  intros Hp. unfold file_body. repeat in_bounds_step.
  match goal with
  | |- context [type_ ?tok] => destruct (type_ tok) eqn:Hkind
  end; repeat in_bounds_step.
  by apply parse_polymorphic_type_in_bounds.
Qed.

Lemma parse_file_in_bounds fuel p : guarded p → in_bounds (parse_file fuel) p.
Proof.
  intros Hp. unfold parse_file. repeat in_bounds_step.
  apply while_in_bounds; [|done]. intros. by apply file_body_in_bounds.
Qed.

(** X16: on tokens with an end-of-input token among them, [parse] reads
    no token past the last: it returns or raises a [ParserError], never
    the [IndexError] of the list access.  (The cursor never passes an
    end-of-input token: [consume] refuses it, and [next] is called on
    tokens of another kind only.) *)
Theorem no_index_error_with_end_of_input (toks : list Token) (tok : Token) :
  tok ∈ toks → type_ tok = END_OF_INPUT →
  (∃ description, parse toks = Return description)
  ∨ (∃ msg, parse toks = Raise (ParserError msg)).
Proof.
  intros [i Hi]%list_elem_of_lookup_1 Hty.
  assert (guarded (Parser_init toks)) as Hguarded.
  { exists i, tok. split_and!; [simpl; lia|done..]. }
  destruct (parse_file_in_bounds (S (length toks)) _ Hguarded) as [Hnever _].
  pose proof (parse_with_never_out_of_fuel (S (length toks)) toks ltac:(lia))
    as Hfuel.
  unfold parse, parse_with in *.
  destruct (parse_file _ _) as [[d q]|[msg|]|]; [by eauto..|done|done].
Qed.

(** The sample input, cut off in the middle of a variant, with the
    end-of-input token after it. *)
Lemma no_index_error_with_end_of_input_witness :
  (∃ description,
     parse (take 10 shape_tokens ++ [mkToken END_OF_INPUT ""])
     = Return description)
  ∨ (∃ msg, parse (take 10 shape_tokens ++ [mkToken END_OF_INPUT ""])
            = Raise (ParserError msg)).
Proof.
  apply (no_index_error_with_end_of_input _ (mkToken END_OF_INPUT "")).
  - apply list_elem_of_lookup_2 with 10. reflexivity.
  - reflexivity.
Defined.
